(** * dusty: the directory tree, its scan, its navigation and its size formatter

    A shallow embedding of [main.go] (the version with progress reporting and
    deletion).  The Go heap of [*DirInfo] nodes is an explicit store indexed by
    addresses, so that identity of nodes, the back pointer [Parent] and the
    in-place updates of [Children] and [Size] are the ones of the program. *)

From Stdlib Require Import ZArith Lia List Ascii String DecimalString Permutation Sorted.
From Stdlib Require Import QArith Qabs Qpower Lqa.
From stdpp Require Import base list.

Local Open Scope Z_scope.

(** ** Machine integers *)

(** [int64] values are integers of [[-2^63, 2^63)]; [wrap64] brings the result
    of an arithmetic operation back into that range, as Go does. *)
Definition min_int64 : Z := - 2 ^ 63.
Definition max_int64 : Z := 2 ^ 63 - 1.
Definition wrap64 (z : Z) : Z := (z + 2 ^ 63) mod 2 ^ 64 - 2 ^ 63.
Definition add64 (a b : Z) : Z := wrap64 (a + b).
Definition mul64 (a b : Z) : Z := wrap64 (a * b).
Definition in_int64 (z : Z) : Prop := min_int64 <= z <= max_int64.

(** ** formatSize *)

(** [fmt.Sprintf("%d", z)]. *)
Definition sprintf_d (z : Z) : string := NilZero.string_of_int (Z.to_int z).

(** [float64(n)] for an integer [n]: the nearest value with a 53 bit
    significand, ties to even.  The value of the float is itself an integer
    here, so it is kept as a [Z]. *)
Definition round_half_even (num den : Z) : Z :=
  let q := num / den in
  let r := num mod den in
  if 2 * r <? den then q
  else if den <? 2 * r then q + 1
  else if Z.even q then q else q + 1.

Definition float64_of_nonneg (a : Z) : Z :=
  let k := Z.log2 a + 1 - 53 in
  if k <=? 0 then a else round_half_even a (2 ^ k) * 2 ^ k.

Definition float64_of_int (n : Z) : Z :=
  if n <? 0 then - float64_of_nonneg (- n) else float64_of_nonneg n.

(** [fmt.Sprintf("%.1f", x / d)] for a float [x] with an integer value and a
    divisor [d] that is a power of two: the division is exact in binary
    floating point, and the formatter rounds the exact quotient to one
    decimal, ties to even.  Only used with [0 <= x] and [0 < d]. *)
Definition tenths (x d : Z) : Z := round_half_even (10 * x) d.

Definition sprintf_1f (x d : Z) : string :=
  let t := tenths x d in
  (sprintf_d (t / 10) ++ "." ++ sprintf_d (t mod 10))%string.

(** ["KMGTPE"[exp]]; Go panics outside of the string, which
    [formatSize_scaled] below excludes for every [int64]. *)
Definition units : string := "KMGTPE".

Definition unit_char (exp : nat) : string :=
  match String.get exp units with
  | Some c => String c EmptyString
  | None => EmptyString
  end.

(** The loop [for n := bytes / unit; n >= unit; n /= unit { div *= unit; exp++ }].
    Every turn divides [n] by 1024, so 64 turns are more than an [int64] can
    take ([scale_loop_spec]). *)
Fixpoint scale_loop (fuel : nat) (n div : Z) (exp : nat) : Z * nat :=
  match fuel with
  | O => (div, exp)
  | S fuel' =>
      if 1024 <=? n
      then scale_loop fuel' (Z.quot n 1024) (mul64 div 1024) (S exp)
      else (div, exp)
  end.

Definition formatSize (bytes : Z) : string :=
  if bytes <? 1024 then (sprintf_d bytes ++ " B")%string
  else
    let '(div, exp) := scale_loop 64 (Z.quot bytes 1024) 1024 O in
    (sprintf_1f (float64_of_int bytes) (float64_of_int div)
       ++ " " ++ unit_char exp ++ "B")%string.

(** ** The data model *)

(** A [*DirInfo] is an address in the store; [nil] is [None]. *)
Abbreviation ptr := nat (only parsing).
Abbreviation error := string (only parsing).

Record DirInfo : Type := mkDirInfo {
  Path : string;
  Size : Z;
  Children : list ptr;
  Parent : option ptr;
  IsDir : bool;
  Error : option error
}.

Definition set_Size (v : Z) (d : DirInfo) : DirInfo :=
  mkDirInfo (Path d) v (Children d) (Parent d) (IsDir d) (Error d).
Definition set_Children (v : list ptr) (d : DirInfo) : DirInfo :=
  mkDirInfo (Path d) (Size d) v (Parent d) (IsDir d) (Error d).
Definition set_Error (v : option error) (d : DirInfo) : DirInfo :=
  mkDirInfo (Path d) (Size d) (Children d) (Parent d) (IsDir d) v.

(** The store: node [p] lives at index [p].  Go never frees a node that is
    still referenced, so the store only grows. *)
Abbreviation Heap := (list DirInfo).

Definition zero_DirInfo : DirInfo := mkDirInfo "" 0 [] None false None.

(** [*p].  Every pointer the program holds was allocated; the zero value is
    what the model answers for an address outside of the store. *)
Definition deref (h : Heap) (p : ptr) : DirInfo := default zero_DirInfo (h !! p).

Definition len {A} (l : list A) : Z := Z.of_nat (length l).

(** ** sort.Slice *)

(** [sort.Slice] orders a slice in place by a [less] function and leaves the
    order of equal elements open.  The model is insertion sort, which is what
    Go runs on slices of at most twelve elements; the proofs below rely only
    on [sort_Slice_perm] and [sort_Slice_sorted], and the comparison of the
    two scans on [sort_Slice_ext], which holds of every sort that looks at
    its elements through [less] only. *)
Section Sort.
Context {A : Type} (less : A -> A -> bool).

Fixpoint insert_sorted (x : A) (l : list A) : list A :=
  match l with
  | [] => [x]
  | y :: l' => if less x y then x :: y :: l' else y :: insert_sorted x l'
  end.

Definition sort_Slice (l : list A) : list A :=
  fold_left (fun acc x => insert_sorted x acc) l [].
End Sort.

(** The two orders of the program. *)
Definition size_less (h : Heap) (a b : ptr) : bool :=
  Size (deref h b) <? Size (deref h a).

(** [filepath.Base] on slash separated paths: the last element of the
    path, trailing slashes apart; ["."] for the empty path and ["/"] for a
    path of slashes only. *)
Fixpoint last_element (cur last : string) (s : string) : string :=
  match s with
  | EmptyString => match cur with EmptyString => last | _ => cur end
  | String c s' =>
      if Ascii.eqb c "/" then
        last_element EmptyString
          (match cur with EmptyString => last | _ => cur end) s'
      else last_element (cur ++ String c EmptyString)%string last s'
  end.

Definition filepath_Base (path : string) : string :=
  match path with
  | EmptyString => "."
  | _ =>
      match last_element EmptyString EmptyString path with
      | EmptyString => "/"
      | e => e
      end
  end.

(** [strings.ToLower] on a string of ASCII bytes, where Go lowers the
    letters A to Z and nothing else.  On a string with a byte outside of
    ASCII Go maps every rune through the case tables of the [unicode]
    package, which are not part of this development: there
    [strings_ToLower] leaves those bytes as they are, which need not be
    what Go returns, and what is stated about the order by name is stated
    for stores whose paths are ASCII ([ascii_paths]). *)
Definition lower_ascii (c : ascii) : ascii :=
  let n := nat_of_ascii c in
  if ((65 <=? n) && (n <=? 90))%nat then ascii_of_nat (n + 32) else c.

Fixpoint strings_ToLower (s : string) : string :=
  match s with
  | EmptyString => EmptyString
  | String c s' => String (lower_ascii c) (strings_ToLower s')
  end.

Fixpoint is_ascii (s : string) : bool :=
  match s with
  | EmptyString => true
  | String c s' => (nat_of_ascii c <? 128)%nat && is_ascii s'
  end.

Definition name_less (h : Heap) (a b : ptr) : bool :=
  String.ltb (strings_ToLower (filepath_Base (Path (deref h a))))
             (strings_ToLower (filepath_Base (Path (deref h b)))).

(** Every path of the store is a string of ASCII bytes. *)
Definition ascii_paths (h : Heap) : bool :=
  forallb (fun d => is_ascii (Path d)) h.

(** [filepath.Clean] on slash separated paths (Unix: no volume names).  Go
    walks the path element by element and writes to a buffer: an empty
    element and ["."] are dropped; [".."] takes the last element written
    back out, unless there is none to take, in which case it is dropped in
    a rooted path and written in another, where it joins the leading
    [".."] elements that nothing can take out; every other element is
    written.  [out] holds the elements written, last first. *)
Fixpoint split_slash (cur : string) (s : string) : list string :=
  match s with
  | EmptyString => [cur]
  | String c s' =>
      if Ascii.eqb c "/" then cur :: split_slash EmptyString s'
      else split_slash (cur ++ String c EmptyString)%string s'
  end.

Fixpoint clean_elems (rooted : bool) (out : list string) (elems : list string)
    : list string :=
  match elems with
  | [] => out
  | e :: rest =>
      if String.eqb e "" || String.eqb e "." then clean_elems rooted out rest
      else if String.eqb e ".." then
        match out with
        | top :: out' =>
            if String.eqb top ".." then clean_elems rooted (e :: out) rest
            else clean_elems rooted out' rest
        | [] =>
            if rooted then clean_elems rooted [] rest
            else clean_elems rooted [e] rest
        end
      else clean_elems rooted (e :: out) rest
  end.

Fixpoint join_slash (elems : list string) : string :=
  match elems with
  | [] => EmptyString
  | [e] => e
  | e :: rest => (e ++ "/" ++ join_slash rest)%string
  end.

Definition is_rooted (path : string) : bool :=
  match path with
  | String c _ => Ascii.eqb c "/"
  | EmptyString => false
  end.

Definition filepath_Clean (path : string) : string :=
  let rooted := is_rooted path in
  let out := rev (clean_elems rooted [] (split_slash EmptyString path)) in
  match rooted, out with
  | false, [] => "."
  | false, _ => join_slash out
  | true, _ => ("/" ++ join_slash out)%string
  end.

(** [filepath.Join(path, name)]: the elements from the first one that is
    not empty on, joined by slashes and cleaned; the empty string when both
    are empty. *)
Definition filepath_Join (path name : string) : string :=
  if negb (String.eqb path "") then filepath_Clean (path ++ "/" ++ name)
  else if negb (String.eqb name "") then filepath_Clean name
  else "".

(** ** The scan *)

(** What the scan sees of the file system below a path: [os.Stat] fails; or
    it reports a file of some length; or it reports a directory, for which
    [os.ReadDir] fails or lists named entries. *)
#[local] Unset Elimination Schemes.
Inductive FsNode : Type :=
| StatFails (err : error)
| RegularFile (size : Z)
| UnlistableDir (err : error)
| Directory (entries : list (string * FsNode)).
#[local] Set Elimination Schemes.

Record scanProgressMsg : Type := mkProgress {
  pm_root : option ptr;
  pm_filesScanned : Z;
  pm_dirsScanned : Z;
  pm_totalSize : Z
}.

(** The globals [currentRoot] and [progressChan], the two counters that
    [scanDirectory] passes by reference, and the store.  [published] is a
    ghost field: the store as it stood at each successful send, oldest
    first, which is what a snapshot shows to whoever reads it then.
    [receives] is what the message loop does to the channel while the scan
    runs beside it ([Init] starts [scanTick] with [scanDirectory], and the
    handler of a tick receives): for each attempt to send that is to come,
    the number of messages received since the attempt before it; none once
    the list is used up. *)
Record ScanState : Type := mkScan {
  heap : Heap;
  currentRoot : option ptr;
  progressChan : list scanProgressMsg;
  filesScanned : Z;
  dirsScanned : Z;
  published : list (scanProgressMsg * Heap);
  receives : list nat
}.

Definition chan_capacity : nat := 100.

(** [select { case progressChan <- msg: default: }], on the channel as the
    receives since the last attempt left it. *)
Definition try_send (msg : scanProgressMsg) (s : ScanState) : ScanState :=
  let chan := drop (hd 0%nat (receives s)) (progressChan s) in
  if (length chan <? chan_capacity)%nat
  then mkScan (heap s) (currentRoot s) (chan ++ [msg])
              (filesScanned s) (dirsScanned s) (published s ++ [(msg, heap s)])
              (tl (receives s))
  else mkScan (heap s) (currentRoot s) chan
              (filesScanned s) (dirsScanned s) (published s)
              (tl (receives s)).

Definition with_heap (f : Heap -> Heap) (s : ScanState) : ScanState :=
  mkScan (f (heap s)) (currentRoot s) (progressChan s)
         (filesScanned s) (dirsScanned s) (published s) (receives s).

(** [dirInfo := &DirInfo{Path: path, Parent: parent, IsDir: isDir}] followed
    by the assignment of [currentRoot] on the first call. *)
Definition new_DirInfo (path : string) (parent : option ptr) (isDir : bool)
    (s : ScanState) : ptr * ScanState :=
  let dirInfo := length (heap s) in
  let h := heap s ++ [mkDirInfo path 0 [] parent isDir None] in
  let root :=
    match parent, currentRoot s with
    | None, None => Some dirInfo
    | _, _ => currentRoot s
    end in
  (dirInfo, mkScan h root (progressChan s) (filesScanned s) (dirsScanned s)
                   (published s) (receives s)).

Definition incr_files (s : ScanState) : ScanState :=
  mkScan (heap s) (currentRoot s) (progressChan s)
         (filesScanned s + 1) (dirsScanned s) (published s) (receives s).
Definition incr_dirs (s : ScanState) : ScanState :=
  mkScan (heap s) (currentRoot s) (progressChan s)
         (filesScanned s) (dirsScanned s + 1) (published s) (receives s).

(** The body of the loop after a child was scanned: append it, add its size,
    and report when the directory is the root of the scan. *)
Definition attach_child (dirInfo child : ptr) (totalSize : Z) (s : ScanState)
    : Z * ScanState :=
  let s1 := with_heap
    (alter (fun d => set_Children (Children d ++ [child]) d) dirInfo) s in
  let totalSize := add64 totalSize (Size (deref (heap s1) child)) in
  if decide (Some dirInfo = currentRoot s1) then
    let s2 := with_heap (alter (set_Size totalSize) dirInfo) s1 in
    (totalSize,
     try_send (mkProgress (currentRoot s2) (filesScanned s2) (dirsScanned s2)
                          totalSize) s2)
  else (totalSize, s1).

(** The Go function returns either a node and no error, or no node and an
    error; the two cases are the two constructors of [sum]. *)
Fixpoint calculateDirSizeWithProgress (fs : FsNode) (path : string)
    (parent : option ptr) (s : ScanState) : (ptr + error) * ScanState :=
  match fs with
  | StatFails err => (inr err, s)
  | RegularFile size =>
      let '(dirInfo, s) := new_DirInfo path parent false s in
      let s := with_heap (alter (set_Size (wrap64 size)) dirInfo) s in
      (inl dirInfo, incr_files s)
  | UnlistableDir err =>
      let '(dirInfo, s) := new_DirInfo path parent true s in
      let s := incr_dirs s in
      (inl dirInfo, with_heap (alter (set_Error (Some err)) dirInfo) s)
  | Directory entries =>
      let '(dirInfo, s) := new_DirInfo path parent true s in
      let s := incr_dirs s in
      let fix loop (entries : list (string * FsNode)) (totalSize : Z)
          (s : ScanState) : Z * ScanState :=
        match entries with
        | [] => (totalSize, s)
        | (name, sub) :: rest =>
            match calculateDirSizeWithProgress sub (filepath_Join path name)
                    (Some dirInfo) s with
            | (inr _, s) => loop rest totalSize s
            | (inl child, s) =>
                let '(totalSize, s) := attach_child dirInfo child totalSize s in
                loop rest totalSize s
            end
        end in
      let '(totalSize, s) := loop entries 0 s in
      let s := with_heap (alter (set_Size totalSize) dirInfo) s in
      let s := with_heap (fun h =>
        alter (fun d => set_Children (sort_Slice (size_less h) (Children d)) d)
              dirInfo h) s in
      (inl dirInfo, s)
  end.

Record scanCompleteMsg : Type := mkScanComplete {
  sc_root : option ptr;
  sc_err : option error
}.

(** The state in which [scanDirectory] starts, beside a message loop that
    will receive as [receives] says; [initial_scan] is the start of a scan
    during which no message is received. *)
Definition scan_during (receives : list nat) : ScanState :=
  mkScan [] None [] 0 0 [] receives.

Definition initial_scan : ScanState := mkScan [] None [] 0 0 [] [].

(** [scanDirectory], on the view [fs] of the path given on the command line,
    from the state [s0]. *)
Definition scanDirectory_from (s0 : ScanState) (path : string) (fs : FsNode)
    : scanCompleteMsg * ScanState :=
  match calculateDirSizeWithProgress fs path None s0 with
  | (inr err, s) => (mkScanComplete None (Some err), s)
  | (inl root, s) =>
      let s :=
        match currentRoot s with
        | Some r =>
            try_send (mkProgress (currentRoot s) (filesScanned s)
                                 (dirsScanned s) (Size (deref (heap s) r))) s
        | None => s
        end in
      (mkScanComplete (Some root) None, s)
  end.

Definition scanDirectory (path : string) (fs : FsNode)
    : scanCompleteMsg * ScanState :=
  scanDirectory_from initial_scan path fs.

(** ** The application state and its messages *)

Record model : Type := mkModel {
  rootDir : option ptr;
  currentDir : option ptr;
  cursor : Z;
  scanning : bool;
  scanError : option error;
  width : Z;
  height : Z;
  sortBy : string;
  statusMsg : string;
  deleting : bool;
  deleteSpinner : Z;
  deleteTarget : option ptr;
  deleteFilename : string;
  scanProgress : option ptr;
  m_filesScanned : Z;
  m_dirsScanned : Z;
  totalSize : Z
}.

Definition set_cursor (v : Z) (m : model) : model :=
  mkModel (rootDir m) (currentDir m) v (scanning m) (scanError m) (width m)
    (height m) (sortBy m) (statusMsg m) (deleting m) (deleteSpinner m)
    (deleteTarget m) (deleteFilename m) (scanProgress m) (m_filesScanned m)
    (m_dirsScanned m) (totalSize m).
Definition set_currentDir (v : option ptr) (m : model) : model :=
  mkModel (rootDir m) v (cursor m) (scanning m) (scanError m) (width m)
    (height m) (sortBy m) (statusMsg m) (deleting m) (deleteSpinner m)
    (deleteTarget m) (deleteFilename m) (scanProgress m) (m_filesScanned m)
    (m_dirsScanned m) (totalSize m).
Definition set_sortBy (v : string) (m : model) : model :=
  mkModel (rootDir m) (currentDir m) (cursor m) (scanning m) (scanError m)
    (width m) (height m) v (statusMsg m) (deleting m) (deleteSpinner m)
    (deleteTarget m) (deleteFilename m) (scanProgress m) (m_filesScanned m)
    (m_dirsScanned m) (totalSize m).
Definition set_window (w h : Z) (m : model) : model :=
  mkModel (rootDir m) (currentDir m) (cursor m) (scanning m) (scanError m)
    w h (sortBy m) (statusMsg m) (deleting m) (deleteSpinner m)
    (deleteTarget m) (deleteFilename m) (scanProgress m) (m_filesScanned m)
    (m_dirsScanned m) (totalSize m).
Definition set_scanComplete (msg : scanCompleteMsg) (m : model) : model :=
  mkModel (sc_root msg) (sc_root msg) (cursor m) false (sc_err msg) (width m)
    (height m) (sortBy m) (statusMsg m) (deleting m) (deleteSpinner m)
    (deleteTarget m) (deleteFilename m) None (m_filesScanned m)
    (m_dirsScanned m) (totalSize m).
Definition set_progress (p : scanProgressMsg) (m : model) : model :=
  mkModel (rootDir m) (currentDir m) (cursor m) (scanning m) (scanError m)
    (width m) (height m) (sortBy m) (statusMsg m) (deleting m)
    (deleteSpinner m) (deleteTarget m) (deleteFilename m) (pm_root p)
    (pm_filesScanned p) (pm_dirsScanned p) (pm_totalSize p).
Definition set_deleteSpinner (v : Z) (m : model) : model :=
  mkModel (rootDir m) (currentDir m) (cursor m) (scanning m) (scanError m)
    (width m) (height m) (sortBy m) (statusMsg m) (deleting m) v
    (deleteTarget m) (deleteFilename m) (scanProgress m) (m_filesScanned m)
    (m_dirsScanned m) (totalSize m).
Definition set_deleteDone (status : string) (m : model) : model :=
  mkModel (rootDir m) (currentDir m) (cursor m) (scanning m) (scanError m)
    (width m) (height m) (sortBy m) status false (deleteSpinner m)
    (deleteTarget m) (deleteFilename m) (scanProgress m) (m_filesScanned m)
    (m_dirsScanned m) (totalSize m).
Definition set_deleteStart (target : ptr) (name : string) (m : model) : model :=
  mkModel (rootDir m) (currentDir m) (cursor m) (scanning m) (scanError m)
    (width m) (height m) (sortBy m) (statusMsg m) true 0 (Some target) name
    (scanProgress m) (m_filesScanned m) (m_dirsScanned m) (totalSize m).

(** [initialModel]; the clock fields [startTime] and [statusExpiry] are left
    out of the model. *)
Definition initialModel : model :=
  mkModel None None 0 true None 0 0 "size" "" false 0 None "" None 0 0 0.

Inductive Msg : Type :=
| WindowSizeMsg (w h : Z)
| ScanCompleteMsg (msg : scanCompleteMsg)
| ScanTickMsg
| DeleteProgressMsg
| DeleteCompleteMsg (target : ptr) (err : option error) (filename : string)
| KeyMsg (key : string).

(** The commands [Update] hands back to the runtime. *)
Inductive Cmd : Type :=
| CmdNil
| CmdQuit
| CmdScanTick
| CmdDeleteProgress
| CmdDelete (target : ptr).

(** What a call does: it returns; or it panics on an index out of range; or
    the model ran out of the fuel its recursion was given. *)
Inductive outcome (A : Type) : Type :=
| Ret (a : A)
| Panic
| OutOfFuel.
Arguments Ret {A} a.
Arguments Panic {A}.
Arguments OutOfFuel {A}.

#[global] Instance outcome_bind : MBind outcome := fun A B f x =>
  match x with
  | Ret a => f a
  | Panic => Panic
  | OutOfFuel => OutOfFuel
  end.

(** [s[i]] on a slice. *)
Definition index_slice {A} (s : list A) (i : Z) : outcome A :=
  if (0 <=? i) && (i <? len s) then
    match s !! Z.to_nat i with
    | Some x => Ret x
    | None => Panic
    end
  else Panic.

(** [for i, child := range s { if child == x { ...i...; break } }]: the
    first index that holds [x]. *)
Fixpoint index_of (x : ptr) (s : list ptr) (i : nat) : option nat :=
  match s with
  | [] => None
  | child :: s' => if decide (child = x) then Some i else index_of x s' (S i)
  end.

(** The sum that [recalculateSizes] forms, in loop order. *)
Definition sum_sizes (h : Heap) (cs : list ptr) : Z :=
  fold_left (fun total c => add64 total (Size (deref h c))) cs 0.

(** [recalculateSizes] climbs the [Parent] chain and [sortChildren] descends
    through the children; both recurse on nodes of the store, so the model
    gives them fuel.  [Update] hands them the length of the store, which is
    enough in every state of a session ([recalc_spec], [sortChildren_spec]). *)
Fixpoint recalculateSizes (fuel : nat) (dir : option ptr) (h : Heap)
    : outcome Heap :=
  match dir with
  | None => Ret h
  | Some d =>
      match fuel with
      | O => OutOfFuel
      | S fuel' =>
          let totalSize := sum_sizes h (Children (deref h d)) in
          let h := alter (set_Size totalSize) d h in
          match Parent (deref h d) with
          | Some p => recalculateSizes fuel' (Some p) h
          | None => Ret h
          end
      end
  end.

Fixpoint sortChildren (fuel : nat) (by_ : string) (dir : option ptr) (h : Heap)
    : outcome Heap :=
  match dir with
  | None => Ret h
  | Some d =>
      match fuel with
      | O => OutOfFuel
      | S fuel' =>
          let less := if String.eqb by_ "name" then name_less h else size_less h in
          let h := alter (fun n => set_Children (sort_Slice less (Children n)) n) d h in
          (fix each (cs : list ptr) (h : Heap) : outcome Heap :=
             match cs with
             | [] => Ret h
             | child :: cs' =>
                 h ← sortChildren fuel' by_ (Some child) h; each cs' h
             end) (Children (deref h d)) h
      end
  end.

(** ** Update *)

(** What [Update] reads and writes besides the model it is called on. *)
Record World : Type := mkWorld {
  w_heap : Heap;
  w_chan : list scanProgressMsg
}.

Definition key_in (key : string) (keys : list string) : bool :=
  existsb (String.eqb key) keys.

(** The [deleteCompleteMsg] case once [msg.err == nil]: the loop that takes
    the target out of the children of the current directory and moves the
    cursor, then the recalculation of the sizes. *)
Definition detach (target : ptr) (h : Heap) (m : model) : outcome (Heap * model) :=
  match currentDir m with
  | Some cd =>
      if 0 <? len (Children (deref h cd)) then
        let '(h, m) :=
          match index_of target (Children (deref h cd)) 0 with
          | Some i =>
              let h := alter (fun n => set_Children (delete i (Children n)) n) cd h in
              let m :=
                if (len (Children (deref h cd)) <=? cursor m) && (0 <? cursor m)
                then set_cursor (cursor m - 1) m else m in
              (h, m)
          | None => (h, m)
          end in
        h ← recalculateSizes (length h) (Some cd) h;
        Ret (h, m)
      else Ret (h, m)
  | None => Ret (h, m)
  end.

(** The key cases outside of a scan and of a deletion. *)
Definition move_up (m : model) : model :=
  if 0 <? cursor m then set_cursor (cursor m - 1) m else m.

Definition move_down (h : Heap) (m : model) : model :=
  match currentDir m with
  | Some cd =>
      if cursor m <? len (Children (deref h cd)) - 1
      then set_cursor (cursor m + 1) m else m
  | None => m
  end.

Definition enter (h : Heap) (m : model) : outcome model :=
  match currentDir m with
  | Some cd =>
      if 0 <? len (Children (deref h cd)) then
        selected ← index_slice (Children (deref h cd)) (cursor m);
        if IsDir (deref h selected) && (0 <? len (Children (deref h selected)))
        then Ret (set_cursor 0 (set_currentDir (Some selected) m))
        else Ret m
      else Ret m
  | None => Ret m
  end.

Definition exit (h : Heap) (m : model) : model :=
  match currentDir m with
  | Some cd =>
      match Parent (deref h cd) with
      | Some parent =>
          let m :=
            match index_of cd (Children (deref h parent)) 0 with
            | Some i => set_cursor (Z.of_nat i) m
            | None => m
            end in
          set_currentDir (Some parent) m
      | None => m
      end
  | None => m
  end.

Definition toggleSort (h : Heap) (m : model) : outcome (Heap * model) :=
  let m :=
    if String.eqb (sortBy m) "size" then set_sortBy "name" m
    else set_sortBy "size" m in
  h ← sortChildren (length h) (sortBy m) (rootDir m) h;
  Ret (h, set_cursor 0 m).

Definition goToRoot (m : model) : model :=
  set_cursor 0 (set_currentDir (rootDir m) m).

Definition startDelete (h : Heap) (m : model) : outcome (model * Cmd) :=
  match currentDir m with
  | Some cd =>
      if 0 <? len (Children (deref h cd)) then
        target ← index_slice (Children (deref h cd)) (cursor m);
        Ret (set_deleteStart target (filepath_Base (Path (deref h target))) m,
             CmdDelete target)
      else Ret (m, CmdNil)
  | None => Ret (m, CmdNil)
  end.

Definition Update (w : World) (m : model) (msg : Msg)
    : outcome (World * model * Cmd) :=
  match msg with
  | WindowSizeMsg wd ht => Ret (w, set_window wd ht m, CmdNil)
  | ScanCompleteMsg msg => Ret (w, set_scanComplete msg m, CmdNil)
  | ScanTickMsg =>
      if scanning m then
        match w_chan w with
        | progress :: rest =>
            Ret (mkWorld (w_heap w) rest, set_progress progress m, CmdScanTick)
        | [] => Ret (w, m, CmdScanTick)
        end
      else Ret (w, m, CmdNil)
  | DeleteProgressMsg =>
      if deleting m then
        Ret (w, set_deleteSpinner (Z.rem (deleteSpinner m + 1) 10) m,
             CmdDeleteProgress)
      else Ret (w, m, CmdNil)
  | DeleteCompleteMsg target err filename =>
      match err with
      | Some e =>
          Ret (w, set_deleteDone ("Error deleting: " ++ e)%string m, CmdNil)
      | None =>
          let m := set_deleteDone ("Deleted: " ++ filename)%string m in
          '(h, m) ← detach target (w_heap w) m;
          Ret (mkWorld h (w_chan w), m, CmdNil)
      end
  | KeyMsg key =>
      if scanning m || deleting m then
        if key_in key ["ctrl+c"; "q"]%string then Ret (w, m, CmdQuit)
        else Ret (w, m, CmdNil)
      else if key_in key ["ctrl+c"; "q"]%string then Ret (w, m, CmdQuit)
      else if key_in key ["up"; "k"]%string then Ret (w, move_up m, CmdNil)
      else if key_in key ["down"; "j"]%string then
        Ret (w, move_down (w_heap w) m, CmdNil)
      else if key_in key ["enter"; "right"; "l"]%string then
        m ← enter (w_heap w) m; Ret (w, m, CmdNil)
      else if key_in key ["left"; "h"; "backspace"]%string then
        Ret (w, exit (w_heap w) m, CmdNil)
      else if String.eqb key "s" then
        '(h, m) ← toggleSort (w_heap w) m;
        Ret (mkWorld h (w_chan w), m, CmdNil)
      else if String.eqb key "home" then Ret (w, goToRoot m, CmdNil)
      else if String.eqb key "d" then
        '(m, c) ← startDelete (w_heap w) m; Ret (w, m, c)
      else Ret (w, m, CmdNil)
  end.

(** The preview that [View] draws while scanning: the first five children
    of the root of the last progress message, with their sizes. *)
Definition progress_preview (h : Heap) (m : model) : list (string * string) :=
  match scanProgress m with
  | Some r =>
      let children := Children (deref h r) in
      let limit := if len children <? 5 then len children else 5 in
      map (fun c =>
             (formatSize (Size (deref h c)),
              if IsDir (deref h c)
              then (filepath_Base (Path (deref h c)) ++ "/")%string
              else filepath_Base (Path (deref h c))))
          (take (Z.to_nat limit) children)
  | None => []
  end.

(** ** Sessions *)

(** The messages the runtime can deliver in a state: the completion of the
    scan arrives while the scan is still marked as running and carries the
    result of [scanDirectory]; the completion of a deletion arrives while a
    deletion is marked as running and carries the target that the [d] key
    handed to [deleteFile].  Keys, ticks and window sizes arrive at any time. *)
Definition deliverable (path : string) (fs : FsNode) (m : model) (msg : Msg) : Prop :=
  match msg with
  | ScanCompleteMsg sc => scanning m = true /\ sc = fst (scanDirectory path fs)
  | DeleteCompleteMsg target _ _ => deleting m = true /\ deleteTarget m = Some target
  | _ => True
  end.

(** The states of a session on the file system view [fs].  The scan runs
    beside the message loop and touches nothing that [Update] reads before
    its completion message, except the channel; here it has run to its end
    when the first message is handled. *)
Inductive reach (path : string) (fs : FsNode) : World -> model -> Prop :=
| reach_start :
    reach path fs
      (mkWorld (heap (snd (scanDirectory path fs)))
               (progressChan (snd (scanDirectory path fs))))
      initialModel
| reach_step w m msg w' m' c :
    reach path fs w m ->
    deliverable path fs m msg ->
    Update w m msg = Ret (w', m', c) ->
    reach path fs w' m'.

(** ** Shape of the store *)

(** The sum of the sizes of a list of nodes, as an [int64]. *)
Definition total_size (h : Heap) (cs : list ptr) : Z :=
  wrap64 (fold_right Z.add 0 (map (fun c => Size (deref h c)) cs)).

(** Node [p] is well formed: its children are distinct nodes of the store
    that were allocated after it and point back to it; a directory weighs
    what its children weigh and a file has no children; the parent, if any,
    is an older node and a directory. *)
Record node_ok (h : Heap) (p : ptr) : Prop := mk_node_ok {
  ok_nodup : NoDup (Children (deref h p));
  ok_child : forall c, c ∈ Children (deref h p) ->
               (p < c < length h)%nat /\ Parent (deref h c) = Some p;
  ok_size : IsDir (deref h p) = true ->
              Size (deref h p) = total_size h (Children (deref h p));
  ok_file : IsDir (deref h p) = false -> Children (deref h p) = [];
  ok_parent : forall q, Parent (deref h p) = Some q ->
                (q < p)%nat /\ IsDir (deref h q) = true
}.

Definition heap_ok (h : Heap) : Prop :=
  forall p, (p < length h)%nat -> node_ok h p.

(** [x] is [d] or lies below [d]. *)
Inductive in_tree (h : Heap) (d : ptr) : ptr -> Prop :=
| in_tree_here : in_tree h d d
| in_tree_child c x :
    c ∈ Children (deref h d) -> in_tree h c x -> in_tree h d x.

(** [a] is [p] or one of the nodes on the [Parent] chain of [p]. *)
Inductive ancestor_or_self (h : Heap) (a : ptr) : ptr -> Prop :=
| anc_self : ancestor_or_self h a a
| anc_up p q :
    Parent (deref h p) = Some q -> ancestor_or_self h a q ->
    ancestor_or_self h a p.

(** The children of the current directory ([nil] has none). *)
Definition current_children (h : Heap) (m : model) : list ptr :=
  match currentDir m with
  | Some cd => Children (deref h cd)
  | None => []
  end.

(** The file system below [fs], scanned at [path], holds [sub] at [subpath]. *)
Inductive fs_at : FsNode -> string -> FsNode -> string -> Prop :=
| fs_at_here fs path : fs_at fs path fs path
| fs_at_entry entries path name child sub subpath :
    (name, child) ∈ entries ->
    fs_at child (filepath_Join path name) sub subpath ->
    fs_at (Directory entries) path sub subpath.

Definition stat_ok (fs : FsNode) : bool :=
  match fs with
  | StatFails _ => false
  | _ => true
  end.

(** The paths of the entries of a directory whose stat succeeds. *)
Definition scanned_paths (path : string) (entries : list (string * FsNode))
    : list string :=
  map (fun e => filepath_Join path (fst e)) (filter (fun e => stat_ok (snd e) = true) entries).

(** ** Auxiliary notions for the proofs *)

Definition sizes (h : Heap) (cs : list ptr) : list Z :=
  map (fun c => Size (deref h c)) cs.

Definition zsum (l : list Z) : Z := fold_right Z.add 0 l.

(** [ordered less a b]: [b] may stand after [a] in a slice sorted by [less]. *)
Definition ordered {A} (less : A -> A -> bool) (a b : A) : Prop :=
  less b a = false.

(** The loop of [calculateDirSizeWithProgress] over the entries of a
    directory, as a function of its own. *)
Definition scan_entries (path : string) (dirInfo : ptr)
    : list (string * FsNode) -> Z -> ScanState -> Z * ScanState :=
  fix loop (entries : list (string * FsNode)) (totalSize : Z)
      (s : ScanState) : Z * ScanState :=
    match entries with
    | [] => (totalSize, s)
    | (name, sub) :: rest =>
        match calculateDirSizeWithProgress sub (filepath_Join path name)
                (Some dirInfo) s with
        | (inr _, s) => loop rest totalSize s
        | (inl child, s) =>
            let '(totalSize, s) := attach_child dirInfo child totalSize s in
            loop rest totalSize s
        end
    end.

(** What a call of the scan may assume about the parent it is given. *)
Definition parent_ok (h : Heap) (parent : option ptr) : Prop :=
  forall q, parent = Some q -> (q < length h)%nat /\ IsDir (deref h q) = true.

(** Node [x] of the store is the node that the scan builds for [fs] at
    [path]. *)
Definition node_for (h : Heap) (fs : FsNode) (path : string) (x : ptr) : Prop :=
  Path (deref h x) = path /\
  match fs with
  | StatFails _ => False
  | RegularFile size =>
      IsDir (deref h x) = false /\ Error (deref h x) = None /\
      Size (deref h x) = wrap64 size
  | UnlistableDir err =>
      IsDir (deref h x) = true /\ Error (deref h x) = Some err /\
      Children (deref h x) = [] /\ Size (deref h x) = 0
  | Directory entries =>
      IsDir (deref h x) = true /\ Error (deref h x) = None /\
      map (fun c => Path (deref h c)) (Children (deref h x))
        ≡ₚ scanned_paths path entries
  end.

(** Every part of [fs] whose stat succeeds has its node below [p]. *)
Definition covers (h : Heap) (fs : FsNode) (path : string) (p : ptr) : Prop :=
  forall sub subpath,
    fs_at fs path sub subpath -> stat_ok sub = true ->
    exists x, in_tree h p x /\ node_for h sub subpath x.

(** [h'] is [h] after more of the scan of the directory at [a]: nodes
    allocated after [a] are as they were, and no node changed its kind. *)
Definition extends_above (a : ptr) (h h' : Heap) : Prop :=
  (length h <= length h')%nat /\
  (forall x, (a < x < length h)%nat -> deref h' x = deref h x) /\
  (forall x, (x < length h)%nat -> IsDir (deref h' x) = IsDir (deref h x)).

Record calc_post (fs : FsNode) (path : string) (parent : option ptr)
    (s : ScanState) (p : ptr) (s' : ScanState) : Prop := mk_calc_post {
  cp_ptr : p = length (heap s);
  cp_len : (length (heap s) < length (heap s'))%nat;
  cp_frame : forall x, (x < length (heap s))%nat -> heap s' !! x = heap s !! x;
  cp_ok : forall x, (length (heap s) <= x < length (heap s'))%nat ->
            node_ok (heap s') x;
  cp_parent : Parent (deref (heap s') p) = parent;
  cp_node : node_for (heap s') fs path p;
  cp_covers : covers (heap s') fs path p
}.

Definition calc_ok (fs : FsNode) : Prop :=
  forall path parent s,
    parent_ok (heap s) parent ->
    match calculateDirSizeWithProgress fs path parent s with
    | (inr err, s') => fs = StatFails err /\ s' = s
    | (inl p, s') => stat_ok fs = true /\ calc_post fs path parent s p s'
    end.

(** The state of the loop over the entries of the directory at [a] once
    the entries [done] are behind it. *)
Record loop_inv (path : string) (parent : option ptr) (a : ptr)
    (done : list (string * FsNode)) (total : Z) (s : ScanState) : Prop :=
  mk_loop_inv {
  li_valid : (a < length (heap s))%nat;
  li_path : Path (deref (heap s) a) = path;
  li_parent : Parent (deref (heap s) a) = parent;
  li_isdir : IsDir (deref (heap s) a) = true;
  li_error : Error (deref (heap s) a) = None;
  li_paths : map (fun c => Path (deref (heap s) c)) (Children (deref (heap s) a))
             = scanned_paths path done;
  li_nodup : NoDup (Children (deref (heap s) a));
  li_child : forall c, c ∈ Children (deref (heap s) a) ->
               (a < c < length (heap s))%nat /\
               Parent (deref (heap s) c) = Some a;
  li_total : total = total_size (heap s) (Children (deref (heap s) a));
  li_ok : forall x, (a < x < length (heap s))%nat -> node_ok (heap s) x;
  li_covers : forall name sub,
      (name, sub) ∈ done -> stat_ok sub = true ->
      exists c, c ∈ Children (deref (heap s) a) /\
                covers (heap s) sub (filepath_Join path name) c
}.

(** [h'] has the nodes of [h] with the same path, parent, kind and error. *)
Definition same_kind (h h' : Heap) : Prop :=
  length h' = length h /\
  forall x, Parent (deref h' x) = Parent (deref h x) /\
            IsDir (deref h' x) = IsDir (deref h x) /\
            Path (deref h' x) = Path (deref h x) /\
            Error (deref h' x) = Error (deref h x).

(** The order that [sortChildren] sorts by. *)
Definition sort_less (by_ : string) (h : Heap) : ptr -> ptr -> bool :=
  if String.eqb by_ "name" then name_less h else size_less h.

Definition sorted_at (by_ : string) (h : Heap) (x : ptr) : Prop :=
  Sorted (ordered (sort_less by_ h)) (Children (deref h x)).

(** [h'] is [h] up to the order of the children of each node. *)
Definition perm_equiv (h h' : Heap) : Prop :=
  same_kind h h' /\
  forall x, Size (deref h' x) = Size (deref h x) /\
            Children (deref h' x) ≡ₚ Children (deref h x).

(** [h'] is [h] after some nodes had their children sorted. *)
Definition sort_post (by_ : string) (h h' : Heap) : Prop :=
  perm_equiv h h' /\
  forall x, Children (deref h' x) = Children (deref h x) \/ sorted_at by_ h' x.

(** The loop of [sortChildren] over the children, as a function of its own. *)
Definition sort_each (rec : ptr -> Heap -> outcome Heap)
    : list ptr -> Heap -> outcome Heap :=
  fix each (cs : list ptr) (h : Heap) : outcome Heap :=
    match cs with
    | [] => Ret h
    | child :: cs' => h ← rec child h; each cs' h
    end.

(** ** The invariant of a session *)

(** What holds of the store and of the fields of the model that the tree
    operations read, in every state of a session on [fs]. *)
Record inv_on (path : string) (fs : FsNode) (h : Heap)
    (root cur : option ptr) (cursor_ : Z) (deleting_ : bool)
    (target : option ptr) (scanning_ : bool) : Prop := mk_inv_on {
  inv_heap : heap_ok h;
  inv_scanroot : forall r, sc_root (fst (scanDirectory path fs)) = Some r ->
                   (r < length h)%nat /\ Parent (deref h r) = None;
  inv_root : forall r, root = Some r ->
               (r < length h)%nat /\ Parent (deref h r) = None;
  inv_cur : forall cd, cur = Some cd ->
              exists r, root = Some r /\ in_tree h r cd;
  inv_cursor : 0 <= cursor_ <=
                 Z.max 0 (len (match cur with
                               | Some cd => Children (deref h cd)
                               | None => []
                               end) - 1);
  inv_deleting : deleting_ = true ->
                   exists cd t, cur = Some cd /\ target = Some t /\
                     Children (deref h cd) !! Z.to_nat cursor_ = Some t;
  inv_scanning : scanning_ = true ->
                   root = None /\ cur = None /\ deleting_ = false
}.

Definition Inv (path : string) (fs : FsNode) (w : World) (m : model) : Prop :=
  inv_on path fs (w_heap w) (rootDir m) (currentDir m) (cursor m)
    (deleting m) (deleteTarget m) (scanning m).

(** The children [cs] stand by descending size. *)
Definition desc_by_size (h : Heap) (cs : list ptr) : Prop :=
  forall i j ci cj, (i < j)%nat -> cs !! i = Some ci -> cs !! j = Some cj ->
                    Size (deref h cj) <= Size (deref h ci).

(** ** Sessions that run *)

(** What happens around the program: the terminal, the clock, the end of the
    scan and the end of a deletion with its result.  The runtime turns an
    event into the message that it delivers, if the state allows it. *)
Inductive event : Type :=
| EvWindow (w h : Z)
| EvScanComplete
| EvTick
| EvDeleteProgress
| EvDeleteComplete (err : option error)
| EvKey (key : string).

Definition msg_of_event (path : string) (fs : FsNode) (m : model) (ev : event)
    : option Msg :=
  match ev with
  | EvWindow w h => Some (WindowSizeMsg w h)
  | EvScanComplete =>
      if scanning m then Some (ScanCompleteMsg (fst (scanDirectory path fs)))
      else None
  | EvTick => Some ScanTickMsg
  | EvDeleteProgress => Some DeleteProgressMsg
  | EvDeleteComplete err =>
      if deleting m then
        match deleteTarget m with
        | Some t => Some (DeleteCompleteMsg t err (deleteFilename m))
        | None => None
        end
      else None
  | EvKey key => Some (KeyMsg key)
  end.

Fixpoint run_events (path : string) (fs : FsNode) (evs : list event)
    (w : World) (m : model) : option (World * model) :=
  match evs with
  | [] => Some (w, m)
  | ev :: rest =>
      match msg_of_event path fs m ev with
      | Some msg =>
          match Update w m msg with
          | Ret (w', m', _) => run_events path fs rest w' m'
          | _ => None
          end
      | None => None
      end
  end.

Definition session (path : string) (fs : FsNode) (evs : list event)
    : option (World * model) :=
  run_events path fs evs
    (mkWorld (heap (snd (scanDirectory path fs)))
             (progressChan (snd (scanDirectory path fs))))
    initialModel.

(** ** Examples *)

(** The scenario of the specification: a file of 500 bytes beside a
    directory that holds a file of 1500 bytes. *)
Definition example_fs : FsNode :=
  Directory [("a.txt", RegularFile 500);
             ("sub", Directory [("b.txt", RegularFile 1500)])]%string.

(** The same with a file that cannot be stat'd and a directory that cannot
    be listed. *)
Definition partial_fs : FsNode :=
  Directory [("a.txt", RegularFile 500);
             ("gone", StatFails "no such file");
             ("locked", UnlistableDir "permission denied");
             ("sub", Directory [("b.txt", RegularFile 1500)])]%string.

(** ** What a scan should find *)

(** The files, the directories and the bytes of the part of a file system
    view that a scan can reach: an entry whose stat fails counts for
    nothing, a directory that cannot be listed counts as a directory. *)
Fixpoint fs_files (fs : FsNode) : Z :=
  match fs with
  | StatFails _ => 0
  | RegularFile _ => 1
  | UnlistableDir _ => 0
  | Directory entries =>
      fold_right Z.add 0 (map (fun e => fs_files (snd e)) entries)
  end.

Fixpoint fs_dirs (fs : FsNode) : Z :=
  match fs with
  | StatFails _ => 0
  | RegularFile _ => 0
  | UnlistableDir _ => 1
  | Directory entries =>
      1 + fold_right Z.add 0 (map (fun e => fs_dirs (snd e)) entries)
  end.

Fixpoint fs_bytes (fs : FsNode) : Z :=
  match fs with
  | StatFails _ => 0
  | RegularFile size => wrap64 size
  | UnlistableDir _ => 0
  | Directory entries =>
      fold_right Z.add 0 (map (fun e => fs_bytes (snd e)) entries)
  end.

(** The sum of [f] over the entries of a directory. *)
Definition sum_over (f : FsNode -> Z) (entries : list (string * FsNode)) : Z :=
  fold_right Z.add 0 (map (fun e => f (snd e)) entries).

(** What a call of the scan that returns node [p] leaves behind: the
    counters and the store grew by what the view holds, the node weighs the
    bytes of the view, the children of every new node stand by descending
    size, and every new node lies below [p]. *)
Record tally_post (fs : FsNode) (s : ScanState) (p : ptr) (s' : ScanState)
    : Prop := mk_tally_post {
  tp_files : filesScanned s' = filesScanned s + fs_files fs;
  tp_dirs : dirsScanned s' = dirsScanned s + fs_dirs fs;
  tp_len : Z.of_nat (length (heap s'))
           = Z.of_nat (length (heap s)) + fs_files fs + fs_dirs fs;
  tp_size : Size (deref (heap s') p) = wrap64 (fs_bytes fs);
  tp_sorted : forall x, (length (heap s) <= x < length (heap s'))%nat ->
                desc_by_size (heap s') (Children (deref (heap s') x));
  tp_tree : forall x, (length (heap s) <= x < length (heap s'))%nat ->
              in_tree (heap s') p x
}.

Definition tally_ok (fs : FsNode) : Prop :=
  forall path parent s,
    parent_ok (heap s) parent ->
    match calculateDirSizeWithProgress fs path parent s with
    | (inr _, _) => True
    | (inl p, s') => tally_post fs s p s'
    end.

(** The same for the loop over the entries of the directory at [a], which
    started in state [s0], once the entries [done] are behind it. *)
Record tally_inv (a : ptr) (s0 : ScanState) (done : list (string * FsNode))
    (total : Z) (s : ScanState) : Prop := mk_tally_inv {
  tl_files : filesScanned s = filesScanned s0 + sum_over fs_files done;
  tl_dirs : dirsScanned s = dirsScanned s0 + sum_over fs_dirs done;
  tl_len : Z.of_nat (length (heap s))
           = Z.of_nat (length (heap s0))
             + sum_over fs_files done + sum_over fs_dirs done;
  tl_total : total = wrap64 (sum_over fs_bytes done);
  tl_sorted : forall x, (a < x < length (heap s))%nat ->
                desc_by_size (heap s) (Children (deref (heap s) x));
  tl_tree : forall x, (a < x < length (heap s))%nat ->
              exists c, c ∈ Children (deref (heap s) a) /\ in_tree (heap s) c x
}.

(** The counters of the messages in [l] never go down. *)
Definition counters_grow (l : list scanProgressMsg) : Prop :=
  forall i j p q, (i <= j)%nat -> l !! i = Some p -> l !! j = Some q ->
    pm_filesScanned p <= pm_filesScanned q /\
    pm_dirsScanned p <= pm_dirsScanned q.

(** The messages [l] name the root [a] and carry counters between the
    ones of the states [s] and [s']. *)
Definition reports_between (a : ptr) (s s' : ScanState)
    (l : list scanProgressMsg) : Prop :=
  forall p, p ∈ l ->
    pm_root p = Some a /\
    (filesScanned s <= pm_filesScanned p /\
     pm_filesScanned p <= filesScanned s') /\
    (dirsScanned s <= pm_dirsScanned p /\
     pm_dirsScanned p <= dirsScanned s').

(** The channel in state [s] of a scan that started in [s0] with root
    [a]: within its capacity, with messages that name the root and carry
    counters the scan had, in the order in which it had them. *)
Definition chan_ok (a : ptr) (s0 s : ScanState) : Prop :=
  (length (progressChan s) <= chan_capacity)%nat /\
  reports_between a s0 s (progressChan s) /\
  counters_grow (progressChan s) /\
  filesScanned s0 <= filesScanned s /\ dirsScanned s0 <= dirsScanned s.

(** ** The scan without progress reports *)

(** [calculateDirSize]: the walk of [calculateDirSizeWithProgress] without
    the counters, the root reference and the channel. *)
Fixpoint calculateDirSize (fs : FsNode) (path : string) (parent : option ptr)
    (h : Heap) : (ptr + error) * Heap :=
  match fs with
  | StatFails err => (inr err, h)
  | RegularFile size =>
      let dirInfo := length h in
      let h := h ++ [mkDirInfo path 0 [] parent false None] in
      (inl dirInfo, alter (set_Size (wrap64 size)) dirInfo h)
  | UnlistableDir err =>
      let dirInfo := length h in
      let h := h ++ [mkDirInfo path 0 [] parent true None] in
      (inl dirInfo, alter (set_Error (Some err)) dirInfo h)
  | Directory entries =>
      let dirInfo := length h in
      let h := h ++ [mkDirInfo path 0 [] parent true None] in
      let fix loop (entries : list (string * FsNode)) (totalSize : Z)
          (h : Heap) : Z * Heap :=
        match entries with
        | [] => (totalSize, h)
        | (name, sub) :: rest =>
            match calculateDirSize sub (filepath_Join path name)
                    (Some dirInfo) h with
            | (inr _, h) => loop rest totalSize h
            | (inl child, h) =>
                let h := alter (fun d => set_Children (Children d ++ [child]) d)
                               dirInfo h in
                loop rest (add64 totalSize (Size (deref h child))) h
            end
        end in
      let '(totalSize, h) := loop entries 0 h in
      let h := alter (set_Size totalSize) dirInfo h in
      let h := alter (fun d => set_Children
                 (sort_Slice (size_less h) (Children d)) d) dirInfo h in
      (inl dirInfo, h)
  end.

(** The loop of [calculateDirSize], as a function of its own. *)
Definition plain_entries (path : string) (dirInfo : ptr)
    : list (string * FsNode) -> Z -> Heap -> Z * Heap :=
  fix loop (entries : list (string * FsNode)) (totalSize : Z) (h : Heap)
      : Z * Heap :=
    match entries with
    | [] => (totalSize, h)
    | (name, sub) :: rest =>
        match calculateDirSize sub (filepath_Join path name) (Some dirInfo) h with
        | (inr _, h) => loop rest totalSize h
        | (inl child, h) =>
            let h := alter (fun d => set_Children (Children d ++ [child]) d)
                           dirInfo h in
            loop rest (add64 totalSize (Size (deref h child))) h
        end
    end.

(** The two scans agree on a node below the root [r] of the scan with
    progress reports.  While the loop of the root runs, that scan keeps the
    size of the root up to date and the plain one leaves it at 0: the stores
    are compared with the size of the root put to 0. *)
Definition plain_ok (fs : FsNode) : Prop :=
  forall path parent s r,
    parent_ok (heap s) parent ->
    currentRoot s = Some r -> (r < length (heap s))%nat ->
    calculateDirSize fs path parent (alter (set_Size 0) r (heap s))
    = (fst (calculateDirSizeWithProgress fs path parent s),
       alter (set_Size 0) r
         (heap (snd (calculateDirSizeWithProgress fs path parent s)))).

(** ** float64 *)

(** The numbers that [View] computes in floating point, as the rationals
    that they are.  [float64_round q] is the [float64] nearest to [q], ties
    to even: with [e] the exponent of [q] ([2^e <= |q| < 2^(e+1)]), [q] is
    counted in units of [2^(e-52)], which puts it between [2^52] and
    [2^53], and rounded to a whole number of them.  The exponents of the
    values of [View], quotients and small multiples of [int64] counts, are
    far from the ends of the range of a [float64], where this would not be
    the whole story. *)
Definition round_to_int (q : Q) : Z :=
  round_half_even (Qnum q) (Zpos (Qden q)).

Definition float64_exponent (q : Q) : Z :=
  let e := Z.log2 (Z.abs (Qnum q)) - Z.log2 (Zpos (Qden q)) in
  if Qle_bool (2 ^ e) (Qabs q) then e else e - 1.

Definition float64_round (q : Q) : Q :=
  if Qeq_bool q 0 then 0%Q
  else
    let u := (2 ^ (float64_exponent q - 52))%Q in
    Qred (inject_Z (round_to_int (q / u)) * u).

(** [x / y] and [x * y] on [float64] values, [y] not 0 in the quotient. *)
Definition float64_div (x y : Q) : Q := float64_round (x / y).
Definition float64_mul (x y : Q) : Q := float64_round (x * y).

(** [int(x)]: the fraction is cut off.  For a value outside of [int] Go
    leaves the result to the implementation; this is the value that the
    conversion instruction of amd64 gives. *)
Definition int_of_float64 (x : Q) : Z :=
  let t := Z.quot (Qnum x) (Zpos (Qden x)) in
  if (min_int64 <=? t) && (t <=? max_int64) then t else min_int64.

(** ** View *)

Definition spinnerFrames : list string :=
  ["⠋"; "⠙"; "⠹"; "⠸"; "⠼"; "⠴"; "⠦"; "⠧"; "⠇"; "⠏"]%string.

(** A line of the listing: the formatted size, the number of filled cells
    of the bar, the base name, the kind and whether the cursor is on it.
    The text of the percentage and the styles are left out. *)
Record row : Type := mkRow {
  row_size : string;
  row_filled : Z;
  row_name : string;
  row_isDir : bool;
  row_selected : bool
}.

(** The last line: the spinner of a deletion with the name of its target,
    or the status message or help text, between which the clock decides. *)
Inductive footer : Type :=
| FooterDeleting (frame filename : string)
| FooterStatusOrHelp.

Inductive screen : Type :=
| ScanningScreen (counters : option (Z * Z * string))
                 (preview : list (string * string))
| ErrorScreen (err : error)
| NoDataScreen
| BrowserScreen (title total sort : string) (rows : list row) (ft : footer).

(** [maxItems] and [startIdx] of the listing. *)
Definition maxItems (m : model) : Z :=
  if height m - 8 <? 5 then 5 else height m - 8.

Definition startIdx (m : model) : Z :=
  if maxItems m <=? cursor m then cursor m - maxItems m + 1 else 0.

(** [percentage] of a child of the directory [dir]. *)
Definition percentage (h : Heap) (dir child : ptr) : Q :=
  if 0 <? Size (deref h dir) then
    float64_mul
      (float64_div (inject_Z (float64_of_int (Size (deref h child))))
                   (inject_Z (float64_of_int (Size (deref h dir)))))
      100
  else 0%Q.

(** [int(percentage / 100.0 * float64(barWidth))], before it is capped,
    first as the [float64] that is converted. *)
Definition barWidth : Z := 20.

Definition fill_value (percentage : Q) : Q :=
  float64_mul (float64_div percentage 100) (inject_Z barWidth).

Definition filledWidth (percentage : Q) : Z :=
  let w := int_of_float64 (fill_value percentage) in
  if barWidth <? w then barWidth else w.

(** [strings.Repeat(s, count)] panics on a negative count; of the string
    that it returns otherwise only the length matters here. *)
Definition strings_Repeat (count : Z) : outcome Z :=
  if count <? 0 then Panic else Ret count.

(** [for i := startIdx; i < len(children) && i < startIdx+maxItems; i++];
    every turn moves [i] towards the number of children, which is fuel
    enough. *)
Fixpoint view_rows (fuel : nat) (h : Heap) (m : model) (dir : ptr)
    (children : list ptr) (i : Z) : outcome (list row) :=
  match fuel with
  | O => if (i <? len children) && (i <? startIdx m + maxItems m)
         then OutOfFuel else Ret []
  | S fuel' =>
      if (i <? len children) && (i <? startIdx m + maxItems m) then
        child ← index_slice children i;
        let filled := filledWidth (percentage h dir child) in
        full ← strings_Repeat filled;
        _ ← strings_Repeat (barWidth - filled);
        rest ← view_rows fuel' h m dir children (i + 1);
        Ret (mkRow (formatSize (Size (deref h child))) full
                   (filepath_Base (Path (deref h child)))
                   (IsDir (deref h child))
                   (i =? cursor m) :: rest)
      else Ret []
  end.

(** [View], as the screen it draws.  The elapsed time and its spinner on
    the scanning screen are left out. *)
Definition View (h : Heap) (m : model) : outcome screen :=
  if scanning m then
    match scanProgress m with
    | Some _ =>
        Ret (ScanningScreen
               (Some (m_filesScanned m, m_dirsScanned m, formatSize (totalSize m)))
               (progress_preview h m))
    | None => Ret (ScanningScreen None [])
    end
  else
    match scanError m with
    | Some err => Ret (ErrorScreen err)
    | None =>
        match rootDir m with
        | None => Ret NoDataScreen
        | Some _ =>
            match currentDir m with
            | None => Panic
            | Some cd =>
                let children := Children (deref h cd) in
                rows ← view_rows (length children) h m cd children (startIdx m);
                ft ← (if deleting m then
                        frame ← index_slice spinnerFrames (deleteSpinner m);
                        Ret (FooterDeleting frame (deleteFilename m))
                      else Ret FooterStatusOrHelp);
                Ret (BrowserScreen (Path (deref h cd))
                       (formatSize (Size (deref h cd))) (sortBy m) rows ft)
            end
        end
    end.

(** The sizes of the nodes [cs] are not negative and their sum is an
    [int64]: no addition of the scan wrapped around in their parent. *)
Definition sizes_fit (h : Heap) (cs : list ptr) : bool :=
  forallb (fun c => 0 <=? Size (deref h c)) cs
  && (zsum (sizes h cs) <=? max_int64).

(** A view on which sums of sizes wrap around: the directory [d] holds
    2^63 bytes, which an [int64] shows as -2^63, beside three files of 2^62
    bytes. *)
Definition wrapped_fs : FsNode :=
  Directory [("d", Directory [("p", RegularFile (2 ^ 62));
                              ("q", RegularFile (2 ^ 62))]);
             ("r", RegularFile (2 ^ 62));
             ("s", RegularFile (2 ^ 62));
             ("t", RegularFile (2 ^ 62))]%string.

(** What holds of the fields of the model that [View] reads, in every state
    of a session on [fs]. *)
Record ui_ok (path : string) (fs : FsNode) (m : model) : Prop := mk_ui_ok {
  ui_spinner : 0 <= deleteSpinner m < 10;
  ui_sortBy : sortBy m = "size"%string \/ sortBy m = "name"%string;
  ui_result : scanning m = false ->
                rootDir m = sc_root (fst (scanDirectory path fs)) /\
                scanError m = sc_err (fst (scanDirectory path fs));
  ui_cur : scanning m = false -> rootDir m <> None -> currentDir m <> None
}.

(** The events that neither end the scan nor end a deletion. *)
Definition passing_event (ev : event) : bool :=
  match ev with
  | EvScanComplete | EvDeleteComplete _ => false
  | _ => true
  end.

(** * Properties *)

(** ** Machine arithmetic *)

Lemma wrap64_range (z : Z) : in_int64 (wrap64 z).
Proof.
  unfold in_int64, wrap64, min_int64, max_int64.
  pose proof (Z.mod_pos_bound (z + 2 ^ 63) (2 ^ 64) ltac:(lia)). lia.
Qed.

Lemma wrap64_small (z : Z) : in_int64 z -> wrap64 z = z.
Proof.
  unfold in_int64, wrap64, min_int64, max_int64. intros Hz.
  rewrite Z.mod_small; lia.
Qed.

Lemma wrap64_add_l (a b : Z) : wrap64 (wrap64 a + b) = wrap64 (a + b).
Proof.
  unfold wrap64. f_equal.
  replace ((a + 2 ^ 63) mod 2 ^ 64 - 2 ^ 63 + b + 2 ^ 63)
    with ((a + 2 ^ 63) mod 2 ^ 64 + b) by lia.
  rewrite Zplus_mod_idemp_l. f_equal. lia.
Qed.

Lemma wrap64_add_r (a b : Z) : wrap64 (a + wrap64 b) = wrap64 (a + b).
Proof. rewrite (Z.add_comm a), wrap64_add_l. f_equal. lia. Qed.

Lemma wrap64_sub_l (a b : Z) : wrap64 (wrap64 a - b) = wrap64 (a - b).
Proof. unfold Z.sub. apply wrap64_add_l. Qed.

(** ** Sums of sizes *)

Lemma total_size_eq (h : Heap) (cs : list ptr) :
  total_size h cs = wrap64 (zsum (sizes h cs)).
Proof. reflexivity. Qed.

Lemma zsum_app (l1 l2 : list Z) : zsum (l1 ++ l2) = zsum l1 + zsum l2.
Proof.
  unfold zsum. induction l1 as [|x l1 IH]; cbn; [reflexivity | rewrite IH; lia].
Qed.

Lemma zsum_perm (l1 l2 : list Z) : l1 ≡ₚ l2 -> zsum l1 = zsum l2.
Proof. unfold zsum. induction 1; cbn in *; lia. Qed.

Lemma total_size_perm (h : Heap) (l1 l2 : list ptr) :
  l1 ≡ₚ l2 -> total_size h l1 = total_size h l2.
Proof.
  intros Hp. rewrite !total_size_eq. f_equal. apply zsum_perm.
  unfold sizes. now apply Permutation_map.
Qed.

Lemma sum_sizes_from (h : Heap) (cs : list ptr) (a : Z) :
  fold_left (fun total c => add64 total (Size (deref h c))) cs (wrap64 a)
  = wrap64 (a + zsum (sizes h cs)).
Proof.
  revert a. unfold sizes, zsum.
  induction cs as [|c cs IH]; intros a; cbn [fold_left map fold_right].
  - now rewrite Z.add_0_r.
  - unfold add64 at 2. rewrite wrap64_add_l, IH. f_equal. lia.
Qed.

Lemma sum_sizes_total (h : Heap) (cs : list ptr) :
  sum_sizes h cs = total_size h cs.
Proof.
  unfold sum_sizes. change 0 with (wrap64 0) at 1.
  rewrite sum_sizes_from, total_size_eq. reflexivity.
Qed.

Lemma total_size_snoc (h : Heap) (cs : list ptr) (c : ptr) :
  total_size h (cs ++ [c]) = add64 (total_size h cs) (Size (deref h c)).
Proof.
  rewrite !total_size_eq. unfold sizes, add64.
  rewrite map_app, zsum_app, wrap64_add_l. unfold zsum.
  cbn [map fold_right]. f_equal. lia.
Qed.

Lemma sizes_ext (h h' : Heap) (cs : list ptr) :
  (forall c, c ∈ cs -> Size (deref h' c) = Size (deref h c)) ->
  sizes h' cs = sizes h cs.
Proof.
  intros Hext. unfold sizes. apply map_ext_in. intros c Hc.
  apply Hext. now apply list_elem_of_In.
Qed.

Lemma total_size_ext (h h' : Heap) (cs : list ptr) :
  (forall c, c ∈ cs -> Size (deref h' c) = Size (deref h c)) ->
  total_size h' cs = total_size h cs.
Proof. intros Hext. rewrite !total_size_eq, (sizes_ext h h'); auto. Qed.

(** ** The store *)

Lemma deref_lookup (h : Heap) (p : ptr) (n : DirInfo) :
  h !! p = Some n -> deref h p = n.
Proof. unfold deref. now intros ->. Qed.

Lemma deref_alter_eq (f : DirInfo -> DirInfo) (h : Heap) (p : ptr) :
  (p < length h)%nat -> deref (alter f p h) p = f (deref h p).
Proof.
  intros Hp. unfold deref. rewrite list_lookup_alter_eq.
  destruct (lookup_lt_is_Some_2 h p Hp) as [n Hn]. now rewrite Hn.
Qed.

Lemma deref_alter_ne (f : DirInfo -> DirInfo) (h : Heap) (p q : ptr) :
  p <> q -> deref (alter f p h) q = deref h q.
Proof. intros Hne. unfold deref. now rewrite list_lookup_alter_ne. Qed.

Lemma deref_app_l (h t : Heap) (p : ptr) :
  (p < length h)%nat -> deref (h ++ t) p = deref h p.
Proof. intros Hp. unfold deref. now rewrite lookup_app_l. Qed.

Lemma deref_app_new (h : Heap) (n : DirInfo) :
  deref (h ++ [n]) (length h) = n.
Proof.
  unfold deref. rewrite lookup_app_r by lia.
  now rewrite Nat.sub_diag.
Qed.

Lemma deref_outside (h : Heap) (p : ptr) :
  (length h <= p)%nat -> deref h p = zero_DirInfo.
Proof. intros Hp. unfold deref. now rewrite lookup_ge_None_2. Qed.

(** ** sort.Slice *)

Section SortFacts.
Context {A : Type} (less : A -> A -> bool).

Lemma insert_sorted_perm (x : A) (l : list A) : insert_sorted less x l ≡ₚ x :: l.
Proof.
  induction l as [|y l IH]; cbn; [reflexivity|].
  destruct (less x y); [reflexivity|].
  rewrite IH. apply perm_swap.
Qed.

Lemma sort_from_perm (l acc : list A) :
  fold_left (fun acc x => insert_sorted less x acc) l acc ≡ₚ acc ++ l.
Proof.
  revert acc. induction l as [|x l IH]; intros acc; cbn.
  - now rewrite app_nil_r.
  - rewrite IH, insert_sorted_perm. apply Permutation_middle.
Qed.

Lemma sort_Slice_perm (l : list A) : sort_Slice less l ≡ₚ l.
Proof. unfold sort_Slice. now rewrite sort_from_perm. Qed.

Hypothesis less_asym : forall a b, less a b = true -> less b a = false.

Lemma insert_sorted_sorted (x : A) (l : list A) :
  Sorted (ordered less) l -> Sorted (ordered less) (insert_sorted less x l).
Proof.
  induction 1 as [|y l Hs IH Hhd]; cbn.
  - repeat constructor.
  - destruct (less x y) eqn:Hxy.
    + constructor; [now constructor|]. constructor. now apply less_asym.
    + constructor; [exact IH|].
      destruct l as [|z l]; cbn.
      * now constructor.
      * destruct (less x z); constructor; [exact Hxy|].
        now inversion Hhd.
Qed.

Lemma sort_from_sorted (l acc : list A) :
  Sorted (ordered less) acc ->
  Sorted (ordered less) (fold_left (fun acc x => insert_sorted less x acc) l acc).
Proof.
  revert acc. induction l as [|x l IH]; intros acc Hacc; cbn; [exact Hacc|].
  apply IH. now apply insert_sorted_sorted.
Qed.

Lemma sort_Slice_sorted (l : list A) : Sorted (ordered less) (sort_Slice less l).
Proof. apply sort_from_sorted. constructor. Qed.
End SortFacts.

(** ** The scan builds a well formed tree *)

Lemma FsNode_ind (P : FsNode -> Prop) :
  (forall err, P (StatFails err)) ->
  (forall size, P (RegularFile size)) ->
  (forall err, P (UnlistableDir err)) ->
  (forall entries, Forall (fun e => P (snd e)) entries -> P (Directory entries)) ->
  forall fs, P fs.
Proof.
  intros Hs Hf Hu Hd.
  refine (fix go (fs : FsNode) : P fs :=
            match fs with
            | StatFails err => Hs err
            | RegularFile size => Hf size
            | UnlistableDir err => Hu err
            | Directory entries => Hd entries _
            end).
  induction entries as [|[name sub] rest IH]; constructor; [apply go | exact IH].
Qed.

Lemma calc_Directory (entries : list (string * FsNode)) (path : string)
    (parent : option ptr) (s : ScanState) :
  calculateDirSizeWithProgress (Directory entries) path parent s =
    let '(dirInfo, s) := new_DirInfo path parent true s in
    let s := incr_dirs s in
    let '(totalSize, s) := scan_entries path dirInfo entries 0 s in
    let s := with_heap (alter (set_Size totalSize) dirInfo) s in
    let s := with_heap (fun h =>
      alter (fun d => set_Children (sort_Slice (size_less h) (Children d)) d)
            dirInfo h) s in
    (inl dirInfo, s).
Proof. reflexivity. Qed.

Lemma scan_entries_cons (path : string) (a : ptr) (name : string)
    (sub : FsNode) (rest : list (string * FsNode)) (total : Z) (s : ScanState) :
  scan_entries path a ((name, sub) :: rest) total s =
    match calculateDirSizeWithProgress sub (filepath_Join path name) (Some a) s with
    | (inr _, s) => scan_entries path a rest total s
    | (inl child, s) =>
        let '(total, s) := attach_child a child total s in
        scan_entries path a rest total s
    end.
Proof. reflexivity. Qed.

Lemma node_ok_stable (a x : ptr) (h h' : Heap) :
  extends_above a h h' -> (a < x < length h)%nat ->
  node_ok h x -> node_ok h' x.
Proof.
  intros (Hlen & Hsame & Hkind) Hx [Hnd Hch Hsz Hfile Hpar].
  rewrite <- (Hsame x Hx) in *.
  constructor; auto.
  - intros c Hc. destruct (Hch c Hc) as [Hrange HP].
    rewrite (Hsame c) by lia. split; [lia | exact HP].
  - intros Hd. rewrite (Hsz Hd). symmetry. apply total_size_ext.
    intros c Hc. destruct (Hch c Hc) as [Hrange _]. rewrite Hsame; [reflexivity | lia].
  - intros q Hq. destruct (Hpar q Hq) as [Hlt Hd].
    split; [exact Hlt|]. rewrite Hkind by lia. exact Hd.
Qed.

Lemma in_tree_stable (a : ptr) (h h' : Heap) (c x : ptr) :
  extends_above a h h' ->
  (forall y, (a < y < length h)%nat -> node_ok h y) ->
  (a < c < length h)%nat -> in_tree h c x ->
  in_tree h' c x /\ (a < x < length h)%nat.
Proof.
  intros Hext Hok Hc Htree. induction Htree as [|d c x Hin Htree IH].
  - split; [constructor | exact Hc].
  - destruct (ok_child _ _ (Hok d Hc) c Hin) as [Hrange _].
    destruct IH as [IH1 IH2]; [lia|]. split; [|exact IH2].
    apply in_tree_child with c; [|exact IH1].
    destruct Hext as (_ & Hsame & _). now rewrite (Hsame d Hc).
Qed.

Lemma node_for_stable (a x : ptr) (h h' : Heap) (fs : FsNode) (path : string) :
  extends_above a h h' -> (a < x < length h)%nat -> node_ok h x ->
  node_for h fs path x -> node_for h' fs path x.
Proof.
  intros (Hlen & Hsame & Hkind) Hx Hok [Hpath Hshape].
  unfold node_for. rewrite (Hsame x Hx). split; [exact Hpath|].
  destruct fs; auto.
  destruct Hshape as (Hd & He & Hp). repeat split; auto.
  rewrite <- Hp. apply Permutation_refl'.
  apply map_ext_in. intros c Hc. apply list_elem_of_In in Hc.
  destruct (ok_child _ _ Hok c Hc) as [Hrange _]. rewrite Hsame; [reflexivity|lia].
Qed.

Lemma covers_stable (a c : ptr) (h h' : Heap) (fs : FsNode) (path : string) :
  extends_above a h h' ->
  (forall y, (a < y < length h)%nat -> node_ok h y) ->
  (a < c < length h)%nat ->
  covers h fs path c -> covers h' fs path c.
Proof.
  intros Hext Hok Hc Hcov sub subpath Hat Hstat.
  destruct (Hcov sub subpath Hat Hstat) as (x & Htree & Hnode).
  destruct (in_tree_stable a h h' c x Hext Hok Hc Htree) as [Htree' Hx].
  exists x. split; [exact Htree'|].
  apply (node_for_stable a x h h'); auto.
Qed.

Lemma try_send_heap (msg : scanProgressMsg) (s : ScanState) :
  heap (try_send msg s) = heap s.
Proof. unfold try_send. now destruct (_ <? _)%nat. Qed.

Lemma alter_app_new (f : DirInfo -> DirInfo) (h : Heap) (n : DirInfo) :
  alter f (length h) (h ++ [n]) = h ++ [f n].
Proof.
  rewrite <- (Nat.add_0_r (length h)) at 1. now rewrite alter_app_r.
Qed.

Lemma attach_child_spec (a c : ptr) (total : Z) (s : ScanState) :
  a <> c ->
  exists f : DirInfo -> DirInfo,
    attach_child a c total s
      = (add64 total (Size (deref (heap s) c)),
         snd (attach_child a c total s)) /\
    heap (snd (attach_child a c total s)) = alter f a (heap s) /\
    forall d, Children (f d) = Children d ++ [c] /\ Path (f d) = Path d /\
              Parent (f d) = Parent d /\ IsDir (f d) = IsDir d /\
              Error (f d) = Error d.
Proof.
  intros Hne. unfold attach_child. cbn [with_heap heap currentRoot].
  rewrite deref_alter_ne by exact Hne.
  destruct (decide _) as [Hroot|Hroot]; cbn [fst snd].
  - eexists (fun d => set_Size _ (set_Children (Children d ++ [c]) d)).
    split; [reflexivity|]. split; [|intros d; cbn; auto].
    rewrite try_send_heap. cbn [with_heap heap].
    now rewrite list_alter_alter_eq.
  - eexists (fun d => set_Children (Children d ++ [c]) d).
    split; [reflexivity|]. split; [reflexivity | intros d; cbn; auto].
Qed.

Lemma extends_above_alter (a : ptr) (f : DirInfo -> DirInfo) (h : Heap) :
  (forall d, IsDir (f d) = IsDir d) -> extends_above a h (alter f a h).
Proof.
  intros Hkind. split; [now rewrite length_alter|]. split.
  - intros x Hx. apply deref_alter_ne. lia.
  - intros x Hx. destruct (decide (a = x)) as [->|Hne].
    + now rewrite deref_alter_eq.
    + now rewrite deref_alter_ne.
Qed.

Lemma extends_above_frame (a : ptr) (h h' : Heap) :
  (length h <= length h')%nat ->
  (forall x, (x < length h)%nat -> h' !! x = h !! x) ->
  extends_above a h h'.
Proof.
  intros Hlen Hframe. split; [exact Hlen|].
  split; intros x Hx; unfold deref; rewrite Hframe; auto; lia.
Qed.

Lemma scanned_paths_snoc (path name : string) (sub : FsNode)
    (done : list (string * FsNode)) :
  scanned_paths path (done ++ [(name, sub)]) =
    scanned_paths path done
      ++ (if stat_ok sub then [filepath_Join path name] else []).
Proof.
  unfold scanned_paths. rewrite filter_app, map_app. f_equal.
  destruct sub; reflexivity.
Qed.

Lemma fs_at_stat_ok (fs sub : FsNode) (path subpath : string) :
  fs_at fs path sub subpath -> stat_ok sub = true -> stat_ok fs = true.
Proof. destruct 1; auto. Qed.

Section Loop.
Context (path : string) (parent : option ptr) (a : ptr).

(** An entry whose stat fails leaves the loop as it is. *)
Lemma loop_inv_skip (done : list (string * FsNode)) (total : Z)
    (s : ScanState) (name : string) (err : error) :
  loop_inv path parent a done total s ->
  loop_inv path parent a (done ++ [(name, StatFails err)]) total s.
Proof.
  intros [? ? ? ? ? Hpaths ? ? ? ? Hcov]. constructor; auto.
  - rewrite scanned_paths_snoc. cbn. now rewrite app_nil_r.
  - intros n sb Hin Hstat. apply elem_of_app in Hin as [Hin|Hin]; [eauto|].
    apply list_elem_of_singleton in Hin. inversion Hin; subst. discriminate.
Qed.

(** The scan of a child adds nodes and touches none of the others. *)
Lemma loop_inv_extend (done : list (string * FsNode)) (total : Z)
    (s s' : ScanState) :
  loop_inv path parent a done total s ->
  (length (heap s) <= length (heap s'))%nat ->
  (forall x, (x < length (heap s))%nat -> heap s' !! x = heap s !! x) ->
  (forall x, (length (heap s) <= x < length (heap s'))%nat ->
     node_ok (heap s') x) ->
  loop_inv path parent a done total s'.
Proof.
  intros [Hv Hpath Hpar Hdir Herr Hpaths Hnd Hch Htot Hok Hcov] Hlen Hframe Hnew.
  assert (Hext : extends_above a (heap s) (heap s'))
    by now apply extends_above_frame.
  assert (Hsame : forall x, (x < length (heap s))%nat ->
                    deref (heap s') x = deref (heap s) x)
    by (intros x Hx; unfold deref; now rewrite Hframe).
  rewrite <- (Hsame a Hv) in *.
  constructor; auto; try lia.
  - rewrite <- Hpaths. apply map_ext_in. intros c Hc.
    apply list_elem_of_In in Hc. destruct (Hch c Hc) as [Hr _].
    rewrite Hsame; [reflexivity | lia].
  - intros c Hc. destruct (Hch c Hc) as [Hr HP].
    rewrite Hsame by lia. split; [lia | exact HP].
  - rewrite Htot. symmetry. apply total_size_ext. intros c Hc.
    destruct (Hch c Hc) as [Hr _]. rewrite Hsame; [reflexivity | lia].
  - intros x Hx. destruct (decide (x < length (heap s))%nat) as [Hlt|Hge].
    + apply (node_ok_stable a x (heap s) (heap s') Hext); [lia | apply Hok; lia].
    + apply Hnew. lia.
  - intros n sb Hin Hstat. destruct (Hcov n sb Hin Hstat) as (c & Hc & Hcv).
    exists c. split; [exact Hc|].
    destruct (Hch c Hc) as [Hr _].
    apply (covers_stable a c (heap s) (heap s') _ _ Hext Hok Hr Hcv).
Qed.

(** A scanned child is appended to the children of the directory. *)
Lemma loop_inv_attach (done : list (string * FsNode)) (total : Z)
    (s : ScanState) (name : string) (sub : FsNode) (c : ptr) :
  loop_inv path parent a done total s ->
  stat_ok sub = true ->
  (a < c < length (heap s))%nat ->
  c ∉ Children (deref (heap s) a) ->
  Parent (deref (heap s) c) = Some a ->
  Path (deref (heap s) c) = filepath_Join path name ->
  covers (heap s) sub (filepath_Join path name) c ->
  loop_inv path parent a (done ++ [(name, sub)])
    (fst (attach_child a c total s)) (snd (attach_child a c total s)).
Proof.
  intros [Hv Hpath Hpar Hdir Herr Hpaths Hnd Hch Htot Hok Hcov]
    Hstat Hc Hfresh HPc Hpc Hcv.
  destruct (attach_child_spec a c total s ltac:(lia)) as (f & Heq & Hheap & Hf).
  rewrite Heq. cbn [fst snd]. set (s' := snd (attach_child a c total s)) in *.
  assert (Hext : extends_above a (heap s) (heap s')).
  { rewrite Hheap. apply extends_above_alter. intros d. apply Hf. }
  assert (Hlen : length (heap s') = length (heap s))
    by (rewrite Hheap; apply length_alter).
  assert (Hsame : forall x, x <> a -> deref (heap s') x = deref (heap s) x)
    by (intros x Hx; rewrite Hheap; apply deref_alter_ne; congruence).
  assert (Ha : deref (heap s') a = f (deref (heap s) a))
    by (rewrite Hheap; now apply deref_alter_eq).
  destruct (Hf (deref (heap s) a)) as (HfC & HfP & HfPa & HfD & HfE).
  constructor; rewrite ?Ha, ?HfC, ?HfP, ?HfPa, ?HfD, ?HfE, ?Hlen; auto.
  - rewrite scanned_paths_snoc, Hstat, map_app, <- Hpaths. cbn [map].
    rewrite (Hsame c) by lia. rewrite Hpc. f_equal.
    apply map_ext_in. intros c' Hc'. apply list_elem_of_In in Hc'.
    destruct (Hch c' Hc') as [Hr _]. rewrite Hsame; [reflexivity | lia].
  - apply NoDup_app. split; [exact Hnd|]. split; [|apply NoDup_singleton].
    intros x Hx Hx'. apply list_elem_of_singleton in Hx'. subst. contradiction.
  - intros c' Hc'. rewrite Hsame.
    + apply elem_of_app in Hc' as [Hc'|Hc']; [now apply Hch|].
      apply list_elem_of_singleton in Hc'. subst. split; [lia | exact HPc].
    + apply elem_of_app in Hc' as [Hc'|Hc'].
      * destruct (Hch c' Hc'). lia.
      * apply list_elem_of_singleton in Hc'. lia.
  - rewrite total_size_snoc, (Hsame c) by lia. f_equal.
    rewrite Htot. symmetry. apply total_size_ext. intros c' Hc'.
    destruct (Hch c' Hc') as [Hr _]. rewrite Hsame; [reflexivity | lia].
  - intros x Hx. apply (node_ok_stable a x (heap s) (heap s') Hext); [lia | apply Hok; lia].
  - intros n sb Hin Hsb. apply elem_of_app in Hin as [Hin|Hin].
    + destruct (Hcov n sb Hin Hsb) as (c' & Hc' & Hcv').
      exists c'. split; [apply elem_of_app; now left|].
      destruct (Hch c' Hc') as [Hr _].
      apply (covers_stable a c' (heap s) (heap s') _ _ Hext Hok Hr Hcv').
    + apply list_elem_of_singleton in Hin. inversion Hin; subst.
      exists c. split; [apply elem_of_app; right; now apply list_elem_of_singleton|].
      apply (covers_stable a c (heap s) (heap s') _ _ Hext Hok Hc Hcv).
Qed.
End Loop.

Lemma scan_entries_spec (path : string) (parent : option ptr) (a : ptr)
    (rest : list (string * FsNode)) :
  Forall (fun e => calc_ok (snd e)) rest ->
  forall (done : list (string * FsNode)) (total : Z) (s : ScanState),
    loop_inv path parent a done total s ->
    loop_inv path parent a (done ++ rest)
      (fst (scan_entries path a rest total s))
      (snd (scan_entries path a rest total s)) /\
    (length (heap s) <= length (heap (snd (scan_entries path a rest total s))))%nat /\
    (forall x, (x < a)%nat ->
       heap (snd (scan_entries path a rest total s)) !! x = heap s !! x).
Proof.
  induction 1 as [|[name sub] rest Hsub _ IH]; intros done total s Hinv.
  - cbn. rewrite app_nil_r. auto.
  - rewrite scan_entries_cons.
    replace (done ++ (name, sub) :: rest) with ((done ++ [(name, sub)]) ++ rest)
      by now rewrite <- app_assoc.
    assert (Hpar : parent_ok (heap s) (Some a)).
    { intros q [= <-]. split; [apply (li_valid _ _ _ _ _ _ Hinv)
                              | apply (li_isdir _ _ _ _ _ _ Hinv)]. }
    specialize (Hsub (filepath_Join path name) (Some a) s Hpar). cbn [snd] in Hsub.
    destruct (calculateDirSizeWithProgress sub (filepath_Join path name)
                (Some a) s) as [[c|err] s1].
    + destruct Hsub as [Hstat [Hptr Hlen Hframe Hok HPc Hnode Hcv]].
      pose proof (li_valid _ _ _ _ _ _ Hinv) as Hv.
      assert (Hinv1 : loop_inv path parent a done total s1)
        by (apply (loop_inv_extend path parent a done total s s1); auto; lia).
      assert (Hfresh : c ∉ Children (deref (heap s1) a)).
      { intros Hin. replace (deref (heap s1) a) with (deref (heap s) a) in Hin
          by (unfold deref; now rewrite Hframe).
        destruct (li_child _ _ _ _ _ _ Hinv c Hin). lia. }
      pose proof (loop_inv_attach path parent a done total s1 name sub c
                    Hinv1 Hstat ltac:(lia) Hfresh HPc (proj1 Hnode) Hcv) as Hinv2.
      destruct (attach_child_spec a c total s1 ltac:(lia)) as (f & Heq & Hheap & _).
      destruct (attach_child a c total s1) as [total2 s2]. cbn [fst snd] in *.
      destruct (IH _ _ _ Hinv2) as (IH1 & IH2 & IH3).
      split; [exact IH1|]. split.
      * rewrite Hheap, length_alter in IH2. lia.
      * intros x Hx. rewrite IH3 by exact Hx.
        rewrite Hheap, list_lookup_alter_ne by lia. apply Hframe. lia.
    + destruct Hsub as [-> ->].
      apply IH. now apply loop_inv_skip.
Qed.

(** The first step of a directory: the fresh node, with nothing below it. *)
Lemma loop_inv_start (path : string) (parent : option ptr) (s : ScanState) :
  loop_inv path parent (length (heap s)) [] 0
    (incr_dirs (snd (new_DirInfo path parent true s))).
Proof.
  unfold incr_dirs, new_DirInfo. cbn [snd heap].
  constructor; cbn [heap]; rewrite ?deref_app_new;
    cbn [Path Parent IsDir Error Children map]; auto.
  - rewrite length_app. cbn. lia.
  - constructor.
  - intros c Hc. inversion Hc.
  - intros x Hx. rewrite length_app in Hx. cbn in Hx. lia.
  - intros n sb Hin. inversion Hin.
Qed.

(** A node without children that was just allocated. *)
Lemma leaf_post (fs : FsNode) (path : string) (parent : option ptr)
    (s s' : ScanState) (n : DirInfo) :
  heap s' = heap s ++ [n] ->
  parent_ok (heap s) parent ->
  Parent n = parent -> Children n = [] ->
  (IsDir n = true -> Size n = 0) ->
  (forall entries, fs <> Directory entries) ->
  (forall h x, deref h x = n -> node_for h fs path x) ->
  calc_post fs path parent s (length (heap s)) s'.
Proof.
  intros Hheap Hpar HP HC HS Hleaf Hnode.
  assert (Hn : deref (heap s') (length (heap s)) = n)
    by (rewrite Hheap; apply deref_app_new).
  constructor; auto.
  - rewrite Hheap, length_app. cbn. lia.
  - intros x Hx. rewrite Hheap. now apply lookup_app_l.
  - intros x Hx. rewrite Hheap, length_app in Hx. cbn in Hx.
    assert (x = length (heap s)) as -> by lia.
    constructor; rewrite Hn, ?HC.
    + constructor.
    + intros c Hc. inversion Hc.
    + intros Hd. now rewrite HS.
    + reflexivity.
    + intros q Hq. rewrite HP in Hq. destruct (Hpar q Hq) as [Hlt Hd].
      split; [exact Hlt|]. rewrite Hheap, deref_app_l; auto.
  - now rewrite Hn.
  - intros sub subpath Hat Hstat. exists (length (heap s)).
    split; [constructor|].
    inversion Hat; subst; [now apply Hnode|]. now destruct (Hleaf entries).
Qed.

Theorem calc_spec (fs : FsNode) : calc_ok fs.
Proof.
  induction fs as [err|size|err|entries IH] using FsNode_ind;
    intros path parent s Hpar.
  - cbn. auto.
  - cbn [calculateDirSizeWithProgress new_DirInfo]. split; [reflexivity|].
    eapply leaf_post; try exact Hpar.
    + cbn [incr_files with_heap heap]. apply alter_app_new.
    + reflexivity.
    + reflexivity.
    + discriminate.
    + discriminate.
    + intros h x Hx. unfold node_for. rewrite Hx. cbn. repeat split.
  - cbn [calculateDirSizeWithProgress new_DirInfo]. split; [reflexivity|].
    eapply leaf_post; try exact Hpar.
    + cbn [incr_dirs with_heap heap]. apply alter_app_new.
    + reflexivity.
    + reflexivity.
    + reflexivity.
    + discriminate.
    + intros h x Hx. unfold node_for. rewrite Hx. cbn. repeat split.
  - rewrite calc_Directory.
    pose proof (loop_inv_start path parent s) as Hstart.
    set (a := length (heap s)) in *.
    destruct (new_DirInfo path parent true s) as [a' s0] eqn:Hnew.
    assert (a' = a) as -> by (unfold new_DirInfo in Hnew; now inversion Hnew).
    assert (Hh0 : heap (incr_dirs s0) = heap s ++ [mkDirInfo path 0 [] parent true None])
      by (unfold new_DirInfo in Hnew; inversion Hnew; reflexivity).
    cbn [snd] in Hstart. cbv beta iota zeta.
    destruct (scan_entries_spec path parent a entries IH [] 0 (incr_dirs s0) Hstart)
      as (Hinv & Hlen & Hframe).
    destruct (scan_entries path a entries 0 (incr_dirs s0)) as [total s1].
    cbn [fst snd app] in *. split; [reflexivity|].
    destruct Hinv as [Hv Hpath HP Hdir Herr Hpaths Hnd Hch Htot Hok Hcov].
    cbn [with_heap heap].
    set (h2 := alter (set_Size total) a (heap s1)).
    set (sorted := sort_Slice (size_less h2)).
    set (h3 := alter (fun d => set_Children (sorted (Children d)) d) a h2).
    assert (Hl2 : length h2 = length (heap s1)) by apply length_alter.
    assert (Hl3 : length h3 = length (heap s1))
      by (unfold h3; now rewrite length_alter).
    assert (Ha3 : deref h3 a =
              set_Children (sorted (Children (deref (heap s1) a)))
                (set_Size total (deref (heap s1) a))).
    { unfold h3. rewrite deref_alter_eq by lia.
      unfold h2. now rewrite deref_alter_eq by lia. }
    assert (Hsame : forall x, x <> a -> deref h3 x = deref (heap s1) x).
    { intros x Hx. unfold h3, h2. rewrite !deref_alter_ne; auto. }
    assert (Hext : extends_above a (heap s1) h3).
    { split; [lia|]. split.
      - intros x Hx. apply Hsame. lia.
      - intros x Hx. destruct (decide (x = a)) as [->|Hne].
        + now rewrite Ha3.
        + now rewrite Hsame. }
    assert (Hperm : sorted (Children (deref (heap s1) a))
                      ≡ₚ Children (deref (heap s1) a))
      by apply sort_Slice_perm.
    rewrite Hh0, length_app in Hlen. cbn in Hlen.
    assert (Hold : forall x, (x < a)%nat -> h3 !! x = heap s !! x).
    { intros x Hx. unfold h3, h2. rewrite !list_lookup_alter_ne by lia.
      rewrite Hframe, Hh0 by exact Hx. now apply lookup_app_l. }
    assert (Hnode : node_for h3 (Directory entries) path a).
    { split; rewrite Ha3; cbn; auto. repeat split; auto.
      rewrite <- Hpaths. rewrite Hperm. apply Permutation_refl'.
      apply map_ext_in. intros c Hc. apply list_elem_of_In in Hc.
      destruct (Hch c Hc). rewrite Hsame; [reflexivity | lia]. }
    constructor; unfold with_heap; cbn [heap]; fold h2; fold sorted; fold h3; auto.
    + fold a. lia.
    + intros x Hx. fold a in Hx. destruct (decide (x = a)) as [->|Hne].
      * constructor; rewrite Ha3; cbn [set_Children set_Size Children Size IsDir Parent].
        -- now rewrite Hperm.
        -- intros c Hc. rewrite Hperm in Hc. destruct (Hch c Hc) as [Hr HPc].
           rewrite Hsame by lia. split; [lia | exact HPc].
        -- intros _. rewrite Htot, (total_size_perm _ _ _ Hperm).
           symmetry. apply total_size_ext. intros c Hc.
           destruct (Hch c Hc). rewrite Hsame; [reflexivity | lia].
        -- congruence.
        -- intros q Hq. rewrite HP in Hq. destruct (Hpar q Hq) as [Hlt Hd].
           fold a in Hlt. split; [exact Hlt|].
           unfold deref. rewrite Hold by exact Hlt. exact Hd.
      * apply (node_ok_stable a x (heap s1) h3 Hext); [lia | apply Hok; lia].
    + rewrite Ha3. exact HP.
    + intros sub subpath Hat Hstat.
      inversion Hat as [|? ? name child ? ? Hin Hat']; subst.
      * exists a. split; [constructor | exact Hnode].
      * pose proof (fs_at_stat_ok _ _ _ _ Hat' Hstat) as Hchild.
        destruct (Hcov name child Hin Hchild) as (c & Hc & Hcv).
        destruct (Hch c Hc) as [Hr _].
        destruct (covers_stable a c (heap s1) h3 _ _ Hext Hok Hr Hcv
                    sub subpath Hat' Hstat) as (x & Htree & Hx).
        exists x. split; [|exact Hx].
        apply in_tree_child with c; [|exact Htree].
        rewrite Ha3. cbn. now rewrite Hperm.
Qed.

(** ** Trees in the store *)

Lemma in_tree_snoc (h : Heap) (d q x : ptr) :
  in_tree h d q -> x ∈ Children (deref h q) -> in_tree h d x.
Proof.
  induction 1 as [|d c q Hc _ IH]; intros Hx.
  - apply in_tree_child with x; [exact Hx | constructor].
  - apply in_tree_child with c; auto.
Qed.

Lemma in_tree_inv_last (h : Heap) (d x : ptr) :
  in_tree h d x ->
  x = d \/ exists q, in_tree h d q /\ x ∈ Children (deref h q).
Proof.
  induction 1 as [|d c x Hc _ IH]; [now left|]. right.
  destruct IH as [->|(q & Hq & Hx)].
  - exists d. split; [constructor | exact Hc].
  - exists q. split; [|exact Hx]. now apply in_tree_child with c.
Qed.

Lemma in_tree_valid (h : Heap) (d x : ptr) :
  heap_ok h -> (d < length h)%nat -> in_tree h d x ->
  (d <= x < length h)%nat.
Proof.
  intros Hok Hd. induction 1 as [|d c x Hc _ IH]; [lia|].
  destruct (ok_child _ _ (Hok d Hd) c Hc) as [Hr _].
  specialize (IH ltac:(lia)). lia.
Qed.

(** In a well formed store the parent of a node of the tree is in the
    tree and holds the node among its children. *)
Lemma in_tree_parent (h : Heap) (r p q : ptr) :
  heap_ok h -> (r < length h)%nat -> Parent (deref h r) = None ->
  in_tree h r p -> Parent (deref h p) = Some q ->
  in_tree h r q /\ p ∈ Children (deref h q).
Proof.
  intros Hok Hr Hroot Htree HP.
  destruct (in_tree_inv_last _ _ _ Htree) as [->|(q' & Hq' & Hp)]; [congruence|].
  destruct (in_tree_valid h r q' Hok Hr Hq') as [_ Hv].
  destruct (ok_child _ _ (Hok q' Hv) p Hp) as [_ HP'].
  assert (q' = q) as -> by congruence. auto.
Qed.

Lemma anc_in_tree (h : Heap) (r a p : ptr) :
  heap_ok h -> (r < length h)%nat -> Parent (deref h r) = None ->
  ancestor_or_self h a p -> in_tree h r p -> in_tree h r a.
Proof.
  intros Hok Hr Hroot. induction 1 as [|p q HP _ IH]; intros Htree; [exact Htree|].
  apply IH. now apply (in_tree_parent h r p q).
Qed.

Lemma parent_lt (h : Heap) (p q : ptr) :
  heap_ok h -> Parent (deref h p) = Some q -> (q < p < length h)%nat.
Proof.
  intros Hok HP. destruct (decide (p < length h)%nat) as [Hp|Hp].
  - destruct (ok_parent _ _ (Hok p Hp) q HP). lia.
  - rewrite deref_outside in HP by lia. discriminate.
Qed.

Lemma anc_le (h : Heap) (a p : ptr) :
  heap_ok h -> ancestor_or_self h a p -> (a <= p)%nat.
Proof.
  intros Hok. induction 1 as [|p q HP _ IH]; [lia|].
  pose proof (parent_lt h p q Hok HP). lia.
Qed.

Lemma anc_parent (h : Heap) (c x p : ptr) :
  heap_ok h -> ancestor_or_self h c p -> Parent (deref h c) = Some x ->
  ancestor_or_self h x p.
Proof.
  intros Hok. induction 1 as [|p q HP _ IH]; intros Hc.
  - apply anc_up with x; [exact Hc | constructor].
  - apply anc_up with q; auto.
Qed.

Lemma anc_dec (h : Heap) :
  heap_ok h ->
  forall p a, ancestor_or_self h a p \/ ~ ancestor_or_self h a p.
Proof.
  intros Hok p. induction p as [p IH] using lt_wf_ind. intros a.
  destruct (decide (a = p)) as [->|Hne]; [left; constructor|].
  destruct (Parent (deref h p)) as [q|] eqn:HP.
  - destruct (parent_lt h p q Hok HP) as [Hq _].
    destruct (IH q Hq a) as [Ha|Ha].
    + left. now apply anc_up with q.
    + right. intros Hanc. inversion Hanc as [|? q' HP' Ha']; subst; [congruence|].
      assert (q' = q) as -> by congruence. contradiction.
  - right. intros Hanc. inversion Hanc; subst; congruence.
Qed.

(** ** The search loop *)

Lemma index_of_Some (x : ptr) (l : list ptr) (k i : nat) :
  index_of x l k = Some i ->
  exists l1 l2, l = l1 ++ x :: l2 /\ i = (k + length l1)%nat /\ x ∉ l1.
Proof.
  revert k. induction l as [|y l IH]; intros k; cbn; [discriminate|].
  destruct (decide (y = x)) as [->|Hne].
  - intros [= <-]. exists [], l. repeat split; [cbn; lia | apply not_elem_of_nil].
  - intros Hi. destruct (IH _ Hi) as (l1 & l2 & -> & -> & Hnot).
    exists (y :: l1), l2. repeat split; [cbn; lia|].
    apply not_elem_of_cons. auto.
Qed.

Lemma index_of_None (x : ptr) (l : list ptr) (k : nat) :
  x ∉ l -> index_of x l k = None.
Proof.
  revert k. induction l as [|y l IH]; intros k Hx; cbn; [reflexivity|].
  apply not_elem_of_cons in Hx as [Hne Hx].
  destruct (decide (y = x)); [congruence | auto].
Qed.

Lemma index_of_lookup (x : ptr) (l : list ptr) (i k : nat) :
  NoDup l -> l !! i = Some x -> index_of x l k = Some (k + i)%nat.
Proof.
  revert i k. induction l as [|y l IH]; intros i k Hnd Hi; [discriminate|].
  apply NoDup_cons in Hnd as [Hy Hnd]. cbn.
  destruct i as [|i]; cbn in Hi.
  - inversion Hi; subst. rewrite decide_True by reflexivity. f_equal. lia.
  - destruct (decide (y = x)) as [->|Hne].
    + exfalso. apply Hy. apply list_elem_of_lookup. eauto.
    + rewrite (IH i (S k) Hnd Hi). f_equal. lia.
Qed.

Lemma delete_middle (x : ptr) (l1 l2 : list ptr) :
  delete (length l1) (l1 ++ x :: l2) = l1 ++ l2.
Proof. induction l1 as [|y l1 IH]; cbn; [reflexivity | f_equal; apply IH]. Qed.

Lemma zsum_change_one (f g : ptr -> Z) (d : ptr) (cs : list ptr) :
  NoDup cs -> d ∈ cs -> (forall c, c ∈ cs -> c <> d -> g c = f c) ->
  zsum (map g cs) = zsum (map f cs) - f d + g d.
Proof.
  unfold zsum. induction cs as [|c cs IH]; intros Hnd Hd Hsame; [inversion Hd|].
  apply NoDup_cons in Hnd as [Hc Hnd]. cbn [map fold_right].
  destruct (decide (c = d)) as [->|Hne].
  - assert (map g cs = map f cs) as ->; [|lia].
    apply map_ext_in. intros c Hin. apply list_elem_of_In in Hin.
    apply Hsame; [now right | congruence].
  - apply elem_of_cons in Hd as [Hd|Hd]; [congruence|].
    rewrite IH; auto.
    + rewrite (Hsame c); [lia | now left | exact Hne].
    + intros c' Hc' Hne'. apply Hsame; [now right | exact Hne'].
Qed.

(** ** recalculateSizes *)

Lemma same_kind_refl (h : Heap) : same_kind h h.
Proof. split; auto. Qed.

Lemma same_kind_trans (h1 h2 h3 : Heap) :
  same_kind h1 h2 -> same_kind h2 h3 -> same_kind h1 h3.
Proof.
  intros [Hl1 H1] [Hl2 H2]. split; [congruence|]. intros x.
  destruct (H1 x) as (? & ? & ? & ?), (H2 x) as (? & ? & ? & ?).
  repeat split; congruence.
Qed.

Lemma same_kind_alter_Size (h : Heap) (p : ptr) (v : Z) :
  same_kind h (alter (set_Size v) p h).
Proof.
  split; [apply length_alter|]. intros x.
  destruct (decide (p = x)) as [->|Hne].
  - destruct (decide (x < length h)%nat).
    + rewrite deref_alter_eq by lia. cbn. auto.
    + rewrite !deref_outside; auto; rewrite ?length_alter; lia.
  - rewrite deref_alter_ne by exact Hne. auto.
Qed.

Lemma same_kind_alter_Children (h : Heap) (p : ptr) (f : list ptr -> list ptr) :
  same_kind h (alter (fun n => set_Children (f (Children n)) n) p h).
Proof.
  split; [apply length_alter|]. intros x.
  destruct (decide (p = x)) as [->|Hne].
  - destruct (decide (x < length h)%nat).
    + rewrite deref_alter_eq by lia. cbn. auto.
    + rewrite !deref_outside; auto; rewrite ?length_alter; lia.
  - rewrite deref_alter_ne by exact Hne. auto.
Qed.

Section Recalc.
(** [h0] is the store before the deletion of a child that weighs [delta]
    from the directory [cd] of the tree below [r]. *)
Context (h0 : Heap) (r cd : ptr) (delta : Z).
Hypothesis Hok : heap_ok h0.
Hypothesis Hr : (r < length h0)%nat.
Hypothesis Hroot : Parent (deref h0 r) = None.

Lemma recalc_spec (fuel : nat) :
  forall (d : ptr) (hc : Heap),
    (d < fuel)%nat -> (d <= cd)%nat -> in_tree h0 r d ->
    same_kind h0 hc ->
    (forall x, x <> cd -> Children (deref hc x) = Children (deref h0 x)) ->
    (forall c, c ∈ Children (deref hc d) -> (d < c)%nat) ->
    total_size hc (Children (deref hc d)) = wrap64 (Size (deref h0 d) - delta) ->
    (forall x, x <> d ->
       (forall y, Parent (deref h0 x) = Some y -> (y < d)%nat) ->
       Size (deref hc x) = Size (deref h0 x)) ->
    exists h',
      recalculateSizes fuel (Some d) hc = Ret h' /\
      same_kind hc h' /\
      (forall x, Children (deref h' x) = Children (deref hc x)) /\
      (forall x, ancestor_or_self h0 x d ->
         Size (deref h' x) = wrap64 (Size (deref h0 x) - delta) /\
         Size (deref h' x) = total_size h' (Children (deref h' x))) /\
      (forall x, ~ ancestor_or_self h0 x d ->
         Size (deref h' x) = Size (deref hc x)).
Proof.
  induction fuel as [|fuel IH]; intros d hc Hfuel Hcd Htree Hkind Hch Hbelow HB HM;
    [lia|].
  destruct (in_tree_valid h0 r d Hok Hr Htree) as [_ Hd].
  destruct Hkind as [Hlen Hfields].
  cbn [recalculateSizes]. rewrite sum_sizes_total, HB.
  set (v := wrap64 (Size (deref h0 d) - delta)).
  set (hc1 := alter (set_Size v) d hc).
  assert (Hd1 : deref hc1 d = set_Size v (deref hc d))
    by (apply deref_alter_eq; lia).
  assert (Hne1 : forall x, x <> d -> deref hc1 x = deref hc x)
    by (intros x Hx; apply deref_alter_ne; congruence).
  assert (Hk1 : same_kind hc hc1) by apply same_kind_alter_Size.
  assert (Hc1 : forall x, Children (deref hc1 x) = Children (deref hc x)).
  { intros x. destruct (decide (x = d)) as [->|Hne];
      [now rewrite Hd1 | now rewrite Hne1]. }
  assert (HPd : Parent (deref hc1 d) = Parent (deref h0 d)).
  { rewrite Hd1. cbn. apply Hfields. }
  rewrite HPd. destruct (Parent (deref h0 d)) as [q|] eqn:HP.
  - destruct (parent_lt h0 d q Hok HP) as [Hq _].
    destruct (in_tree_parent h0 r d q Hok Hr Hroot Htree HP) as [Htq Hdq].
    destruct (in_tree_valid h0 r q Hok Hr Htq) as [_ Hqv].
    assert (Hcq : Children (deref hc1 q) = Children (deref h0 q))
      by (rewrite Hc1; apply Hch; lia).
    destruct (IH q hc1) as (h' & Hrun & Hk' & Hc' & Hanc & Hrest); try lia; auto.
    + now apply same_kind_trans with hc.
    + intros x Hx. rewrite Hc1. now apply Hch.
    + intros c Hc. rewrite Hcq in Hc.
      destruct (ok_child _ _ (Hok q Hqv) c Hc). lia.
    + rewrite Hcq, total_size_eq. unfold sizes.
      rewrite (zsum_change_one (fun c => Size (deref h0 c))
                 (fun c => Size (deref hc1 c)) d).
      * rewrite Hd1. cbn [set_Size Size]. unfold v.
        destruct (ok_parent _ _ (Hok d Hd) q HP) as [_ Hqd].
        rewrite (ok_size _ _ (Hok q Hqv) Hqd), total_size_eq. unfold sizes.
        rewrite wrap64_sub_l.
        replace (zsum (map (fun c => Size (deref h0 c)) (Children (deref h0 q)))
                 - Size (deref h0 d) + wrap64 (Size (deref h0 d) - delta))
          with ((zsum (map (fun c => Size (deref h0 c)) (Children (deref h0 q)))
                 - Size (deref h0 d)) + wrap64 (Size (deref h0 d) - delta)) by lia.
        rewrite wrap64_add_r. f_equal. lia.
      * apply (ok_nodup _ _ (Hok q Hqv)).
      * exact Hdq.
      * intros c Hc Hne. rewrite Hne1 by exact Hne. apply HM; [exact Hne|].
        intros y Hy. destruct (ok_child _ _ (Hok q Hqv) c Hc) as [_ HPc].
        assert (y = q) by congruence. lia.
    + intros x Hx Hpar. destruct (decide (x = d)) as [->|Hne].
      * specialize (Hpar q HP). lia.
      * rewrite Hne1 by exact Hne. apply HM; [exact Hne|].
        intros y Hy. specialize (Hpar y Hy). lia.
    + exists h'. split; [exact Hrun|]. split; [now apply same_kind_trans with hc1|].
      split; [intros x; now rewrite Hc'|].
      assert (Hnd : ~ ancestor_or_self h0 d q).
      { intros Ha. pose proof (anc_le h0 d q Hok Ha). lia. }
      split.
      * intros x Hx. inversion Hx as [|? q' HP' Hx']; subst.
        -- rewrite (Hrest d Hnd), Hd1. cbn [set_Size Size]. split; [reflexivity|].
           rewrite Hc', Hc1. unfold v. rewrite <- HB. apply total_size_ext.
           intros c Hc. specialize (Hbelow c Hc).
           rewrite Hrest, Hne1; [reflexivity | lia |].
           intros Ha. pose proof (anc_le h0 c q Hok Ha). lia.
        -- assert (q' = q) as -> by congruence. now apply Hanc.
      * intros x Hx. rewrite Hrest.
        -- apply f_equal, Hne1. intros ->. apply Hx. constructor.
        -- intros Ha. apply Hx. now apply anc_up with q.
  - exists hc1. split; [reflexivity|]. split; [exact Hk1|].
    split; [exact Hc1|]. split.
    + intros x Hx. inversion Hx as [|? q' HP' Hx']; subst; [|congruence].
      rewrite Hd1. cbn [set_Size Size Children]. split; [reflexivity|].
      unfold v. rewrite <- HB. apply total_size_ext.
      intros c Hc. specialize (Hbelow c Hc). rewrite Hne1; [reflexivity | lia].
    + intros x Hx. apply f_equal, Hne1. intros ->. apply Hx. constructor.
Qed.
End Recalc.

(** ** Detaching a child *)

Lemma len_pos {A} (l : list A) (x : A) : x ∈ l -> (0 <? len l) = true.
Proof.
  intros Hx. apply Z.ltb_lt. unfold len. destruct l; [inversion Hx | cbn; lia].
Qed.

Section Detach.
Context (h : Heap) (r cd t : ptr).
Hypothesis Hok : heap_ok h.
Hypothesis Hr : (r < length h)%nat.
Hypothesis Hroot : Parent (deref h r) = None.
Hypothesis Htree : in_tree h r cd.
Hypothesis Ht : t ∈ Children (deref h cd).

Lemma detach_spec (m : model) :
  currentDir m = Some cd ->
  exists h' l1 l2,
    detach t h m =
      Ret (h', if (len (l1 ++ l2) <=? cursor m) && (0 <? cursor m)
               then set_cursor (cursor m - 1) m else m) /\
    Children (deref h cd) = l1 ++ t :: l2 /\
    (t ∉ l1 ++ l2) /\
    Children (deref h' cd) = l1 ++ l2 /\
    (forall x, x <> cd -> Children (deref h' x) = Children (deref h x)) /\
    same_kind h h' /\
    (forall x, ancestor_or_self h x cd ->
       Size (deref h' x) = wrap64 (Size (deref h x) - Size (deref h t))) /\
    (forall x, ~ ancestor_or_self h x cd ->
       Size (deref h' x) = Size (deref h x)) /\
    heap_ok h'.
Proof.
  intros Hcur.
  destruct (in_tree_valid h r cd Hok Hr Htree) as [_ Hcd].
  pose proof (Hok cd Hcd) as [Hnd Hch Hsz Hfile Hpar].
  destruct (proj1 (list_elem_of_lookup _ _) Ht) as [i Hi].
  pose proof (index_of_lookup t _ i 0 Hnd Hi) as Hidx. cbn in Hidx.
  destruct (index_of_Some _ _ _ _ Hidx) as (l1 & l2 & Hsplit & Hil & Hnot1).
  cbn in Hil. subst i.
  assert (Hnot : t ∉ (l1 ++ l2)).
  { rewrite Hsplit in Hnd. apply NoDup_app in Hnd as (_ & Hdisj & Hnd2).
    apply NoDup_cons in Hnd2 as [Hnot2 _].
    intros Hin. apply elem_of_app in Hin as [Hin|Hin]; contradiction. }
  set (h1 := alter (fun n => set_Children (delete (length l1) (Children n)) n) cd h).
  assert (Hcd1 : Children (deref h1 cd) = l1 ++ l2).
  { unfold h1. rewrite deref_alter_eq by lia. cbn.
    rewrite Hsplit. apply delete_middle. }
  assert (Hne1 : forall x, x <> cd -> deref h1 x = deref h x)
    by (intros x Hx; apply deref_alter_ne; congruence).
  assert (Hk1 : same_kind h h1) by apply same_kind_alter_Children.
  assert (Hsz1 : forall x, Size (deref h1 x) = Size (deref h x)).
  { intros x. destruct (decide (x = cd)) as [->|Hne]; [|now rewrite Hne1].
    unfold h1. now rewrite deref_alter_eq by lia. }
  assert (Hdir : IsDir (deref h cd) = true).
  { destruct (IsDir (deref h cd)) eqn:E; [reflexivity|].
    rewrite Hfile in Ht by reflexivity. inversion Ht. }
  destruct (recalc_spec h r cd (Size (deref h t)) Hok Hr Hroot (length h1) cd h1)
    as (h' & Hrun & Hk' & Hc' & Hanc & Hrest); auto.
  - unfold h1. rewrite length_alter. lia.
  - intros x Hx. now rewrite Hne1.
  - intros c Hc. rewrite Hcd1 in Hc.
    destruct (Hch c) as [Hrange _]; [|lia].
    rewrite Hsplit. apply elem_of_app in Hc as [Hc|Hc];
      apply elem_of_app; [now left | right; now right].
  - rewrite Hcd1, (Hsz Hdir), Hsplit, !total_size_eq, wrap64_sub_l.
    f_equal. rewrite (sizes_ext h h1) by (intros; apply Hsz1).
    unfold sizes. rewrite !map_app, !zsum_app. cbn [map].
    unfold zsum. cbn [fold_right]. fold (zsum (map (fun c => Size (deref h c)) l2)).
    lia.
  - exists h', l1, l2. unfold detach. rewrite Hcur, (len_pos _ _ Ht), Hidx.
    fold h1. rewrite Hcd1, Hrun. cbn.
    split; [reflexivity|]. split; [exact Hsplit|]. split; [exact Hnot|].
    split; [now rewrite Hc'|].
    split; [intros x Hx; now rewrite Hc', Hne1|].
    split; [now apply same_kind_trans with h1|].
    split; [intros x Hx; now apply Hanc|].
    split; [intros x Hx; now rewrite Hrest, Hsz1|].
    (* the store is well formed again *)
    destruct Hk1 as [Hl1 Hf1]. destruct Hk' as [Hl' Hf'].
    assert (HP : forall x, Parent (deref h' x) = Parent (deref h x)).
    { intros x. destruct (Hf' x) as (-> & _). apply Hf1. }
    assert (HD : forall x, IsDir (deref h' x) = IsDir (deref h x)).
    { intros x. destruct (Hf' x) as (_ & -> & _). apply Hf1. }
    assert (Hsub : forall x c, c ∈ Children (deref h' x) ->
                     c ∈ Children (deref h x)).
    { intros x c. rewrite Hc'. destruct (decide (x = cd)) as [->|Hne].
      - rewrite Hcd1, Hsplit. intros Hc.
        apply elem_of_app in Hc as [Hc|Hc];
          apply elem_of_app; [now left | right; now right].
      - now rewrite Hne1. }
    intros x Hx. rewrite Hl', Hl1 in Hx.
    pose proof (Hok x Hx) as [Hndx Hchx Hszx Hfilex Hparx].
    constructor.
    + rewrite Hc'. destruct (decide (x = cd)) as [->|Hne].
      * rewrite Hcd1. rewrite Hsplit in Hnd.
        apply NoDup_app in Hnd as (Hn1 & Hdisj & Hn2).
        apply NoDup_cons in Hn2 as [_ Hn2].
        apply NoDup_app. repeat split; auto.
        intros y Hy1 Hy2. apply (Hdisj y Hy1). now right.
      * now rewrite Hne1.
    + intros c Hc. destruct (Hchx c (Hsub x c Hc)) as [Hrange HPc].
      rewrite HP, Hl', Hl1. auto.
    + rewrite HD. intros Hd.
      destruct (anc_dec h Hok cd x) as [Ha|Ha].
      * now apply Hanc.
      * rewrite (Hrest x Ha), Hsz1, (Hszx Hd), Hc', Hne1.
        -- symmetry. apply total_size_ext. intros c Hc.
           rewrite Hrest, Hsz1; [reflexivity|].
           intros Hac. apply Ha.
           destruct (Hchx c Hc) as [_ HPc].
           now apply (anc_parent h c x cd).
        -- intros ->. apply Ha. constructor.
    + rewrite HD. intros Hd. specialize (Hfilex Hd).
      destruct (Children (deref h' x)) as [|c cs] eqn:E; [reflexivity|].
      assert (Hc : c ∈ Children (deref h x)) by (apply Hsub; rewrite E; now left).
      rewrite Hfilex in Hc. inversion Hc.
    + intros q Hq. rewrite HP in Hq. rewrite HD. now apply Hparx.
Qed.
End Detach.

(** ** sortChildren *)

Lemma sortChildren_S (fuel : nat) (by_ : string) (d : ptr) (h : Heap) :
  sortChildren (S fuel) by_ (Some d) h =
    let h1 := alter (fun n => set_Children
                (sort_Slice (sort_less by_ h) (Children n)) n) d h in
    sort_each (fun c => sortChildren fuel by_ (Some c)) (Children (deref h1 d)) h1.
Proof. reflexivity. Qed.

Lemma string_ltb_asym (a b : string) :
  String.ltb a b = true -> String.ltb b a = false.
Proof.
  unfold String.ltb. rewrite (String.compare_antisym b a).
  destruct (String.compare a b); cbn; congruence.
Qed.

Lemma sort_less_asym (by_ : string) (h : Heap) (a b : ptr) :
  sort_less by_ h a b = true -> sort_less by_ h b a = false.
Proof.
  unfold sort_less. destruct (String.eqb by_ "name").
  - apply string_ltb_asym.
  - unfold size_less. rewrite Z.ltb_lt, Z.ltb_ge. lia.
Qed.

Lemma sort_less_ext (by_ : string) (h h' : Heap) :
  (forall x, Size (deref h' x) = Size (deref h x)) ->
  (forall x, Path (deref h' x) = Path (deref h x)) ->
  forall a b, sort_less by_ h' a b = sort_less by_ h a b.
Proof.
  intros Hs Hp a b. unfold sort_less, name_less, size_less.
  destruct (String.eqb by_ "name"); [now rewrite !Hp | now rewrite !Hs].
Qed.

Lemma Sorted_weaken {A} (R R' : A -> A -> Prop) (l : list A) :
  (forall a b, R a b -> R' a b) -> Sorted R l -> Sorted R' l.
Proof.
  intros Himp. induction 1 as [|x l _ IH Hhd]; constructor; [exact IH|].
  destruct Hhd; constructor; auto.
Qed.

Lemma perm_equiv_refl (h : Heap) : perm_equiv h h.
Proof. split; [apply same_kind_refl | auto]. Qed.

Lemma perm_equiv_trans (h1 h2 h3 : Heap) :
  perm_equiv h1 h2 -> perm_equiv h2 h3 -> perm_equiv h1 h3.
Proof.
  intros [Hk1 H1] [Hk2 H2]. split; [now apply same_kind_trans with h2|].
  intros x. destruct (H1 x) as [Hs1 Hp1], (H2 x) as [Hs2 Hp2].
  split; [congruence | now rewrite Hp2].
Qed.

Lemma sorted_at_ext (by_ : string) (h h' : Heap) (x : ptr) :
  perm_equiv h h' -> Children (deref h' x) = Children (deref h x) ->
  sorted_at by_ h x -> sorted_at by_ h' x.
Proof.
  intros [[_ Hk] Hp] Hc. unfold sorted_at. rewrite Hc.
  apply Sorted_weaken. intros a b. unfold ordered.
  rewrite (sort_less_ext by_ h h'); auto.
  - intros y. apply Hp.
  - intros y. apply Hk.
Qed.

Lemma sort_post_refl (by_ : string) (h : Heap) : sort_post by_ h h.
Proof. split; [apply perm_equiv_refl | auto]. Qed.

Lemma sort_post_trans (by_ : string) (h1 h2 h3 : Heap) :
  sort_post by_ h1 h2 -> sort_post by_ h2 h3 -> sort_post by_ h1 h3.
Proof.
  intros [Hp1 H1] [Hp2 H2]. split; [now apply perm_equiv_trans with h2|].
  intros x. destruct (H2 x) as [E2|S2]; [|now right].
  destruct (H1 x) as [E1|S1]; [left; congruence|].
  right. now apply (sorted_at_ext by_ h2 h3).
Qed.

Lemma sort_post_keeps (by_ : string) (h h' : Heap) (x : ptr) :
  sort_post by_ h h' -> sorted_at by_ h x -> sorted_at by_ h' x.
Proof.
  intros [Hp H] Hs. destruct (H x) as [E|S]; [|exact S].
  now apply (sorted_at_ext by_ h h').
Qed.

Lemma heap_ok_perm (h h' : Heap) : perm_equiv h h' -> heap_ok h -> heap_ok h'.
Proof.
  intros [[Hlen Hk] Hp] Hok x Hx. rewrite Hlen in Hx.
  pose proof (Hok x Hx) as [Hnd Hch Hsz Hfile Hpar].
  destruct (Hp x) as [HS HC]. destruct (Hk x) as (HP & HD & _).
  constructor.
  - now rewrite HC.
  - intros c Hc. rewrite HC in Hc. destruct (Hch c Hc) as [Hr HPc].
    rewrite Hlen. split; [exact Hr|]. destruct (Hk c) as (-> & _). exact HPc.
  - rewrite HD, HS. intros Hd. rewrite (Hsz Hd), (total_size_perm _ _ _ HC).
    symmetry. apply total_size_ext. intros c _. apply Hp.
  - rewrite HD. intros Hd. specialize (Hfile Hd). rewrite Hfile in HC.
    symmetry in HC. now apply Permutation_nil in HC.
  - intros q Hq. rewrite HP in Hq. destruct (Hpar q Hq) as [Hlt Hd].
    split; [exact Hlt|]. destruct (Hk q) as (_ & -> & _). exact Hd.
Qed.

Lemma in_tree_perm (h h' : Heap) (d x : ptr) :
  perm_equiv h h' -> in_tree h d x -> in_tree h' d x.
Proof.
  intros [_ Hp]. induction 1 as [|d c x Hc _ IH]; [constructor|].
  apply in_tree_child with c; [|exact IH].
  destruct (Hp d) as [_ HC]. now rewrite HC.
Qed.

Lemma sort_step_post (by_ : string) (d : ptr) (h : Heap) :
  (d < length h)%nat ->
  let h1 := alter (fun n => set_Children
              (sort_Slice (sort_less by_ h) (Children n)) n) d h in
  sort_post by_ h h1 /\ sorted_at by_ h1 d.
Proof.
  intros Hd h1.
  assert (Hd1 : Children (deref h1 d)
                = sort_Slice (sort_less by_ h) (Children (deref h d)))
    by (unfold h1; now rewrite deref_alter_eq).
  assert (Hne : forall x, x <> d -> deref h1 x = deref h x)
    by (intros x Hx; apply deref_alter_ne; congruence).
  assert (Hsz : forall x, Size (deref h1 x) = Size (deref h x)).
  { intros x. destruct (decide (x = d)) as [->|Hx]; [|now rewrite Hne].
    unfold h1. now rewrite deref_alter_eq. }
  assert (Hk : same_kind h h1) by apply same_kind_alter_Children.
  assert (Hsorted : sorted_at by_ h1 d).
  { unfold sorted_at. rewrite Hd1.
    apply Sorted_weaken with (R := ordered (sort_less by_ h)).
    - intros a b. unfold ordered. rewrite (sort_less_ext by_ h h1); auto.
      intros y. apply Hk.
    - apply sort_Slice_sorted. apply sort_less_asym. }
  split; [|exact Hsorted]. split.
  - split; [exact Hk|]. intros x. split; [apply Hsz|].
    destruct (decide (x = d)) as [->|Hx]; [|now rewrite Hne].
    rewrite Hd1. apply sort_Slice_perm.
  - intros x. destruct (decide (x = d)) as [->|Hx]; [now right|].
    left. now rewrite Hne.
Qed.

Lemma sortChildren_spec (by_ : string) (fuel : nat) :
  forall (d : ptr) (h : Heap),
    heap_ok h -> (d < length h)%nat -> (length h - d <= fuel)%nat ->
    exists h',
      sortChildren fuel by_ (Some d) h = Ret h' /\
      sort_post by_ h h' /\
      forall x, in_tree h d x -> sorted_at by_ h' x.
Proof.
  induction fuel as [|fuel IH]; intros d h Hok Hd Hfuel; [lia|].
  rewrite sortChildren_S. cbv zeta.
  destruct (sort_step_post by_ d h Hd) as [Hpost1 Hsorted1].
  set (h1 := alter _ d h) in *.
  pose proof (heap_ok_perm h h1 (proj1 Hpost1) Hok) as Hok1.
  assert (Hlen1 : length h1 = length h) by apply length_alter.
  assert (Hloop : forall cs hc,
            heap_ok hc -> length hc = length h ->
            (forall c, c ∈ cs -> (d < c < length h)%nat) ->
            exists h',
              sort_each (fun c => sortChildren fuel by_ (Some c)) cs hc = Ret h' /\
              sort_post by_ hc h' /\
              forall c x, c ∈ cs -> in_tree hc c x -> sorted_at by_ h' x).
  { induction cs as [|c cs IHcs]; intros hc Hokc Hlenc Hcs.
    - exists hc. split; [reflexivity|]. split; [apply sort_post_refl|].
      intros c x Hc. inversion Hc.
    - destruct (Hcs c ltac:(now left)) as [Hc1 Hc2].
      destruct (IH c hc Hokc ltac:(lia) ltac:(lia)) as (h2 & Hrun & Hp2 & Hs2).
      pose proof (heap_ok_perm hc h2 (proj1 Hp2) Hokc) as Hok2.
      assert (Hlen2 : length h2 = length h)
        by (destruct Hp2 as [[[-> _] _] _]; exact Hlenc).
      destruct (IHcs h2 Hok2 Hlen2) as (h' & Hrun' & Hp' & Hs').
      { intros c' Hc'. apply Hcs. now right. }
      exists h'. cbn [sort_each]. rewrite Hrun. cbn. split; [exact Hrun'|].
      split; [now apply sort_post_trans with h2|].
      intros c' x Hc' Htree. apply elem_of_cons in Hc' as [->|Hc'].
      + apply (sort_post_keeps by_ h2 h'); auto.
      + apply (Hs' c' x Hc'). now apply (in_tree_perm hc h2 c' x (proj1 Hp2)). }
  destruct (Hloop (Children (deref h1 d)) h1 Hok1 Hlen1) as (h' & Hrun & Hp & Hs).
  { intros c Hc. destruct (ok_child _ _ (Hok1 d ltac:(lia)) c Hc). lia. }
  exists h'. split; [exact Hrun|]. split; [now apply sort_post_trans with h1|].
  intros x Htree. inversion Htree as [|c x' Hc Htree']; subst.
  - now apply (sort_post_keeps by_ h1 h').
  - apply (Hs c x).
    + destruct Hpost1 as [[_ Hp1] _]. destruct (Hp1 d) as [_ HC]. now rewrite HC.
    + now apply (in_tree_perm h h1 c x (proj1 Hpost1)).
Qed.

(** ** The invariant holds throughout a session *)

Lemma scan_heap_ok (path : string) (fs : FsNode) :
  heap_ok (heap (snd (scanDirectory path fs))).
Proof.
  unfold scanDirectory, scanDirectory_from.
  pose proof (calc_spec fs path None initial_scan) as Hspec.
  destruct (calculateDirSizeWithProgress fs path None initial_scan)
    as [[root|err] s].
  - destruct Hspec as [_ Hpost]; [intros q Hq; discriminate|].
    assert (Hok : heap_ok (heap s)).
    { intros x Hx. apply (cp_ok _ _ _ _ _ _ Hpost). cbn. lia. }
    cbn [snd]. destruct (currentRoot s); [rewrite try_send_heap|]; exact Hok.
  - destruct Hspec as [_ ->]; [intros q Hq; discriminate|].
    intros x Hx. cbn in Hx. lia.
Qed.

Lemma scan_root (path : string) (fs : FsNode) (r : ptr) :
  sc_root (fst (scanDirectory path fs)) = Some r ->
  let h := heap (snd (scanDirectory path fs)) in
  r = 0%nat /\ (r < length h)%nat /\ Parent (deref h r) = None /\
  covers h fs path r /\ node_for h fs path r.
Proof.
  unfold scanDirectory, scanDirectory_from.
  pose proof (calc_spec fs path None initial_scan) as Hspec.
  destruct (calculateDirSizeWithProgress fs path None initial_scan)
    as [[root|err] s]; cbn [fst snd sc_root]; [|discriminate].
  intros [= ->].
  destruct Hspec as [_ [Hptr Hlen Hframe Hok HP Hnode Hcov]];
    [intros q Hq; discriminate|].
  assert (Hh : heap (match currentRoot s with
                     | Some r0 =>
                         try_send (mkProgress (currentRoot s) (filesScanned s)
                           (dirsScanned s) (Size (deref (heap s) r0))) s
                     | None => s
                     end) = heap s)
    by (destruct (currentRoot s); [apply try_send_heap | reflexivity]).
  cbv zeta. rewrite Hh. cbn in Hptr, Hlen. subst r. auto.
Qed.

Lemma in_tree_ind_r (h : Heap) (r : ptr) (P : ptr -> Prop) :
  P r ->
  (forall q x, in_tree h r q -> P q -> x ∈ Children (deref h q) -> P x) ->
  forall x, in_tree h r x -> P x.
Proof.
  intros Hbase Hstep x Htree. revert Hbase Hstep.
  induction Htree as [|d c x Hc _ IH]; intros Hbase Hstep; [exact Hbase|].
  apply IH.
  - apply (Hstep d c); [constructor | exact Hbase | exact Hc].
  - intros q y Hq HPq Hy. apply (Hstep q y); auto.
    now apply in_tree_child with c.
Qed.

Lemma in_tree_detach (h h' : Heap) (r cd : ptr) :
  heap_ok h -> (r < length h)%nat ->
  (forall x, x <> cd -> Children (deref h' x) = Children (deref h x)) ->
  forall x, in_tree h r x -> (x <= cd)%nat -> in_tree h' r x.
Proof.
  intros Hok Hr Hsame x Htree.
  induction Htree as [|q x Hq IH Hx] using in_tree_ind_r; intros Hle;
    [constructor|].
  destruct (in_tree_valid h r q Hok Hr Hq) as [_ Hqv].
  destruct (ok_child _ _ (Hok q Hqv) x Hx) as [Hrange _].
  apply in_tree_snoc with q; [apply IH; lia|].
  rewrite Hsame by lia. exact Hx.
Qed.

Lemma index_of_elem (x : ptr) (l : list ptr) (k : nat) :
  x ∈ l -> exists i, index_of x l k = Some i /\ (k <= i < k + length l)%nat.
Proof.
  revert k. induction l as [|y l IH]; intros k Hx; [inversion Hx|]. cbn.
  destruct (decide (y = x)) as [->|Hne]; [exists k; split; [reflexivity | lia]|].
  apply elem_of_cons in Hx as [Hx|Hx]; [congruence|].
  destruct (IH (S k) Hx) as (i & Hi & Hr). exists i. split; [exact Hi | lia].
Qed.

Lemma index_slice_ok {A} (l : list A) (i : Z) :
  0 < len l -> 0 <= i <= Z.max 0 (len l - 1) ->
  exists x, index_slice l i = Ret x /\ l !! Z.to_nat i = Some x.
Proof.
  intros Hl Hi. unfold index_slice, len in *.
  replace (0 <=? i) with true by (symmetry; apply Z.leb_le; lia).
  replace (i <? Z.of_nat (length l)) with true by (symmetry; apply Z.ltb_lt; lia).
  cbn. destruct (lookup_lt_is_Some_2 l (Z.to_nat i) ltac:(lia)) as [x Hx].
  exists x. now rewrite Hx.
Qed.

Section Steps.
Context (path : string) (fs : FsNode).

Lemma Inv_start :
  Inv path fs
    (mkWorld (heap (snd (scanDirectory path fs)))
             (progressChan (snd (scanDirectory path fs))))
    initialModel.
Proof.
  constructor; cbn; try discriminate; try lia.
  - apply scan_heap_ok.
  - intros r Hr. destruct (scan_root path fs r Hr) as (_ & Hv & HP & _). auto.
  - auto.
Qed.

Lemma Inv_move_up (w : World) (m : model) :
  Inv path fs w m -> deleting m = false -> Inv path fs w (move_up m).
Proof.
  intros [Hh Hsr Hr Hc Hcur Hdel Hscan] Hnd. unfold move_up.
  destruct (0 <? cursor m) eqn:E; [|constructor; auto].
  apply Z.ltb_lt in E. constructor; cbn; auto; [lia | congruence].
Qed.

Lemma Inv_move_down (w : World) (m : model) :
  Inv path fs w m -> deleting m = false ->
  Inv path fs w (move_down (w_heap w) m).
Proof.
  intros [Hh Hsr Hr Hc Hcur Hdel Hscan] Hnd. unfold move_down.
  destruct (currentDir m) as [cd|] eqn:Ecd; [|constructor; rewrite ?Ecd; auto].
  destruct (cursor m <? len (Children (deref (w_heap w) cd)) - 1) eqn:E;
    [|constructor; rewrite ?Ecd; auto].
  apply Z.ltb_lt in E.
  constructor; cbn; rewrite ?Ecd; auto; [lia | congruence].
Qed.

Lemma Inv_enter (w : World) (m : model) :
  Inv path fs w m -> deleting m = false ->
  exists m', enter (w_heap w) m = Ret m' /\ Inv path fs w m'.
Proof.
  intros Hinv Hnd. pose proof Hinv as [Hh Hsr Hr Hc Hcur Hdel Hscan].
  unfold enter.
  destruct (currentDir m) as [cd|] eqn:Ecd; [|exists m; split; [reflexivity | exact Hinv]].
  destruct (0 <? len (Children (deref (w_heap w) cd))) eqn:E; [|exists m; split; [reflexivity | exact Hinv]].
  apply Z.ltb_lt in E.
  destruct (index_slice_ok _ (cursor m) E Hcur) as (sel & Hsel & Hlook).
  rewrite Hsel. cbn.
  destruct (IsDir (deref (w_heap w) sel)
            && (0 <? len (Children (deref (w_heap w) sel)))) eqn:Eent; [|exists m; split; [reflexivity | exact Hinv]].
  eexists. split; [reflexivity|].
  constructor; cbn; auto; try congruence.
  - intros cd' [= <-]. destruct (Hc cd eq_refl) as (r & Hroot & Htree).
    exists r. split; [exact Hroot|].
    apply in_tree_snoc with cd; [exact Htree|].
    apply list_elem_of_lookup. eauto.
  - lia.
  - intros Hs. destruct (Hscan Hs) as (_ & Hn & _). discriminate.
Qed.

Lemma Inv_exit (w : World) (m : model) :
  Inv path fs w m -> deleting m = false ->
  Inv path fs w (exit (w_heap w) m).
Proof.
  intros Hinv Hnd. pose proof Hinv as [Hh Hsr Hr Hc Hcur Hdel Hscan].
  unfold exit.
  destruct (currentDir m) as [cd|] eqn:Ecd; [|exact Hinv].
  destruct (Parent (deref (w_heap w) cd)) as [q|] eqn:HP; [|exact Hinv].
  destruct (Hc cd eq_refl) as (r & Hroot & Htree).
  destruct (Hr r Hroot) as [Hrv HPr].
  destruct (in_tree_parent _ r cd q Hh Hrv HPr Htree HP) as [Htq Hin].
  destruct (index_of_elem cd _ 0 Hin) as (i & Hi & Hrange).
  rewrite Hi.
  constructor; cbn; auto; try congruence.
  - intros cd' [= <-]. eauto.
  - unfold len. lia.
  - intros Hs. destruct (Hscan Hs) as (_ & Hn & _). discriminate.
Qed.

Lemma Inv_toggleSort (w : World) (m : model) :
  Inv path fs w m -> deleting m = false ->
  exists h' m',
    toggleSort (w_heap w) m = Ret (h', m') /\
    Inv path fs (mkWorld h' (w_chan w)) m' /\
    cursor m' = 0 /\ rootDir m' = rootDir m /\ currentDir m' = currentDir m /\
    sortBy m' = (if String.eqb (sortBy m) "size" then "name" else "size")%string /\
    sort_post (sortBy m') (w_heap w) h' /\
    forall r x, rootDir m = Some r -> in_tree (w_heap w) r x ->
                sorted_at (sortBy m') h' x.
Proof.
  intros Hinv Hnd. pose proof Hinv as [Hh Hsr Hr Hc Hcur Hdel Hscan].
  unfold toggleSort.
  set (m1 := if String.eqb (sortBy m) "size" then set_sortBy "name" m
             else set_sortBy "size" m).
  assert (Hby : sortBy m1 =
           (if String.eqb (sortBy m) "size" then "name" else "size")%string)
    by (unfold m1; destruct (String.eqb (sortBy m) "size"); reflexivity).
  assert (Hf : rootDir m1 = rootDir m /\ currentDir m1 = currentDir m /\
               deleting m1 = deleting m /\ deleteTarget m1 = deleteTarget m /\
               scanning m1 = scanning m)
    by (unfold m1; destruct (String.eqb (sortBy m) "size"); cbn; auto).
  destruct Hf as (Hf1 & Hf2 & Hf3 & Hf4 & Hf5).
  assert (Hres : exists h', sortChildren (length (w_heap w)) (sortBy m1)
                              (rootDir m1) (w_heap w) = Ret h' /\
                   sort_post (sortBy m1) (w_heap w) h' /\
                   forall r x, rootDir m = Some r -> in_tree (w_heap w) r x ->
                               sorted_at (sortBy m1) h' x).
  { rewrite Hf1. destruct (rootDir m) as [r|] eqn:Eroot.
    - destruct (Hr r eq_refl) as [Hrv _].
      destruct (sortChildren_spec (sortBy m1) (length (w_heap w)) r (w_heap w)
                  Hh Hrv ltac:(lia)) as (h' & Hrun & Hpost & Hsorted).
      exists h'. split; [exact Hrun|]. split; [exact Hpost|].
      intros r' x [= <-]. apply Hsorted.
    - exists (w_heap w). split; [destruct (length (w_heap w)); reflexivity|].
      split; [apply sort_post_refl | discriminate]. }
  destruct Hres as (h' & Hrun & Hpost & Hsorted).
  exists h', (set_cursor 0 m1). rewrite Hrun. cbn.
  split; [reflexivity|]. split; [|rewrite Hf1, Hf2; auto].
  pose proof (proj1 Hpost) as Hperm. destruct Hperm as [[Hlen Hk] Hp].
  constructor; cbn; rewrite ?Hf1, ?Hf2, ?Hf3, ?Hf4, ?Hf5, ?Hlen; auto.
  - apply (heap_ok_perm (w_heap w)); [apply Hpost | exact Hh].
  - intros r Hroot. destruct (Hk r) as (-> & _). auto.
  - intros r Hroot. destruct (Hk r) as (-> & _). auto.
  - intros cd Hcd. destruct (Hc cd Hcd) as (r & Hroot & Htree).
    exists r. split; [exact Hroot|].
    apply (in_tree_perm (w_heap w)); [apply Hpost | exact Htree].
  - lia.
  - congruence.
  - exact (conj eq_refl (conj eq_refl (conj eq_refl
             (conj Hby (conj Hpost Hsorted))))).
Qed.

Lemma Inv_goToRoot (w : World) (m : model) :
  Inv path fs w m -> deleting m = false -> Inv path fs w (goToRoot m).
Proof.
  intros [Hh Hsr Hr Hc Hcur Hdel Hscan] Hnd.
  constructor; cbn; auto; try congruence.
  - intros cd Hcd. exists cd. split; [exact Hcd | constructor].
  - lia.
  - intros Hs. destruct (Hscan Hs) as (? & ? & ?). auto.
Qed.

Lemma Inv_startDelete (w : World) (m : model) :
  Inv path fs w m -> deleting m = false -> scanning m = false ->
  exists m' c, startDelete (w_heap w) m = Ret (m', c) /\ Inv path fs w m'.
Proof.
  intros Hinv Hnd Hns. pose proof Hinv as [Hh Hsr Hr Hc Hcur Hdel Hscan].
  unfold startDelete.
  destruct (currentDir m) as [cd|] eqn:Ecd; [|exists m, CmdNil; split; [reflexivity | exact Hinv]].
  destruct (0 <? len (Children (deref (w_heap w) cd))) eqn:E; [|exists m, CmdNil; split; [reflexivity | exact Hinv]].
  apply Z.ltb_lt in E.
  destruct (index_slice_ok _ (cursor m) E Hcur) as (t & Ht & Hlook).
  rewrite Ht. cbn. do 2 eexists. split; [reflexivity|].
  constructor; cbn; rewrite ?Ecd; auto; [eauto | congruence].
Qed.
End Steps.

Section DeleteStep.
Context (path : string) (fs : FsNode).

(** The completion of a successful deletion, with all that it does. *)
Lemma Inv_detach (w : World) (m : model) (t : ptr) (status : string) :
  Inv path fs w m -> deleting m = true -> deleteTarget m = Some t ->
  exists cd h' l1 l2 m',
    currentDir m = Some cd /\
    Parent (deref (w_heap w) t) = Some cd /\
    detach t (w_heap w) (set_deleteDone status m) = Ret (h', m') /\
    Inv path fs (mkWorld h' (w_chan w)) m' /\
    currentDir m' = Some cd /\ deleting m' = false /\
    cursor m' = (if (len (l1 ++ l2) <=? cursor m) && (0 <? cursor m)
                 then cursor m - 1 else cursor m) /\
    Children (deref (w_heap w) cd) = l1 ++ t :: l2 /\
    (t ∉ l1 ++ l2) /\
    Children (deref h' cd) = l1 ++ l2 /\
    (forall x, x <> cd -> Children (deref h' x) = Children (deref (w_heap w) x)) /\
    same_kind (w_heap w) h' /\
    (forall x, ancestor_or_self (w_heap w) x cd ->
       Size (deref h' x)
       = wrap64 (Size (deref (w_heap w) x) - Size (deref (w_heap w) t))) /\
    (forall x, ~ ancestor_or_self (w_heap w) x cd ->
       Size (deref h' x) = Size (deref (w_heap w) x)).
Proof.
  intros [Hh Hsr Hr Hc Hcur Hdel Hscan] Hd Ht.
  destruct (Hdel Hd) as (cd & t' & Hcd & Ht' & Hlook).
  assert (t' = t) as -> by congruence.
  destruct (Hc cd Hcd) as (r & Hroot & Htree).
  destruct (Hr r Hroot) as [Hrv HPr].
  assert (Hin : t ∈ Children (deref (w_heap w) cd))
    by (apply list_elem_of_lookup; eauto).
  destruct (in_tree_valid _ r cd Hh Hrv Htree) as [_ Hcdv].
  destruct (ok_child _ _ (Hh cd Hcdv) t Hin) as [_ HPt].
  destruct (detach_spec (w_heap w) r cd t Hh Hrv HPr Htree Hin
              (set_deleteDone status m) Hcd)
    as (h' & l1 & l2 & Hrun & Hsplit & Hnot & Hcd' & Hoth & Hk & Hanc & Hrest & Hok').
  cbn [cursor set_deleteDone] in Hrun.
  eexists cd, h', l1, l2, _. split; [exact Hcd|]. split; [exact HPt|].
  split; [exact Hrun|].
  assert (Hfields : forall m1,
            m1 = (if (len (l1 ++ l2) <=? cursor m) && (0 <? cursor m)
                  then set_cursor (cursor m - 1) (set_deleteDone status m)
                  else set_deleteDone status m) ->
            rootDir m1 = rootDir m /\ currentDir m1 = currentDir m /\
            deleting m1 = false /\ scanning m1 = scanning m /\
            cursor m1 = (if (len (l1 ++ l2) <=? cursor m) && (0 <? cursor m)
                         then cursor m - 1 else cursor m)).
  { intros m1 ->. destruct (_ && _); cbn; auto. }
  destruct (Hfields _ eq_refl) as (Hf1 & Hf2 & Hf3 & Hf4 & Hf5).
  rewrite Hcd in Hcur. rewrite Hsplit in Hcur.
  assert (Hlen : len (l1 ++ t :: l2) = len (l1 ++ l2) + 1)
    by (unfold len; rewrite !length_app; cbn; lia).
  split; [|rewrite Hf2, Hf3, Hf5;
           exact (conj Hcd (conj eq_refl (conj eq_refl (conj Hsplit
                    (conj Hnot (conj Hcd' (conj Hoth (conj Hk
                      (conj Hanc Hrest)))))))))].
  destruct Hk as [Hl Hkf].
  constructor; cbn [w_heap]; rewrite ?Hf1, ?Hf2, ?Hf3, ?Hf4, ?Hf5, ?Hcd, ?Hl; auto.
  - intros r' Hr'. destruct (Hkf r') as (-> & _). auto.
  - intros r' Hr'. destruct (Hkf r') as (-> & _). auto.
  - intros cd' [= <-]. exists r. split; [exact Hroot|].
    apply (in_tree_detach (w_heap w) h' r cd Hh Hrv Hoth cd Htree). lia.
  - rewrite Hcd'. destruct (len (l1 ++ l2) <=? cursor m) eqn:E1;
      destruct (0 <? cursor m) eqn:E2; cbn;
      rewrite ?Z.leb_le, ?Z.leb_gt, ?Z.ltb_lt, ?Z.ltb_ge in *; lia.
  - discriminate.
  - intros Hs. destruct (Hscan Hs) as (_ & Hn & _). congruence.
Qed.

(** Every deliverable message is handled without a panic, and the
    invariant holds afterwards. *)
Lemma Inv_step (w : World) (m : model) (msg : Msg) :
  Inv path fs w m -> deliverable path fs m msg ->
  exists w' m' c, Update w m msg = Ret (w', m', c) /\ Inv path fs w' m'.
Proof.
  intros Hinv Hmsg. pose proof Hinv as [Hh Hsr Hr Hc Hcur Hdel Hscan].
  destruct msg as [wd ht|sc| | |t err name|key]; cbn [Update].
  - do 3 eexists. split; [reflexivity|]. exact Hinv.
  - destruct Hmsg as [Hs ->]. do 3 eexists. split; [reflexivity|].
    destruct (Hscan Hs) as (Hroot & Hcd & Hnd).
    rewrite Hcd in Hcur. change (len (@nil nat)) with 0 in Hcur.
    constructor; cbn; auto; try congruence.
    + intros cd Hcd'. exists cd. split; [exact Hcd' | constructor].
    + assert (cursor m = 0) as -> by lia. lia.
  - destruct (scanning m); [destruct (w_chan w)|];
      do 3 eexists; (split; [reflexivity|]); exact Hinv.
  - destruct (deleting m); do 3 eexists; (split; [reflexivity|]); exact Hinv.
  - destruct Hmsg as [Hd Ht]. destruct err as [e|].
    + do 3 eexists. split; [reflexivity|].
      constructor; cbn; auto; try discriminate.
      intros Hs. destruct (Hscan Hs) as (? & ? & ?). congruence.
    + destruct (Inv_detach w m t ("Deleted: " ++ name)%string Hinv Hd Ht)
        as (cd & h' & l1 & l2 & m' & _ & _ & Hrun & Hinv' & _).
      rewrite Hrun. cbn. do 3 eexists. split; [reflexivity | exact Hinv'].
  - destruct (scanning m || deleting m) eqn:Ebusy.
    { destruct (key_in key _); do 3 eexists; (split; [reflexivity|]); exact Hinv. }
    apply orb_false_elim in Ebusy as [Hns Hnd].
    destruct (key_in key ["ctrl+c"; "q"]%string);
      [do 3 eexists; split; [reflexivity | exact Hinv]|].
    destruct (key_in key ["up"; "k"]%string);
      [do 3 eexists; split; [reflexivity | now apply Inv_move_up]|].
    destruct (key_in key ["down"; "j"]%string);
      [do 3 eexists; split; [reflexivity | now apply Inv_move_down]|].
    destruct (key_in key ["enter"; "right"; "l"]%string).
    { destruct (Inv_enter path fs w m Hinv Hnd) as (m' & Hrun & Hinv').
      rewrite Hrun. cbn. do 3 eexists. split; [reflexivity | exact Hinv']. }
    destruct (key_in key ["left"; "h"; "backspace"]%string);
      [do 3 eexists; split; [reflexivity | now apply Inv_exit]|].
    destruct (String.eqb key "s").
    { destruct (Inv_toggleSort path fs w m Hinv Hnd)
        as (h' & m' & Hrun & Hinv' & _).
      rewrite Hrun. cbn. do 3 eexists. split; [reflexivity | exact Hinv']. }
    destruct (String.eqb key "home");
      [do 3 eexists; split; [reflexivity | now apply Inv_goToRoot]|].
    destruct (String.eqb key "d").
    { destruct (Inv_startDelete path fs w m Hinv Hnd Hns)
        as (m' & c & Hrun & Hinv').
      rewrite Hrun. cbn. do 3 eexists. split; [reflexivity | exact Hinv']. }
    do 3 eexists. split; [reflexivity | exact Hinv].
Qed.

Lemma reach_Inv (w : World) (m : model) :
  reach path fs w m -> Inv path fs w m.
Proof.
  induction 1 as [|w m msg w' m' c _ IH Hmsg Hrun]; [apply Inv_start|].
  destruct (Inv_step w m msg IH Hmsg) as (w1 & m1 & c1 & Hrun1 & Hinv1).
  rewrite Hrun in Hrun1. now inversion Hrun1; subst.
Qed.
End DeleteStep.

(** ** Sessions that run are sessions *)

Lemma msg_of_event_deliverable (path : string) (fs : FsNode) (m : model)
    (ev : event) (msg : Msg) :
  msg_of_event path fs m ev = Some msg -> deliverable path fs m msg.
Proof.
  destruct ev as [wd ht| | | |err|key]; cbn; try (intros [= <-]; exact I).
  - destruct (scanning m) eqn:E; [|discriminate]. intros [= <-]. cbn. auto.
  - destruct (deleting m) eqn:E; [|discriminate].
    destruct (deleteTarget m) as [t|] eqn:Et; [|discriminate].
    intros [= <-]. cbn. auto.
Qed.

Lemma run_events_reach (path : string) (fs : FsNode) (evs : list event) :
  forall w m w' m',
    reach path fs w m -> run_events path fs evs w m = Some (w', m') ->
    reach path fs w' m'.
Proof.
  induction evs as [|ev evs IH]; intros w m w' m' Hreach; cbn.
  - now intros [= <- <-].
  - destruct (msg_of_event path fs m ev) as [msg|] eqn:Hmsg; [|discriminate].
    destruct (Update w m msg) as [[[w1 m1] c]| |] eqn:Hrun; try discriminate.
    apply IH. apply (reach_step path fs w m msg w1 m1 c); auto.
    now apply (msg_of_event_deliverable path fs m ev).
Qed.

Lemma session_reach (path : string) (fs : FsNode) (evs : list event)
    (w : World) (m : model) :
  session path fs evs = Some (w, m) -> reach path fs w m.
Proof. apply run_events_reach. constructor. Qed.

(** ** The properties of the specification *)

(** C1.  In every state of a session, that is after the scan has completed
    and after any sequence of messages, completed deletions among them,
    every directory node of the store weighs the sum of the sizes of its
    current children, the sum being taken as the program takes it, in
    [int64]; it is the sum over the integers whenever that sum is an
    [int64]. *)
Theorem dir_size_is_sum (path : string) (fs : FsNode) (w : World) (m : model)
    (d : ptr) :
  reach path fs w m ->
  (d < length (w_heap w))%nat ->
  IsDir (deref (w_heap w) d) = true ->
  Size (deref (w_heap w) d)
  = total_size (w_heap w) (Children (deref (w_heap w) d)) /\
  (in_int64 (zsum (sizes (w_heap w) (Children (deref (w_heap w) d)))) ->
   Size (deref (w_heap w) d)
   = zsum (sizes (w_heap w) (Children (deref (w_heap w) d)))).
Proof.
  intros Hreach Hd Hdir.
  pose proof (ok_size _ _ (inv_heap _ _ _ _ _ _ _ _ _
                (reach_Inv path fs w m Hreach) d Hd) Hdir) as Hsum.
  split; [exact Hsum|]. intros Hrange.
  now rewrite Hsum, total_size_eq, wrap64_small.
Qed.

Lemma dir_size_is_sum_witness :
  exists w m,
    session "." example_fs
      [EvScanComplete; EvKey "d"; EvDeleteComplete None] = Some (w, m) /\
    Children (deref (w_heap w) 0%nat) = [1%nat] /\
    Size (deref (w_heap w) 0%nat) = 500 /\
    Size (deref (w_heap w) 0%nat)
    = zsum (sizes (w_heap w) (Children (deref (w_heap w) 0%nat))).
Proof.
  eexists _, _. split; [vm_compute; reflexivity|].
  split; [reflexivity|]. split; [reflexivity|].
  eapply (dir_size_is_sum "." example_fs); [| | |vm_compute; split; discriminate].
  - apply (session_reach "." example_fs
             [EvScanComplete; EvKey "d"; EvDeleteComplete None]).
    vm_compute. reflexivity.
  - cbn. lia.
  - reflexivity.
Defined.

(** C2.  The scan reports an error, and no root, exactly when the stat of
    the scan root fails; on every other view of the file system, whatever
    fails below the root, it reports a root node of the store and no error. *)
Theorem scan_fatal_iff (path : string) (fs : FsNode) :
  (forall err,
     fst (scanDirectory path fs) = mkScanComplete None (Some err)
     <-> fs = StatFails err) /\
  (stat_ok fs = true ->
     exists root,
       fst (scanDirectory path fs) = mkScanComplete (Some root) None /\
       (root < length (heap (snd (scanDirectory path fs))))%nat).
Proof.
  pose proof (scan_root path fs) as Hroot.
  unfold scanDirectory, scanDirectory_from in *.
  pose proof (calc_spec fs path None initial_scan) as Hspec.
  destruct (calculateDirSizeWithProgress fs path None initial_scan)
    as [[root|err'] s]; cbn [fst snd] in *.
  - destruct Hspec as [Hstat _]; [intros q Hq; discriminate|]. split.
    + intros err. split; [discriminate|]. intros ->. discriminate.
    + intros _. exists root. split; [reflexivity|].
      destruct (Hroot root eq_refl) as (_ & Hv & _). exact Hv.
  - destruct Hspec as [-> ->]; [intros q Hq; discriminate|]. split.
    + intros err. split; [now intros [= ->] | now intros [= ->]].
    + discriminate.
Qed.

Lemma scan_fatal_iff_witness :
  exists root,
    fst (scanDirectory "." partial_fs) = mkScanComplete (Some root) None /\
    (root < length (heap (snd (scanDirectory "." partial_fs))))%nat.
Proof.
  apply (proj2 (scan_fatal_iff "." partial_fs)). reflexivity.
Defined.

Lemma in_tree_anc (h : Heap) (r x : ptr) :
  heap_ok h -> (r < length h)%nat -> in_tree h r x -> ancestor_or_self h r x.
Proof.
  intros Hok Hr Htree.
  induction Htree as [|q x Hq IH Hx] using in_tree_ind_r; [constructor|].
  destruct (in_tree_valid h r q Hok Hr Hq) as [_ Hqv].
  destruct (ok_child _ _ (Hok q Hqv) x Hx) as [_ HP].
  now apply anc_up with q.
Qed.

(** C3.  While a deletion of the node [t] is under way, [t] is a child of
    the current directory [cd].  When the deletion succeeds, [Update] takes
    [t], which stood once among the children of [cd], out of them and leaves
    the children of every other node alone; the cursor ends between 0 and
    the new number of children; and [cd] and every node on its parent chain,
    the root among them, weigh what they weighed minus the size of [t] (in
    [int64], and over the integers when the difference is an [int64]), the
    other nodes what they weighed.  When the deletion fails,
    the store is left as it is, and so are the current directory and the
    cursor; in both cases the deletion is over and the session goes on. *)
Theorem delete_contract (path : string) (fs : FsNode) (w : World) (m : model)
    (t : ptr) :
  reach path fs w m -> deleting m = true -> deleteTarget m = Some t ->
  exists cd r,
    currentDir m = Some cd /\ rootDir m = Some r /\
    Parent (deref (w_heap w) t) = Some cd /\
    ancestor_or_self (w_heap w) r cd /\
    (forall name, exists h' m' l1 l2,
       Update w m (DeleteCompleteMsg t None name)
         = Ret (mkWorld h' (w_chan w), m', CmdNil) /\
       Children (deref (w_heap w) cd) = l1 ++ t :: l2 /\
       (t ∉ l1 ++ l2) /\
       Children (deref h' cd) = l1 ++ l2 /\
       (forall x, x <> cd ->
          Children (deref h' x) = Children (deref (w_heap w) x)) /\
       0 <= cursor m' <= len (Children (deref h' cd)) /\
       cursor m' = (if (len (l1 ++ l2) <=? cursor m) && (0 <? cursor m)
                    then cursor m - 1 else cursor m) /\
       (forall x, ancestor_or_self (w_heap w) x cd ->
          Size (deref h' x)
          = wrap64 (Size (deref (w_heap w) x) - Size (deref (w_heap w) t)) /\
          (in_int64 (Size (deref (w_heap w) x) - Size (deref (w_heap w) t)) ->
           Size (deref h' x)
           = Size (deref (w_heap w) x) - Size (deref (w_heap w) t))) /\
       (forall x, ~ ancestor_or_self (w_heap w) x cd ->
          Size (deref h' x) = Size (deref (w_heap w) x)) /\
       currentDir m' = Some cd /\ deleting m' = false /\
       reach path fs (mkWorld h' (w_chan w)) m') /\
    (forall err name, exists m',
       Update w m (DeleteCompleteMsg t (Some err) name) = Ret (w, m', CmdNil) /\
       currentDir m' = currentDir m /\ cursor m' = cursor m /\
       rootDir m' = rootDir m /\ deleting m' = false /\
       reach path fs w m').
Proof.
  intros Hreach Hd Ht. pose proof (reach_Inv path fs w m Hreach) as Hinv.
  destruct (Inv_detach path fs w m t "" Hinv Hd Ht)
    as (cd & _ & _ & _ & _ & Hcd & HPt & _).
  pose proof Hinv as [Hh _ Hr Hc _ _ _].
  destruct (Hc cd Hcd) as (r & Hroot & Htree).
  destruct (Hr r Hroot) as [Hrv _].
  exists cd, r. split; [exact Hcd|]. split; [exact Hroot|]. split; [exact HPt|].
  split; [now apply in_tree_anc|]. split.
  - intros name.
    destruct (Inv_detach path fs w m t ("Deleted: " ++ name)%string Hinv Hd Ht)
      as (cd' & h' & l1 & l2 & m' & Hcd' & _ & Hrun & Hinv' & Hcur' & Hdel'
          & Hcursor & Hsplit & Hnot & Hch' & Hoth & _ & Hanc & Hrest).
    assert (cd' = cd) as -> by congruence.
    exists h', m', l1, l2. cbn [Update]. rewrite Hrun. cbn.
    split; [reflexivity|]. split; [exact Hsplit|]. split; [exact Hnot|].
    split; [exact Hch'|]. split; [exact Hoth|]. split.
    { pose proof (inv_cursor _ _ _ _ _ _ _ _ _ Hinv') as Hb.
      cbn [w_heap] in Hb. rewrite Hcur' in Hb. unfold len in *. lia. }
    split; [exact Hcursor|]. split.
    { intros x Hx. split; [now apply Hanc|]. intros Hrange.
      now rewrite (Hanc x Hx), wrap64_small. }
    split; [exact Hrest|].
    split; [exact Hcur'|]. split; [exact Hdel'|].
    apply (reach_step path fs w m (DeleteCompleteMsg t None name) _ _ CmdNil Hreach).
    + cbn. auto.
    + cbn [Update]. rewrite Hrun. reflexivity.
  - intros err name. eexists. cbn [Update].
    split; [reflexivity|]. cbn. repeat split; auto.
    eapply (reach_step path fs w m (DeleteCompleteMsg t (Some err) name) _ _ CmdNil Hreach).
    + cbn. auto.
    + reflexivity.
Qed.

Lemma delete_contract_witness :
  exists w m,
    session "." example_fs [EvScanComplete; EvKey "d"] = Some (w, m) /\
    deleteTarget m = Some 2%nat /\
    exists h' m',
      Update w m (DeleteCompleteMsg 2%nat None "sub")
        = Ret (mkWorld h' (w_chan w), m', CmdNil) /\
      Children (deref h' 0%nat) = [1%nat] /\
      Size (deref h' 0%nat) = wrap64 (2000 - 1500).
Proof.
  eexists _, _. split; [vm_compute; reflexivity|]. split; [reflexivity|].
  edestruct (delete_contract "." example_fs) as (cd & r & Hcd & _ & _ & _ & Hok & _).
  - apply (session_reach "." example_fs [EvScanComplete; EvKey "d"]).
    vm_compute. reflexivity.
  - reflexivity.
  - reflexivity.
  - destruct (Hok "sub"%string) as (h' & m' & l1 & l2 & Hrun & _).
    exists h', m'. split; [exact Hrun|].
    vm_compute in Hrun. inversion Hrun; subst. split; reflexivity.
Defined.

(** C4.  After the scan of [fs] at [path], every directory of [fs] whose
    listing failed has a node in the tree below the root, a directory
    node that records the error, has no children and weighs 0; and every
    directory of [fs] that could be listed has a node in the tree whose
    children are the nodes of exactly those entries whose stat succeeded:
    an entry whose stat fails is left out and nothing else is. *)
Theorem scan_partial_result (path : string) (fs : FsNode) (root : ptr) :
  sc_root (fst (scanDirectory path fs)) = Some root ->
  let h := heap (snd (scanDirectory path fs)) in
  (forall err subpath,
     fs_at fs path (UnlistableDir err) subpath ->
     exists x, in_tree h root x /\ Path (deref h x) = subpath /\
               IsDir (deref h x) = true /\ Error (deref h x) = Some err /\
               Children (deref h x) = [] /\ Size (deref h x) = 0) /\
  (forall entries subpath,
     fs_at fs path (Directory entries) subpath ->
     exists x, in_tree h root x /\ Path (deref h x) = subpath /\
               IsDir (deref h x) = true /\ Error (deref h x) = None /\
               map (fun c => Path (deref h c)) (Children (deref h x))
                 ≡ₚ scanned_paths subpath entries).
Proof.
  intros Hroot h. destruct (scan_root path fs root Hroot) as (_ & _ & _ & Hcov & _).
  fold h in Hcov. split.
  - intros err subpath Hat.
    destruct (Hcov _ _ Hat eq_refl) as (x & Htree & Hpath & Hd & He & Hc & Hs).
    exists x. exact (conj Htree (conj Hpath (conj Hd (conj He (conj Hc Hs))))).
  - intros entries subpath Hat.
    destruct (Hcov _ _ Hat eq_refl) as (x & Htree & Hpath & Hd & He & Hp).
    exists x. exact (conj Htree (conj Hpath (conj Hd (conj He Hp)))).
Qed.

Lemma scan_partial_result_witness :
  let h := heap (snd (scanDirectory "./root" partial_fs)) in
  (exists x, in_tree h 0%nat x /\ Path (deref h x) = "root/locked"%string /\
             IsDir (deref h x) = true /\
             Error (deref h x) = Some "permission denied"%string /\
             Children (deref h x) = [] /\ Size (deref h x) = 0) /\
  (exists x, in_tree h 0%nat x /\ Path (deref h x) = "./root"%string /\
             IsDir (deref h x) = true /\ Error (deref h x) = None /\
             map (fun c => Path (deref h c)) (Children (deref h x))
               ≡ₚ ["root/a.txt"; "root/locked"; "root/sub"]%string).
Proof.
  destruct (scan_partial_result "./root" partial_fs 0%nat eq_refl) as [Hu Hd].
  split.
  - apply (Hu "permission denied"%string "root/locked"%string).
    apply fs_at_entry with "locked"%string (UnlistableDir "permission denied").
    + unfold partial_fs. do 2 right. left.
    + apply fs_at_here.
  - change ["root/a.txt"; "root/locked"; "root/sub"]%string
      with (scanned_paths "./root"
              [("a.txt", RegularFile 500);
               ("gone", StatFails "no such file");
               ("locked", UnlistableDir "permission denied");
               ("sub", Directory [("b.txt", RegularFile 1500)])]%string).
    apply (Hd _ "./root"%string). apply fs_at_here.
Defined.

(** C5 fails on the code: the snapshots that the scan publishes while it
    walks the root show the children of the root in the order of the
    listing, which is sorted only once the walk is over.  On a root that
    lists a file of 1 byte before a file of 2 bytes, the second snapshot
    shows the smaller file first, and so does the preview drawn from it. *)
Theorem progress_snapshot_unsorted :
  let fs := Directory [("a", RegularFile 1); ("b", RegularFile 2)]%string in
  let s := snd (scanDirectory "." fs) in
  exists msg h,
    published s !! 1%nat = Some (msg, h) /\
    pm_root msg = Some 0%nat /\
    sizes h (Children (deref h 0%nat)) = [1; 2] /\
    ~ desc_by_size h (Children (deref h 0%nat)) /\
    progress_preview h (set_progress msg initialModel)
      = [("1 B", "a"); ("2 B", "b")]%string.
Proof.
  cbv zeta. eexists _, _. split; [vm_compute; reflexivity|].
  split; [reflexivity|]. split; [reflexivity|]. split; [|reflexivity].
  intros Hdesc. specialize (Hdesc 0%nat 1%nat 1%nat 2%nat).
  cbn in Hdesc. specialize (Hdesc ltac:(lia) eq_refl eq_refl). lia.
Qed.

(** X18.  The exit finds the directory that it leaves: in every state of
    a session, outside of a scan and of a deletion, the current directory,
    when it has a parent, stands among the children of that parent, and the
    exit makes the parent the current directory with the cursor on that
    place.  The loop of the exit never runs to its end without a match. *)
Theorem exit_finds_current (path : string) (fs : FsNode) (w : World) (m : model)
    (cd parent : ptr) :
  reach path fs w m -> scanning m = false -> deleting m = false ->
  currentDir m = Some cd ->
  Parent (deref (w_heap w) cd) = Some parent ->
  exists i,
    Children (deref (w_heap w) parent) !! i = Some cd /\
    Update w m (KeyMsg "left")
      = Ret (w, set_currentDir (Some parent) (set_cursor (Z.of_nat i) m), CmdNil).
Proof.
  intros Hreach Hs Hd Hcd HP.
  pose proof (reach_Inv path fs w m Hreach) as [Hh _ Hr Hc _ _ _].
  destruct (Hc cd Hcd) as (r & Hroot & Htree).
  destruct (Hr r Hroot) as [Hrv HrP].
  destruct (in_tree_parent _ r cd parent Hh Hrv HrP Htree HP) as [_ Hin].
  destruct (index_of_elem cd _ 0 Hin) as (i & Hi & _).
  destruct (index_of_Some _ _ _ _ Hi) as (l1 & l2 & Hl & -> & _).
  exists (0 + length l1)%nat. split.
  - rewrite Hl. cbn. rewrite lookup_app_r by lia.
    now rewrite Nat.sub_diag.
  - cbn [Update]. rewrite Hs, Hd. cbn. unfold exit. now rewrite Hcd, HP, Hi.
Qed.

Lemma exit_finds_current_witness :
  exists w m,
    session "." example_fs [EvScanComplete; EvKey "enter"; EvKey "s"]
      = Some (w, m) /\
    currentDir m = Some 2%nat /\ cursor m = 0 /\
    Children (deref (w_heap w) 0%nat) = [1%nat; 2%nat] /\
    Update w m (KeyMsg "left")
      = Ret (w, set_currentDir (Some 0%nat) (set_cursor 1 m), CmdNil).
Proof.
  eexists _, _.
  assert (Hsess : session "." example_fs
                    [EvScanComplete; EvKey "enter"; EvKey "s"]
                  = Some (fst (default (mkWorld [] [], initialModel)
                            (session "." example_fs
                               [EvScanComplete; EvKey "enter"; EvKey "s"])),
                          snd (default (mkWorld [] [], initialModel)
                            (session "." example_fs
                               [EvScanComplete; EvKey "enter"; EvKey "s"]))))
    by (vm_compute; reflexivity).
  split; [exact Hsess|]. split; [vm_compute; reflexivity|].
  split; [vm_compute; reflexivity|]. split; [vm_compute; reflexivity|].
  destruct (exit_finds_current "." example_fs _ _ 2%nat 0%nat
              (session_reach _ _ _ _ _ Hsess) eq_refl eq_refl eq_refl eq_refl)
    as (i & Hi & Hupd).
  vm_compute in Hi.
  destruct i as [|[|i]]; [discriminate Hi | exact Hupd | discriminate Hi].
Defined.

(** What the exit does where its loop finds no match, which no state of a
    session is: the parent becomes the current node and the cursor stays
    where it was. *)
Lemma exit_detached (w : World) (m : model) (cd parent : ptr) :
  scanning m = false -> deleting m = false ->
  currentDir m = Some cd ->
  Parent (deref (w_heap w) cd) = Some parent ->
  cd ∉ Children (deref (w_heap w) parent) ->
  exists m',
    Update w m (KeyMsg "left") = Ret (w, m', CmdNil) /\
    currentDir m' = Some parent /\ cursor m' = cursor m.
Proof.
  intros Hs Hd Hcd HP Hnot. exists (exit (w_heap w) m). split.
  - cbn. now rewrite Hs, Hd.
  - unfold exit. rewrite Hcd, HP, (index_of_None _ _ 0 Hnot). cbn. auto.
Qed.

Lemma sorted_desc (h : Heap) (cs : list ptr) :
  Sorted (ordered (sort_less "size" h)) cs -> desc_by_size h cs.
Proof.
  intros Hs. apply Sorted_StronglySorted in Hs.
  - induction Hs as [|x l _ IH Hall]; intros i j ci cj Hij Hi Hj;
      [discriminate|].
    destruct j as [|j]; [lia|]. cbn in Hj.
    destruct i as [|i]; cbn in Hi.
    + inversion Hi; subst.
      rewrite Forall_forall in Hall.
      assert (Hin : cj ∈ l) by (apply list_elem_of_lookup; eauto).
      specialize (Hall cj Hin). unfold ordered, sort_less, size_less in Hall.
      cbn in Hall. apply Z.ltb_ge in Hall. exact Hall.
    + apply (IH i j ci cj); auto. lia.
  - intros a b c. unfold ordered, sort_less, size_less. cbn.
    rewrite !Z.ltb_ge. lia.
Qed.

Lemma Update_key_s (w : World) (m : model) :
  scanning m = false -> deleting m = false ->
  Update w m (KeyMsg "s") =
    '(h, m') ← toggleSort (w_heap w) m; Ret (mkWorld h (w_chan w), m', CmdNil).
Proof. intros Hs Hd. cbn. now rewrite Hs, Hd. Qed.

(** C7.  Outside of a scan and of a deletion, with the order by size in
    force, the [s] key pressed twice brings the order by size back: both
    presses return, each puts the cursor on 0 and goes through every node
    of the tree, the first putting its children in the order by name (by
    [name_less], which is the order of the program where the paths of the
    store are ASCII) and the second in the order by descending size, and
    after each press the store is the one before up to the order of the
    children of each node. *)
Theorem toggleSort_twice (path : string) (fs : FsNode) (w : World) (m : model) :
  reach path fs w m -> scanning m = false -> deleting m = false ->
  sortBy m = "size"%string ->
  exists w1 m1 w2 m2,
    Update w m (KeyMsg "s") = Ret (w1, m1, CmdNil) /\
    Update w1 m1 (KeyMsg "s") = Ret (w2, m2, CmdNil) /\
    sortBy m1 = "name"%string /\ cursor m1 = 0 /\
    sortBy m2 = "size"%string /\ cursor m2 = 0 /\
    perm_equiv (w_heap w) (w_heap w1) /\
    perm_equiv (w_heap w) (w_heap w2) /\
    forall r x, rootDir m = Some r -> in_tree (w_heap w) r x ->
      (ascii_paths (w_heap w) = true ->
       Sorted (ordered (name_less (w_heap w1)))
         (Children (deref (w_heap w1) x))) /\
      desc_by_size (w_heap w2) (Children (deref (w_heap w2) x)).
Proof.
  intros Hreach Hs Hd Hby. pose proof (reach_Inv path fs w m Hreach) as Hinv.
  destruct (Inv_toggleSort path fs w m Hinv Hd)
    as (h1 & m1 & Hrun1 & Hinv1 & Hc1 & Hr1 & Hcd1 & Hby1 & Hpost1 & Hsorted1).
  rewrite Hby in Hby1. cbn in Hby1.
  assert (Hmode1 : scanning m1 = false /\ deleting m1 = false).
  { unfold toggleSort in Hrun1. rewrite Hby in Hrun1. cbn in Hrun1.
    destruct (sortChildren _ _ _ _); inversion Hrun1; subst; cbn; auto. }
  destruct Hmode1 as [Hs1 Hd1].
  destruct (Inv_toggleSort path fs (mkWorld h1 (w_chan w)) m1 Hinv1 Hd1)
    as (h2 & m2 & Hrun2 & Hinv2 & Hc2 & Hr2 & Hcd2 & Hby2 & Hpost2 & Hsorted2).
  rewrite Hby1 in Hby2. cbn in Hby2. cbn [w_heap w_chan] in *.
  exists (mkWorld h1 (w_chan w)), m1, (mkWorld h2 (w_chan w)), m2.
  split; [rewrite (Update_key_s w m Hs Hd), Hrun1; reflexivity|].
  split; [rewrite (Update_key_s _ m1 Hs1 Hd1); cbn [w_heap w_chan];
          rewrite Hrun2; reflexivity|].
  split; [exact Hby1|]. split; [exact Hc1|]. split; [exact Hby2|].
  split; [exact Hc2|].
  split; [apply Hpost1|].
  split; [apply perm_equiv_trans with h1; [apply Hpost1 | apply Hpost2]|].
  intros r x Hroot Htree. cbn [w_heap]. split.
  - intros _. specialize (Hsorted1 r x Hroot Htree). rewrite Hby1 in Hsorted1.
    exact Hsorted1.
  - apply sorted_desc. rewrite <- Hby2. apply (Hsorted2 r x).
    + congruence.
    + apply (in_tree_perm (w_heap w)); [apply Hpost1 | exact Htree].
Qed.

Lemma toggleSort_twice_witness :
  exists w m w1 m1 w2 m2,
    session "." example_fs [EvScanComplete; EvKey "down"] = Some (w, m) /\
    run_events "." example_fs [EvKey "s"] w m = Some (w1, m1) /\
    run_events "." example_fs [EvKey "s"] w1 m1 = Some (w2, m2) /\
    cursor m = 1 /\ cursor m2 = 0 /\
    Sorted (ordered (name_less (w_heap w1))) (Children (deref (w_heap w1) 0%nat)) /\
    desc_by_size (w_heap w2) (Children (deref (w_heap w2) 0%nat)).
Proof.
  eexists _, _, _, _, _, _. split; [vm_compute; reflexivity|].
  split; [vm_compute; reflexivity|]. split; [vm_compute; reflexivity|].
  split; [reflexivity|]. split; [reflexivity|].
  edestruct (toggleSort_twice "." example_fs)
    as (w1 & m1 & w2 & m2 & Hr1 & Hr2 & _ & _ & _ & _ & _ & _ & Hsorted).
  - apply (session_reach "." example_fs [EvScanComplete; EvKey "down"]).
    vm_compute. reflexivity.
  - reflexivity.
  - reflexivity.
  - reflexivity.
  - vm_compute in Hr1. inversion Hr1; subst. clear Hr1.
    vm_compute in Hr2. inversion Hr2; subst. clear Hr2.
    destruct (Hsorted 0%nat 0%nat eq_refl (in_tree_here _ _)) as [Hname Hsize].
    split; [apply Hname; reflexivity | exact Hsize].
Defined.

Lemma Update_key_left (w : World) (m : model) :
  scanning m = false -> deleting m = false ->
  Update w m (KeyMsg "left") = Ret (w, exit (w_heap w) m, CmdNil).
Proof. intros Hs Hd. cbn. now rewrite Hs, Hd. Qed.

Lemma Update_key_enter (w : World) (m : model) :
  scanning m = false -> deleting m = false ->
  Update w m (KeyMsg "enter") = m' ← enter (w_heap w) m; Ret (w, m', CmdNil).
Proof. intros Hs Hd. cbn. now rewrite Hs, Hd. Qed.

(** C8.  Outside of a scan and of a deletion: when the current node is the
    root, the exit changes nothing; and when the cursor stands on a
    directory that has children, entering it and leaving it again gives
    back the state before, the current node and the cursor with it. *)
Theorem enter_exit_roundtrip (path : string) (fs : FsNode) (w : World)
    (m : model) :
  reach path fs w m -> scanning m = false -> deleting m = false ->
  (currentDir m = rootDir m ->
     Update w m (KeyMsg "left") = Ret (w, m, CmdNil)) /\
  (forall cd sel,
     currentDir m = Some cd ->
     Children (deref (w_heap w) cd) !! Z.to_nat (cursor m) = Some sel ->
     IsDir (deref (w_heap w) sel) = true ->
     Children (deref (w_heap w) sel) <> [] ->
     exists m1,
       Update w m (KeyMsg "enter") = Ret (w, m1, CmdNil) /\
       currentDir m1 = Some sel /\ cursor m1 = 0 /\
       Update w m1 (KeyMsg "left") = Ret (w, m, CmdNil)).
Proof.
  intros Hreach Hs Hd. pose proof (reach_Inv path fs w m Hreach) as Hinv.
  pose proof Hinv as [Hh _ Hr Hc Hcur _ _]. split.
  - intros Hroot. rewrite (Update_key_left w m Hs Hd). unfold exit.
    destruct (currentDir m) as [cd|] eqn:Hcd; [|reflexivity].
    destruct (Hr cd (eq_sym Hroot)) as [_ HP]. now rewrite HP.
  - intros cd sel Hcd Hsel Hdir Hne.
    destruct (Hc cd Hcd) as (r & Hroot & Htree).
    destruct (Hr r Hroot) as [Hrv _].
    destruct (in_tree_valid _ r cd Hh Hrv Htree) as [_ Hcdv].
    pose proof (Hh cd Hcdv) as [Hnd Hch _ _ _].
    assert (Hin : sel ∈ Children (deref (w_heap w) cd))
      by (apply list_elem_of_lookup; eauto).
    destruct (Hch sel Hin) as [_ HPsel].
    rewrite Hcd in Hcur.
    pose proof (len_pos _ _ Hin) as Hpos.
    destruct (index_slice_ok (Children (deref (w_heap w) cd)) (cursor m)
                (proj1 (Z.ltb_lt _ _) Hpos) Hcur)
      as (sel' & Hslice & Hlook).
    assert (sel' = sel) as -> by congruence.
    assert (Hhas : (0 <? len (Children (deref (w_heap w) sel))) = true).
    { apply Z.ltb_lt. unfold len.
      destruct (Children (deref (w_heap w) sel)); [congruence | cbn; lia]. }
    exists (set_cursor 0 (set_currentDir (Some sel) m)).
    split.
    { rewrite (Update_key_enter w m Hs Hd). unfold enter.
      rewrite Hcd, Hpos, Hslice. cbn. now rewrite Hdir, Hhas. }
    split; [reflexivity|]. split; [reflexivity|].
    rewrite Update_key_left by assumption. unfold exit.
    cbn [currentDir set_cursor set_currentDir]. rewrite HPsel.
    rewrite (index_of_lookup sel _ (Z.to_nat (cursor m)) 0 Hnd Hsel).
    cbn [Nat.add]. rewrite Z2Nat.id by lia.
    destruct m; cbn in *. subst. reflexivity.
Qed.

Lemma enter_exit_roundtrip_witness :
  exists w m m1,
    session "." example_fs [EvScanComplete] = Some (w, m) /\
    Update w m (KeyMsg "enter") = Ret (w, m1, CmdNil) /\
    currentDir m1 = Some 2%nat /\ cursor m1 = 0 /\
    Update w m1 (KeyMsg "left") = Ret (w, m, CmdNil).
Proof.
  eexists _, _, _. split; [vm_compute; reflexivity|].
  edestruct (enter_exit_roundtrip "." example_fs) as [_ Hround].
  - apply (session_reach "." example_fs [EvScanComplete]). vm_compute. reflexivity.
  - reflexivity.
  - reflexivity.
  - destruct (Hround 0%nat 2%nat eq_refl eq_refl eq_refl ltac:(discriminate))
      as (m1 & Henter & Hcd & Hcur & Hexit).
    vm_compute in Henter. inversion Henter; subst.
    split; [reflexivity|]. split; [reflexivity|]. split; [reflexivity|].
    exact Hexit.
Defined.

(** C10.  In every state of a session the cursor lies between 0 and the
    number of children of the current node less one (0 when there are
    none); so the child at the cursor exists whenever the current node has
    children, and no deliverable message makes [Update] panic. *)
Theorem cursor_in_bounds (path : string) (fs : FsNode) (w : World) (m : model) :
  reach path fs w m ->
  0 <= cursor m <= Z.max 0 (len (current_children (w_heap w) m) - 1) /\
  (current_children (w_heap w) m <> [] ->
     exists c, index_slice (current_children (w_heap w) m) (cursor m) = Ret c) /\
  (forall msg, deliverable path fs m msg ->
     exists w' m' c, Update w m msg = Ret (w', m', c) /\ reach path fs w' m').
Proof.
  intros Hreach. pose proof (reach_Inv path fs w m Hreach) as Hinv.
  pose proof (inv_cursor _ _ _ _ _ _ _ _ _ Hinv) as Hcur.
  fold (current_children (w_heap w) m) in Hcur.
  split; [exact Hcur|]. split.
  - intros Hne.
    destruct (index_slice_ok (current_children (w_heap w) m) (cursor m))
      as (c & Hc & _); [|exact Hcur|eauto].
    unfold len. destruct (current_children (w_heap w) m); [congruence | cbn; lia].
  - intros msg Hmsg.
    destruct (Inv_step path fs w m msg Hinv Hmsg) as (w' & m' & c & Hrun & _).
    exists w', m', c. split; [exact Hrun|].
    now apply (reach_step path fs w m msg w' m' c).
Qed.

Lemma cursor_in_bounds_witness :
  exists w m,
    session "." example_fs
      [EvScanComplete; EvKey "down"; EvKey "down"; EvKey "d";
       EvDeleteComplete None; EvKey "up"; EvKey "enter"] = Some (w, m) /\
    0 <= cursor m <= Z.max 0 (len (current_children (w_heap w) m) - 1).
Proof.
  eexists _, _. split; [vm_compute; reflexivity|].
  eapply (proj1 (cursor_in_bounds "." example_fs _ _ _)).
  Unshelve.
  apply (session_reach "." example_fs
           [EvScanComplete; EvKey "down"; EvKey "down"; EvKey "d";
            EvDeleteComplete None; EvKey "up"; EvKey "enter"]).
  vm_compute. reflexivity.
Defined.

(** * Further properties of the code *)

(** ** The fields that View reads *)

Lemma scan_result_cases (path : string) (fs : FsNode) :
  (exists root, fst (scanDirectory path fs) = mkScanComplete (Some root) None) \/
  (exists err, fst (scanDirectory path fs) = mkScanComplete None (Some err)).
Proof.
  unfold scanDirectory, scanDirectory_from.
  destruct (calculateDirSizeWithProgress fs path None initial_scan)
    as [[root|err] s]; cbn; eauto.
Qed.

Ltac ui_done :=
  intros [= <- <- <-]; constructor; cbn; auto;
  try congruence; try (intros; discriminate); try lia;
  try (match goal with H : currentDir _ = _ |- _ => rewrite H end;
       auto; try congruence; try (intros; discriminate)).

Lemma ui_ok_step (path : string) (fs : FsNode) (w : World) (m : model)
    (msg : Msg) (w' : World) (m' : model) (c : Cmd) :
  ui_ok path fs m -> deliverable path fs m msg ->
  Update w m msg = Ret (w', m', c) -> ui_ok path fs m'.
Proof.
  intros [Hsp Hsort Hres Hcur] Hmsg.
  destruct msg as [wd ht|sc| | |t err name|key]; cbn [Update].
  - ui_done.
  - destruct Hmsg as [Hs ->]. ui_done.
  - destruct (scanning m) eqn:Hs; [destruct (w_chan w)|]; ui_done.
  - destruct (deleting m); ui_done.
    pose proof (Z.rem_bound_pos (deleteSpinner m + 1) 10 ltac:(lia) ltac:(lia)).
    lia.
  - destruct err as [e|]; [ui_done|].
    unfold detach. cbn [currentDir set_deleteDone cursor].
    destruct (currentDir m) as [cd|] eqn:Hcd; [|ui_done].
    destruct (0 <? len _); [|ui_done].
    destruct (index_of _ _ _);
      [destruct (_ && _)|];
      (destruct (recalculateSizes _ _ _); cbn; [|intros; discriminate..]);
      ui_done.
  - destruct (scanning m || deleting m) eqn:Ebusy.
    { destruct (key_in key _); ui_done. }
    apply orb_false_elim in Ebusy as [Hns Hnd].
    destruct (key_in key ["ctrl+c"; "q"]%string); [ui_done|].
    destruct (key_in key ["up"; "k"]%string).
    { unfold move_up. destruct (0 <? cursor m); ui_done. }
    destruct (key_in key ["down"; "j"]%string).
    { unfold move_down. destruct (currentDir m) eqn:Hcd; [destruct (_ <? _)|];
        ui_done. }
    destruct (key_in key ["enter"; "right"; "l"]%string).
    { unfold enter. destruct (currentDir m) as [cd|] eqn:Hcd; [|ui_done].
      destruct (0 <? len _); [|ui_done].
      destruct (index_slice _ _); cbn; try (intros; discriminate).
      destruct (_ && _); ui_done. }
    destruct (key_in key ["left"; "h"; "backspace"]%string).
    { unfold exit. destruct (currentDir m) as [cd|] eqn:Hcd; [|ui_done].
      destruct (Parent _); [destruct (index_of _ _ _)|]; ui_done;
        now rewrite Hcd. }
    destruct (String.eqb key "s").
    { unfold toggleSort.
      destruct (String.eqb (sortBy m) "size");
        (destruct (sortChildren _ _ _ _); cbn; [|intros; discriminate..]); ui_done. }
    destruct (String.eqb key "home"); [ui_done|].
    destruct (String.eqb key "d").
    { unfold startDelete. destruct (currentDir m) as [cd|] eqn:Hcd; [|cbn; ui_done].
      destruct (0 <? len _); [|cbn; ui_done].
      destruct (index_slice _ _); cbn; try (intros; discriminate).
      ui_done. }
    ui_done.
Qed.

Lemma reach_ui_ok (path : string) (fs : FsNode) (w : World) (m : model) :
  reach path fs w m -> ui_ok path fs m.
Proof.
  induction 1 as [|w m msg w' m' c _ IH Hmsg Hrun].
  - constructor; cbn; auto; [lia | discriminate..].
  - now apply (ui_ok_step path fs w m msg w' m' c).
Qed.

(** ** The tree in a session *)

(** X1.  In every state of a session the store is a forest with back
    pointers: the children of a node are distinct nodes of the store that
    name it as their parent, a file has no children, the root has no parent,
    the current node lies in the tree below the root, and every other node
    of that tree has its parent in the tree, which holds it among its
    children. *)
Theorem tree_well_formed (path : string) (fs : FsNode) (w : World) (m : model) :
  reach path fs w m ->
  let h := w_heap w in
  (forall p, (p < length h)%nat ->
     NoDup (Children (deref h p)) /\
     (forall c, c ∈ Children (deref h p) ->
        (c < length h)%nat /\ c <> p /\ Parent (deref h c) = Some p) /\
     (IsDir (deref h p) = false -> Children (deref h p) = [])) /\
  (forall r, rootDir m = Some r ->
     (r < length h)%nat /\ Parent (deref h r) = None /\
     (forall cd, currentDir m = Some cd -> in_tree h r cd) /\
     (forall x, in_tree h r x -> x <> r ->
        exists q, Parent (deref h x) = Some q /\ in_tree h r q /\
                  x ∈ Children (deref h q))).
Proof.
  intros Hreach h. pose proof (reach_Inv path fs w m Hreach) as
    [Hh _ Hr Hc _ _ _]. fold h in Hh, Hr, Hc. split.
  - intros p Hp. pose proof (Hh p Hp) as [Hnd Hch _ Hfile _].
    split; [exact Hnd|]. split; [|exact Hfile].
    intros c Hin. destruct (Hch c Hin) as [Hrange HP].
    split; [lia|]. split; [lia | exact HP].
  - intros r Hroot. destruct (Hr r Hroot) as [Hrv HPr].
    split; [exact Hrv|]. split; [exact HPr|]. split.
    + intros cd Hcd. destruct (Hc cd Hcd) as (r' & Hr' & Htree).
      assert (r' = r) as -> by congruence. exact Htree.
    + intros x Htree Hne.
      destruct (in_tree_inv_last h r x Htree) as [->|(q & Hq & Hx)]; [congruence|].
      destruct (in_tree_valid h r q Hh Hrv Hq) as [_ Hqv].
      destruct (ok_child _ _ (Hh q Hqv) x Hx) as [_ HP].
      exists q. auto.
Qed.

Lemma tree_well_formed_witness :
  exists w m,
    session "." example_fs [EvScanComplete; EvKey "enter"] = Some (w, m) /\
    currentDir m = Some 2%nat /\
    in_tree (w_heap w) 0%nat 2%nat /\
    NoDup (Children (deref (w_heap w) 0%nat)).
Proof.
  eexists _, _. split; [vm_compute; reflexivity|]. split; [reflexivity|].
  edestruct (tree_well_formed "." example_fs) as [Hnodes Hroot].
  - apply (session_reach "." example_fs [EvScanComplete; EvKey "enter"]).
    vm_compute. reflexivity.
  - cbv zeta in Hnodes, Hroot. split.
    + destruct (Hroot 0%nat eq_refl) as (_ & _ & Hcur & _).
      apply (Hcur 2%nat eq_refl).
    + apply (Hnodes 0%nat). cbn. lia.
Defined.

(** ** The keys *)

Lemma run_events_app (path : string) (fs : FsNode) (evs1 evs2 : list event)
    (w : World) (m : model) :
  run_events path fs (evs1 ++ evs2) w m =
    match run_events path fs evs1 w m with
    | Some (w', m') => run_events path fs evs2 w' m'
    | None => None
    end.
Proof.
  revert w m. induction evs1 as [|ev evs1 IH]; intros w m; cbn; [reflexivity|].
  destruct (msg_of_event path fs m ev); [|reflexivity].
  destruct (Update w m _) as [[[w1 m1] c]| |]; auto.
Qed.

Lemma Update_key_down (w : World) (m : model) :
  scanning m = false -> deleting m = false ->
  Update w m (KeyMsg "down") = Ret (w, move_down (w_heap w) m, CmdNil).
Proof. intros Hs Hd. cbn. now rewrite Hs, Hd. Qed.

Lemma Update_key_up (w : World) (m : model) :
  scanning m = false -> deleting m = false ->
  Update w m (KeyMsg "up") = Ret (w, move_up m, CmdNil).
Proof. intros Hs Hd. cbn. now rewrite Hs, Hd. Qed.

Lemma set_cursor_same (m : model) : set_cursor (cursor m) m = m.
Proof. now destruct m. Qed.

Lemma set_cursor_twice (a b : Z) (m : model) :
  set_cursor a (set_cursor b m) = set_cursor a m.
Proof. reflexivity. Qed.

(** X2.  Outside of a scan and of a deletion, [n] presses of the down key
    move the cursor [n] rows down and stop on the last row; [n] presses of
    the up key move it [n] rows up and stop on the first.  Nothing else of
    the state changes. *)
Theorem cursor_moves (path : string) (fs : FsNode) (w : World) (m : model)
    (n : nat) :
  reach path fs w m -> scanning m = false -> deleting m = false ->
  run_events path fs (repeat (EvKey "down") n) w m
    = Some (w, set_cursor
                 (Z.min (cursor m + Z.of_nat n)
                    (Z.max 0 (len (current_children (w_heap w) m) - 1))) m) /\
  run_events path fs (repeat (EvKey "up") n) w m
    = Some (w, set_cursor (Z.max (cursor m - Z.of_nat n) 0) m).
Proof.
  intros Hreach Hs Hd.
  pose proof (inv_cursor _ _ _ _ _ _ _ _ _ (reach_Inv path fs w m Hreach)) as Hcur.
  fold (current_children (w_heap w) m) in Hcur.
  set (last := Z.max 0 (len (current_children (w_heap w) m) - 1)) in *.
  assert (Hstep : forall c, 0 <= c ->
            move_down (w_heap w) (set_cursor c m)
            = if c <? len (current_children (w_heap w) m) - 1
              then set_cursor (c + 1) m else set_cursor c m).
  { intros c Hc. unfold move_down, current_children.
    cbn [currentDir set_cursor cursor].
    destruct (currentDir m); [reflexivity|].
    change (len (@nil nat)) with 0.
    replace (c <? 0 - 1) with false by (symmetry; apply Z.ltb_ge; lia).
    reflexivity. }
  assert (Hdown : forall n c, 0 <= c <= last ->
            run_events path fs (repeat (EvKey "down") n) w (set_cursor c m)
            = Some (w, set_cursor (Z.min (c + Z.of_nat n) last) m)).
  { clear n. induction n as [|n IH]; intros c Hc.
    - cbn. do 3 f_equal. lia.
    - cbn [repeat run_events msg_of_event].
      rewrite Update_key_down, Hstep by (assumption || lia).
      destruct (c <? len (current_children (w_heap w) m) - 1) eqn:E.
      + apply Z.ltb_lt in E. rewrite IH by lia. do 3 f_equal. lia.
      + apply Z.ltb_ge in E. rewrite IH by lia. do 3 f_equal. lia. }
  assert (Hup : forall n c, 0 <= c ->
            run_events path fs (repeat (EvKey "up") n) w (set_cursor c m)
            = Some (w, set_cursor (Z.max (c - Z.of_nat n) 0) m)).
  { clear n. induction n as [|n IH]; intros c Hc.
    - cbn. do 3 f_equal. lia.
    - cbn [repeat run_events msg_of_event].
      rewrite Update_key_up by assumption. unfold move_up.
      cbn [set_cursor cursor].
      destruct (0 <? c) eqn:E.
      + apply Z.ltb_lt in E. rewrite set_cursor_twice, IH by lia.
        do 3 f_equal. lia.
      + apply Z.ltb_ge in E. rewrite IH by lia. do 3 f_equal. lia. }
  split.
  - rewrite <- (set_cursor_same m) at 1. apply Hdown. lia.
  - rewrite <- (set_cursor_same m) at 1. apply Hup. lia.
Qed.

Lemma cursor_moves_witness :
  exists w m,
    session "." example_fs [EvScanComplete] = Some (w, m) /\
    run_events "." example_fs (repeat (EvKey "down") 5) w m
      = Some (w, set_cursor 1 m) /\
    run_events "." example_fs (repeat (EvKey "up") 5) w m
      = Some (w, set_cursor 0 m).
Proof.
  eexists _, _. split; [vm_compute; reflexivity|].
  edestruct (cursor_moves "." example_fs) as [Hdown Hup].
  - apply (session_reach "." example_fs [EvScanComplete]). vm_compute. reflexivity.
  - reflexivity.
  - reflexivity.
  - split; [exact (Hdown) | exact Hup].
Defined.

(** X3.  Outside of a scan and of a deletion, the enter key changes nothing
    when the current directory is empty, and nothing when the child under
    the cursor is a file or a directory without children. *)
Theorem enter_noop (path : string) (fs : FsNode) (w : World) (m : model) :
  reach path fs w m -> scanning m = false -> deleting m = false ->
  (current_children (w_heap w) m = [] \/
   exists sel,
     current_children (w_heap w) m !! Z.to_nat (cursor m) = Some sel /\
     (IsDir (deref (w_heap w) sel) = false \/
      Children (deref (w_heap w) sel) = [])) ->
  Update w m (KeyMsg "enter") = Ret (w, m, CmdNil).
Proof.
  intros Hreach Hs Hd Hcase.
  pose proof (inv_cursor _ _ _ _ _ _ _ _ _ (reach_Inv path fs w m Hreach)) as Hcur.
  rewrite (Update_key_enter w m Hs Hd). unfold enter, current_children in *.
  destruct (currentDir m) as [cd|]; [|reflexivity].
  destruct Hcase as [Hnil|(sel & Hsel & Hkind)].
  - rewrite Hnil. reflexivity.
  - assert (Hin : sel ∈ Children (deref (w_heap w) cd))
      by (apply list_elem_of_lookup; eauto).
    rewrite (len_pos _ _ Hin).
    destruct (index_slice_ok (Children (deref (w_heap w) cd)) (cursor m)
                (proj1 (Z.ltb_lt _ _) (len_pos _ _ Hin)) Hcur)
      as (sel' & Hslice & Hlook).
    assert (sel' = sel) as -> by congruence.
    rewrite Hslice. cbn.
    destruct Hkind as [Hfile|Hempty].
    + now rewrite Hfile.
    + rewrite Hempty. now rewrite andb_false_r.
Qed.

Lemma enter_noop_witness :
  exists w m,
    session "." example_fs [EvScanComplete; EvKey "down"] = Some (w, m) /\
    Update w m (KeyMsg "enter") = Ret (w, m, CmdNil).
Proof.
  eexists _, _. split; [vm_compute; reflexivity|].
  eapply (enter_noop "." example_fs).
  - apply (session_reach "." example_fs [EvScanComplete; EvKey "down"]).
    vm_compute. reflexivity.
  - reflexivity.
  - reflexivity.
  - right. exists 1%nat. split; [reflexivity|]. left. reflexivity.
Defined.

(** X4.  While a deletion is under way, no key, tick or window size changes
    the store, the root, the current directory, the cursor or the target;
    the deletion stays under way until its completion arrives, and every
    such event is handled. *)
Theorem deletion_freezes_tree (path : string) (fs : FsNode) (evs : list event)
    (w : World) (m : model) :
  deleting m = true -> scanning m = false ->
  forallb passing_event evs = true ->
  exists m',
    run_events path fs evs w m = Some (w, m') /\
    deleting m' = true /\ rootDir m' = rootDir m /\
    currentDir m' = currentDir m /\ cursor m' = cursor m /\
    deleteTarget m' = deleteTarget m /\ deleteFilename m' = deleteFilename m.
Proof.
  revert m. induction evs as [|ev evs IH]; intros m Hd Hs Hevs.
  - exists m. auto 10.
  - cbn in Hevs. apply andb_prop in Hevs as [Hev Hevs].
    assert (Hstep : exists m1 c,
              (exists msg, msg_of_event path fs m ev = Some msg /\
                           Update w m msg = Ret (w, m1, c)) /\
              deleting m1 = true /\ scanning m1 = false /\
              rootDir m1 = rootDir m /\ currentDir m1 = currentDir m /\
              cursor m1 = cursor m /\ deleteTarget m1 = deleteTarget m /\
              deleteFilename m1 = deleteFilename m).
    { destruct ev as [wd ht| | | |err|key]; try discriminate.
      - exists (set_window wd ht m), CmdNil.
        split; [eexists; split; reflexivity|]. cbn. auto 10.
      - exists m, CmdNil.
        split; [exists ScanTickMsg; split; [reflexivity | cbn; now rewrite Hs]|].
        auto 10.
      - exists (set_deleteSpinner (Z.rem (deleteSpinner m + 1) 10) m),
          CmdDeleteProgress.
        split; [exists DeleteProgressMsg;
                split; [reflexivity | cbn; now rewrite Hd]|].
        cbn. auto 10.
      - exists m, (if key_in key ["ctrl+c"; "q"]%string then CmdQuit else CmdNil).
        split; [exists (KeyMsg key); split; [reflexivity|]|auto 10].
        cbn. rewrite Hs, Hd. cbn. now destruct (_ || _). }
    destruct Hstep as (m1 & c & (msg & Hmsg & Hrun) & Hd1 & Hs1 & E1 & E2 & E3 & E4 & E5).
    destruct (IH m1 Hd1 Hs1 Hevs) as (m' & Hrun' & Hd' & F1 & F2 & F3 & F4 & F5).
    exists m'. cbn [run_events]. rewrite Hmsg, Hrun.
    split; [exact Hrun'|]. repeat split; congruence.
Qed.

Lemma deletion_freezes_tree_witness :
  exists w m,
    session "." example_fs [EvScanComplete; EvKey "d"] = Some (w, m) /\
    exists m',
      run_events "." example_fs
        [EvKey "down"; EvKey "s"; EvDeleteProgress; EvKey "home"; EvTick] w m
        = Some (w, m') /\
      deleting m' = true /\ rootDir m' = rootDir m /\
      currentDir m' = currentDir m /\ cursor m' = cursor m /\
      deleteTarget m' = deleteTarget m /\ deleteFilename m' = deleteFilename m.
Proof.
  eexists _, _. split; [vm_compute; reflexivity|].
  apply (deletion_freezes_tree "." example_fs
           [EvKey "down"; EvKey "s"; EvDeleteProgress; EvKey "home"; EvTick]);
    reflexivity.
Defined.

Lemma Update_key_d (w : World) (m : model) :
  scanning m = false -> deleting m = false ->
  Update w m (KeyMsg "d") = '(m', c) ← startDelete (w_heap w) m; Ret (w, m', c).
Proof. intros Hs Hd. cbn. now rewrite Hs, Hd. Qed.

Lemma detach_status (t : ptr) (h h' : Heap) (m m' : model) :
  detach t h m = Ret (h', m') -> statusMsg m' = statusMsg m.
Proof.
  unfold detach. destruct (currentDir m); [|now intros [= <- <-]].
  destruct (0 <? len _); [|now intros [= <- <-]].
  destruct (index_of _ _ _); [destruct (_ && _)|];
    (destruct (recalculateSizes _ _ _); cbn; [|intros; discriminate..]);
    now intros [= <- <-].
Qed.

Lemma lookup_middle_unique (t : ptr) (l1 l2 : list ptr) (i : nat) :
  (t ∉ l1 ++ l2) -> (l1 ++ t :: l2) !! i = Some t -> i = length l1.
Proof.
  intros Hnot Hi.
  destruct (Nat.lt_trichotomy i (length l1)) as [Hlt|[Heq|Hgt]]; [|exact Heq|].
  - exfalso. apply Hnot. apply elem_of_app. left.
    rewrite lookup_app_l in Hi by exact Hlt.
    apply list_elem_of_lookup. eauto.
  - exfalso. apply Hnot. apply elem_of_app. right.
    rewrite lookup_app_r in Hi by lia.
    destruct (i - length l1)%nat as [|j] eqn:E; [lia|]. cbn in Hi.
    apply list_elem_of_lookup. eauto.
Qed.

(** X5.  Outside of a scan and of a deletion, in a directory that has
    children, the [d] key followed by the successful end of the deletion
    takes exactly the child under the cursor out of the children, keeps the
    cursor where it was unless it stood on the last child, in which case it
    moves to the new last child, and reports the base name of the child. *)
Theorem delete_removes_selected (path : string) (fs : FsNode) (w : World)
    (m : model) (cd : ptr) :
  reach path fs w m -> scanning m = false -> deleting m = false ->
  currentDir m = Some cd -> Children (deref (w_heap w) cd) <> [] ->
  exists t h' m',
    Children (deref (w_heap w) cd) !! Z.to_nat (cursor m) = Some t /\
    run_events path fs [EvKey "d"; EvDeleteComplete None] w m
      = Some (mkWorld h' (w_chan w), m') /\
    Children (deref h' cd)
      = delete (Z.to_nat (cursor m)) (Children (deref (w_heap w) cd)) /\
    cursor m' = Z.min (cursor m) (Z.max 0 (len (Children (deref h' cd)) - 1)) /\
    currentDir m' = Some cd /\ deleting m' = false /\
    statusMsg m'
      = ("Deleted: " ++ filepath_Base (Path (deref (w_heap w) t)))%string.
Proof.
  intros Hreach Hs Hd Hcd Hne.
  pose proof (reach_Inv path fs w m Hreach) as Hinv.
  pose proof (inv_cursor _ _ _ _ _ _ _ _ _ Hinv) as Hcur. rewrite Hcd in Hcur.
  assert (Hpos : 0 < len (Children (deref (w_heap w) cd))).
  { unfold len. destruct (Children (deref (w_heap w) cd)); [congruence | cbn; lia]. }
  destruct (index_slice_ok _ (cursor m) Hpos Hcur) as (t & Hslice & Hlook).
  set (m1 := set_deleteStart t (filepath_Base (Path (deref (w_heap w) t))) m).
  assert (Hrun1 : Update w m (KeyMsg "d") = Ret (w, m1, CmdDelete t)).
  { rewrite (Update_key_d w m Hs Hd). unfold startDelete.
    rewrite Hcd, (proj2 (Z.ltb_lt _ _) Hpos), Hslice. reflexivity. }
  assert (Hreach1 : reach path fs w m1)
    by (apply (reach_step path fs w m (KeyMsg "d") w m1 (CmdDelete t));
        [exact Hreach | exact I | exact Hrun1]).
  destruct (Inv_detach path fs w m1 t
              ("Deleted: " ++ filepath_Base (Path (deref (w_heap w) t)))%string
              (reach_Inv path fs w m1 Hreach1) eq_refl eq_refl)
    as (cd' & h' & l1 & l2 & m' & Hcd' & _ & Hdet & _ & Hcur' & Hdel' & Hcursor
        & Hsplit & Hnot & Hch' & _).
  assert (cd' = cd) as -> by (cbn in Hcd'; congruence).
  cbn [cursor m1 set_deleteStart] in Hcursor.
  assert (Hidx : Z.to_nat (cursor m) = length l1).
  { apply (lookup_middle_unique t l1 l2); [exact Hnot|]. now rewrite <- Hsplit. }
  exists t, h', m'. split; [exact Hlook|]. split.
  { cbn [run_events msg_of_event]. rewrite Hrun1. cbn [deleting deleteTarget m1
      set_deleteStart deleteFilename Update].
    rewrite Hdet. reflexivity. }
  split; [rewrite Hch', Hsplit, Hidx; symmetry; apply delete_middle|].
  split.
  { rewrite Hcursor, Hch'. rewrite Hsplit in Hcur.
    assert (Hl : len (l1 ++ t :: l2) = len (l1 ++ l2) + 1)
      by (unfold len; rewrite !length_app; cbn; lia).
    assert (Hc : cursor m = len l1) by (unfold len; lia).
    assert (Hle : len l1 <= len (l1 ++ l2))
      by (unfold len; rewrite length_app; lia).
    destruct (len (l1 ++ l2) <=? cursor m) eqn:E1;
      destruct (0 <? cursor m) eqn:E2; cbn;
      rewrite ?Z.leb_le, ?Z.leb_gt, ?Z.ltb_lt, ?Z.ltb_ge in *; lia. }
  split; [exact Hcur'|]. split; [exact Hdel'|].
  rewrite (detach_status _ _ _ _ _ Hdet). reflexivity.
Qed.

Lemma delete_removes_selected_witness :
  exists w m t h' m',
    session "." example_fs [EvScanComplete; EvKey "down"] = Some (w, m) /\
    Children (deref (w_heap w) 0%nat) !! Z.to_nat (cursor m) = Some t /\
    run_events "." example_fs [EvKey "d"; EvDeleteComplete None] w m
      = Some (mkWorld h' (w_chan w), m') /\
    Children (deref h' 0%nat)
      = delete (Z.to_nat (cursor m)) (Children (deref (w_heap w) 0%nat)) /\
    cursor m' = Z.min (cursor m) (Z.max 0 (len (Children (deref h' 0%nat)) - 1)) /\
    currentDir m' = Some 0%nat /\ deleting m' = false /\
    statusMsg m'
      = ("Deleted: " ++ filepath_Base (Path (deref (w_heap w) t)))%string.
Proof.
  eexists _, _. 
  assert (Hsess : session "." example_fs [EvScanComplete; EvKey "down"]
                  = Some (fst (default (mkWorld [] [], initialModel)
                            (session "." example_fs [EvScanComplete; EvKey "down"])),
                          snd (default (mkWorld [] [], initialModel)
                            (session "." example_fs [EvScanComplete; EvKey "down"]))))
    by (vm_compute; reflexivity).
  destruct (delete_removes_selected "." example_fs _ _ 0%nat
              (session_reach _ _ _ _ _ Hsess) eq_refl eq_refl eq_refl
              ltac:(vm_compute; discriminate))
    as (t & h' & m' & H1 & H2 & H3 & H4 & H5 & H6 & H7).
  exists t, h', m'. split; [exact Hsess|]. auto 10.
Defined.

(** ** recalculateSizes on a consistent tree *)

Lemma DirInfo_eq (a b : DirInfo) :
  Path a = Path b -> Size a = Size b -> Children a = Children b ->
  Parent a = Parent b -> IsDir a = IsDir b -> Error a = Error b -> a = b.
Proof. destruct a, b; cbn; intros; congruence. Qed.

Lemma heap_eq_deref (h h' : Heap) :
  length h' = length h -> (forall x, deref h' x = deref h x) -> h' = h.
Proof.
  intros Hlen Hd. apply list_eq. intros x.
  destruct (decide (x < length h)%nat) as [Hx|Hx].
  - destruct (lookup_lt_is_Some_2 h x Hx) as [n Hn].
    destruct (lookup_lt_is_Some_2 h' x ltac:(lia)) as [n' Hn'].
    specialize (Hd x). unfold deref in Hd. rewrite Hn, Hn' in Hd. cbn in Hd.
    congruence.
  - rewrite !lookup_ge_None_2; auto; lia.
Qed.

Lemma dir_size_in_range (h : Heap) (x : ptr) :
  heap_ok h -> (x < length h)%nat -> IsDir (deref h x) = true ->
  wrap64 (Size (deref h x) - 0) = Size (deref h x).
Proof.
  intros Hok Hx Hd. rewrite Z.sub_0_r, (ok_size _ _ (Hok x Hx) Hd), total_size_eq.
  apply wrap64_small, wrap64_range.
Qed.

(** X6.  In every state of a session, [recalculateSizes] started on a
    directory of the tree returns and changes nothing: the sizes it
    computes are the sizes that are there.  So the end of a deletion whose
    target is not among the children of the current directory leaves the
    store and the cursor as they are. *)
Theorem recalculate_is_identity (path : string) (fs : FsNode) (w : World)
    (m : model) (r : ptr) :
  reach path fs w m -> rootDir m = Some r ->
  (forall d, in_tree (w_heap w) r d -> IsDir (deref (w_heap w) d) = true ->
     recalculateSizes (length (w_heap w)) (Some d) (w_heap w) = Ret (w_heap w)) /\
  (forall cd t name,
     currentDir m = Some cd -> t ∉ Children (deref (w_heap w) cd) ->
     Update w m (DeleteCompleteMsg t None name)
       = Ret (w, set_deleteDone ("Deleted: " ++ name) m, CmdNil)).
Proof.
  intros Hreach Hroot.
  pose proof (reach_Inv path fs w m Hreach) as [Hh _ Hr Hc _ _ _].
  destruct (Hr r Hroot) as [Hrv HPr].
  assert (Hid : forall d, in_tree (w_heap w) r d ->
            IsDir (deref (w_heap w) d) = true ->
            recalculateSizes (length (w_heap w)) (Some d) (w_heap w)
            = Ret (w_heap w)).
  { intros d Htree Hdir.
    destruct (in_tree_valid _ r d Hh Hrv Htree) as [_ Hdv].
    destruct (recalc_spec (w_heap w) r d 0 Hh Hrv HPr (length (w_heap w)) d
                (w_heap w)) as (h' & Hrun & [Hlen Hk] & Hch & Hanc & Hrest); auto.
    - apply same_kind_refl.
    - intros c Hc'. destruct (ok_child _ _ (Hh d Hdv) c Hc'). lia.
    - rewrite (dir_size_in_range _ d Hh Hdv Hdir). symmetry.
      apply (ok_size _ _ (Hh d Hdv) Hdir).
    - rewrite Hrun. f_equal. apply heap_eq_deref; [exact Hlen|].
      intros x. destruct (Hk x) as (HP & HD & HPa & HE).
      apply DirInfo_eq; auto.
      destruct (anc_dec _ Hh d x) as [Ha|Ha]; [|now apply Hrest].
      destruct (Hanc x Ha) as [Hsz _]. rewrite Hsz.
      pose proof (anc_in_tree _ r x d Hh Hrv HPr Ha Htree) as Hx.
      destruct (in_tree_valid _ r x Hh Hrv Hx) as [_ Hxv].
      apply dir_size_in_range; auto.
      inversion Ha as [|? q HPd Ha']; subst; [exact Hdir|].
      clear - Ha Hh Hdir. induction Ha as [|p q HP _ IH]; [exact Hdir|].
      apply IH. destruct (parent_lt _ p q Hh HP) as [_ Hp].
      apply (ok_parent _ _ (Hh p Hp) q HP). }
  split; [exact Hid|].
  intros cd t name Hcd Hnot. cbn [Update]. unfold detach.
  cbn [currentDir set_deleteDone cursor]. rewrite Hcd.
  destruct (0 <? len (Children (deref (w_heap w) cd))) eqn:Hlen;
    [|destruct w; reflexivity].
  rewrite (index_of_None _ _ 0 Hnot).
  destruct (Hc cd Hcd) as (r' & Hr' & Htree).
  assert (r' = r) as -> by congruence.
  destruct (in_tree_valid _ r cd Hh Hrv Htree) as [_ Hcdv].
  rewrite Hid; [destruct w; reflexivity | exact Htree|].
  destruct (IsDir (deref (w_heap w) cd)) eqn:E; [reflexivity|].
  rewrite (ok_file _ _ (Hh cd Hcdv) E) in Hlen. discriminate.
Qed.

Lemma recalculate_is_identity_witness :
  exists w m,
    session "." example_fs [EvScanComplete; EvKey "enter"] = Some (w, m) /\
    recalculateSizes (length (w_heap w)) (Some 2%nat) (w_heap w) = Ret (w_heap w) /\
    Update w m (DeleteCompleteMsg 1%nat None "a.txt")
      = Ret (w, set_deleteDone "Deleted: a.txt" m, CmdNil).
Proof.
  eexists _, _. split; [vm_compute; reflexivity|].
  edestruct (recalculate_is_identity "." example_fs) as [Hid Hstale].
  - apply (session_reach "." example_fs [EvScanComplete; EvKey "enter"]).
    vm_compute. reflexivity.
  - reflexivity.
  - split.
    + apply (Hid 2%nat); [|reflexivity].
      apply in_tree_child with 2%nat; [now left | constructor].
    + apply (Hstale 2%nat 1%nat "a.txt"%string eq_refl).
      cbn. intros Hin. apply list_elem_of_singleton in Hin. discriminate.
Defined.

(** ** Ticks *)

(** X7.  While the scan is marked as running, [k] ticks take the [k]
    oldest snapshots out of the channel, oldest first, and leave the model
    showing the last of them; the store is not touched, and a tick on an
    empty channel changes nothing.  Once the scan is over, ticks change
    nothing at all. *)
Theorem ticks_drain_in_order (path : string) (fs : FsNode) (k : nat)
    (w : World) (m : model) :
  (scanning m = true ->
   run_events path fs (repeat EvTick k) w m
     = Some (mkWorld (w_heap w) (drop k (w_chan w)),
             fold_left (fun m p => set_progress p m) (take k (w_chan w)) m)) /\
  (scanning m = false ->
   run_events path fs (repeat EvTick k) w m = Some (w, m)).
Proof.
  split.
  - revert w m. induction k as [|k IH]; intros w m Hs.
    + cbn. rewrite drop_0. now destruct w.
    + cbn [repeat run_events msg_of_event Update]. rewrite Hs.
      destruct w as [h ch]. cbn [w_chan w_heap]. destruct ch as [|p ch].
      * rewrite (IH (mkWorld h []) m Hs). cbn. now rewrite drop_nil, take_nil.
      * rewrite (IH (mkWorld h ch) (set_progress p m)); [reflexivity|].
        exact Hs.
  - intros Hs. induction k as [|k IH]; [reflexivity|].
    cbn [repeat run_events msg_of_event Update]. now rewrite Hs.
Qed.

Lemma ticks_drain_in_order_witness :
  let w := mkWorld (heap (snd (scanDirectory "." example_fs)))
                   (progressChan (snd (scanDirectory "." example_fs))) in
  run_events "." example_fs (repeat EvTick 2) w initialModel
  = Some (mkWorld (w_heap w) (drop 2 (w_chan w)),
          fold_left (fun m p => set_progress p m) (take 2 (w_chan w))
            initialModel).
Proof.
  intros w.
  exact (proj1 (ticks_drain_in_order "." example_fs 2 w initialModel) eq_refl).
Defined.

(** ** Leaving towards the root *)

Lemma exit_fields (h : Heap) (m : model) :
  scanning (exit h m) = scanning m /\ deleting (exit h m) = deleting m /\
  rootDir (exit h m) = rootDir m.
Proof.
  unfold exit. destruct (currentDir m); [|auto].
  destruct (Parent _); [destruct (index_of _ _ _)|]; cbn; auto.
Qed.

(** X8.  Outside of a scan and of a deletion, leaving as many times as the
    store has nodes always ends on the root, with the store as it was; the
    exit cannot run past the root. *)
Theorem exits_reach_root (path : string) (fs : FsNode) (w : World) (m : model) :
  reach path fs w m -> scanning m = false -> deleting m = false ->
  exists m',
    run_events path fs (repeat (EvKey "left") (length (w_heap w))) w m
      = Some (w, m') /\
    currentDir m' = rootDir m /\ rootDir m' = rootDir m.
Proof.
  intros Hreach Hs Hd.
  assert (Hgen : forall n m,
            reach path fs w m -> scanning m = false -> deleting m = false ->
            (forall cd r, currentDir m = Some cd -> rootDir m = Some r ->
                          (cd - r <= n)%nat) ->
            exists m',
              run_events path fs (repeat (EvKey "left") n) w m = Some (w, m') /\
              currentDir m' = rootDir m /\ rootDir m' = rootDir m).
  { clear m Hreach Hs Hd. induction n as [|n IH]; intros m Hreach Hs Hd Hdist.
    - exists m. split; [reflexivity|]. split; [|reflexivity].
      pose proof (reach_Inv path fs w m Hreach) as [Hh _ Hr Hc _ _ _].
      pose proof (reach_ui_ok path fs w m Hreach) as [_ _ _ Hcur].
      destruct (currentDir m) as [cd|] eqn:Hcd.
      + destruct (Hc cd eq_refl) as (r & Hroot & Htree).
        destruct (Hr r Hroot) as [Hrv _].
        pose proof (in_tree_valid _ r cd Hh Hrv Htree).
        specialize (Hdist cd r eq_refl Hroot).
        rewrite Hroot. f_equal. lia.
      + destruct (rootDir m) eqn:Hroot; [|reflexivity].
        exfalso. apply (Hcur Hs); congruence.
    - cbn [repeat run_events msg_of_event].
      rewrite (Update_key_left w m Hs Hd).
      destruct (exit_fields (w_heap w) m) as (Es & Ed & Er).
      assert (Hreach1 : reach path fs w (exit (w_heap w) m)).
      { apply (reach_step path fs w m (KeyMsg "left") w _ CmdNil Hreach I).
        apply (Update_key_left w m Hs Hd). }
      destruct (IH (exit (w_heap w) m) Hreach1) as (m' & Hrun & Hcur' & Hroot');
        try congruence.
      + intros cd r Hcd Hroot. rewrite Er in Hroot.
        pose proof (reach_Inv path fs w m Hreach) as [Hh _ Hr Hc _ _ _].
        unfold exit in Hcd.
        destruct (currentDir m) as [cd0|] eqn:Hcd0; [|congruence].
        specialize (Hdist cd0 r eq_refl Hroot).
        destruct (Parent (deref (w_heap w) cd0)) as [q|] eqn:HP.
        * assert (cd = q) as ->
            by (destruct (index_of _ _ _); cbn in Hcd; congruence).
          destruct (parent_lt _ cd0 q Hh HP). lia.
        * assert (cd = cd0) as -> by congruence.
          destruct (Hc cd0 eq_refl) as (r' & Hroot'' & Htree).
          assert (r' = r) as -> by congruence.
          destruct (Hr r Hroot) as [Hrv HPr].
          destruct (in_tree_inv_last _ r cd0 Htree) as [->|(q & Hq & Hin)]; [lia|].
          destruct (in_tree_valid _ r q Hh Hrv Hq) as [_ Hqv].
          destruct (ok_child _ _ (Hh q Hqv) cd0 Hin) as [_ HP']. congruence.
      + exists m'. split; [exact Hrun|]. split; congruence. }
  apply (Hgen _ m Hreach Hs Hd).
  intros cd r Hcd Hroot.
  pose proof (reach_Inv path fs w m Hreach) as [Hh _ Hr Hc _ _ _].
  destruct (Hc cd Hcd) as (r' & Hr' & Htree).
  destruct (Hr r' Hr') as [Hrv _].
  pose proof (in_tree_valid _ r' cd Hh Hrv Htree). lia.
Qed.

Lemma exits_reach_root_witness :
  exists w m,
    session "." example_fs [EvScanComplete; EvKey "enter"] = Some (w, m) /\
    currentDir m = Some 2%nat /\
    exists m',
      run_events "." example_fs (repeat (EvKey "left") (length (w_heap w))) w m
        = Some (w, m') /\
      currentDir m' = rootDir m /\ rootDir m' = rootDir m.
Proof.
  eexists _, _. split; [vm_compute; reflexivity|]. split; [reflexivity|].
  apply (exits_reach_root "." example_fs).
  - apply (session_reach "." example_fs [EvScanComplete; EvKey "enter"]).
    vm_compute. reflexivity.
  - reflexivity.
  - reflexivity.
Defined.

(** ** What the scan counts *)

Lemma sum_over_snoc (f : FsNode -> Z) (done : list (string * FsNode))
    (e : string * FsNode) :
  sum_over f (done ++ [e]) = sum_over f done + f (snd e).
Proof.
  unfold sum_over. induction done as [|d done IH]; cbn; [lia|].
  cbn in IH. rewrite IH. lia.
Qed.

Lemma sum_over_nonneg (f : FsNode -> Z) (entries : list (string * FsNode)) :
  Forall (fun e => 0 <= f (snd e)) entries -> 0 <= sum_over f entries.
Proof.
  unfold sum_over. induction 1 as [|e entries He _ IH]; cbn; [lia|].
  cbn in IH. lia.
Qed.

Lemma fs_files_nonneg (fs : FsNode) : 0 <= fs_files fs.
Proof.
  induction fs as [err|size|err|entries IH] using FsNode_ind; cbn; try lia.
  now apply (sum_over_nonneg fs_files).
Qed.

Lemma fs_dirs_nonneg (fs : FsNode) : 0 <= fs_dirs fs.
Proof.
  induction fs as [err|size|err|entries IH] using FsNode_ind; cbn; try lia.
  pose proof (sum_over_nonneg fs_dirs entries IH) as H. unfold sum_over in H. lia.
Qed.

Lemma try_send_counters (msg : scanProgressMsg) (s : ScanState) :
  filesScanned (try_send msg s) = filesScanned s /\
  dirsScanned (try_send msg s) = dirsScanned s /\
  currentRoot (try_send msg s) = currentRoot s.
Proof. unfold try_send. now destruct (_ <? _)%nat. Qed.

Lemma attach_child_counters (a c : ptr) (total : Z) (s : ScanState) :
  filesScanned (snd (attach_child a c total s)) = filesScanned s /\
  dirsScanned (snd (attach_child a c total s)) = dirsScanned s /\
  currentRoot (snd (attach_child a c total s)) = currentRoot s.
Proof.
  unfold attach_child. cbn [with_heap heap currentRoot filesScanned dirsScanned].
  destruct (decide _); cbn [snd]; [|auto].
  destruct (try_send_counters
              (mkProgress (currentRoot s) (filesScanned s) (dirsScanned s)
                 (add64 total
                    (Size (deref (alter (fun d => set_Children (Children d ++ [c]) d)
                                    a (heap s)) c))))
              (with_heap
                 (alter (set_Size
                    (add64 total
                       (Size (deref (alter (fun d => set_Children (Children d ++ [c]) d)
                                       a (heap s)) c)))) a)
                 (with_heap (alter (fun d => set_Children (Children d ++ [c]) d) a) s)))
    as (H1 & H2 & H3).
  rewrite H1, H2, H3. auto.
Qed.

Lemma desc_stable (a x : ptr) (h h' : Heap) :
  extends_above a h h' -> (a < x < length h)%nat -> node_ok h x ->
  desc_by_size h (Children (deref h x)) ->
  desc_by_size h' (Children (deref h' x)).
Proof.
  intros (Hlen & Hsame & _) Hx Hok Hdesc. rewrite (Hsame x Hx).
  intros i j ci cj Hij Hi Hj.
  assert (Hci : ci ∈ Children (deref h x)) by (apply list_elem_of_lookup; eauto).
  assert (Hcj : cj ∈ Children (deref h x)) by (apply list_elem_of_lookup; eauto).
  destruct (ok_child _ _ Hok ci Hci) as [Hri _].
  destruct (ok_child _ _ Hok cj Hcj) as [Hrj _].
  rewrite !Hsame by lia. now apply (Hdesc i j).
Qed.

Lemma desc_sorted (h : Heap) (cs : list ptr) :
  desc_by_size h (sort_Slice (size_less h) cs).
Proof.
  apply sorted_desc.
  change (sort_less "size" h) with (size_less h). apply sort_Slice_sorted.
  intros a b. unfold size_less. rewrite Z.ltb_lt, Z.ltb_ge. lia.
Qed.

Lemma desc_ext (h h' : Heap) (cs : list ptr) :
  (forall c, c ∈ cs -> Size (deref h' c) = Size (deref h c)) ->
  desc_by_size h cs -> desc_by_size h' cs.
Proof.
  intros Hsame Hdesc i j ci cj Hij Hi Hj.
  rewrite !Hsame by (apply list_elem_of_lookup; eauto). now apply (Hdesc i j).
Qed.

Lemma tally_inv_start (path : string) (parent : option ptr) (s : ScanState) :
  tally_inv (length (heap s)) (incr_dirs (snd (new_DirInfo path parent true s)))
    [] 0 (incr_dirs (snd (new_DirInfo path parent true s))).
Proof.
  constructor; unfold sum_over; cbn [map fold_right]; try lia.
  - reflexivity.
  - intros x Hx. cbn in Hx. rewrite length_app in Hx. cbn in Hx. lia.
  - intros x Hx. cbn in Hx. rewrite length_app in Hx. cbn in Hx. lia.
Qed.

Lemma tally_entries (path : string) (parent : option ptr) (a : ptr)
    (s0 : ScanState) (rest : list (string * FsNode)) :
  Forall (fun e => tally_ok (snd e)) rest ->
  forall (done : list (string * FsNode)) (total : Z) (s : ScanState),
    loop_inv path parent a done total s ->
    tally_inv a s0 done total s ->
    tally_inv a s0 (done ++ rest)
      (fst (scan_entries path a rest total s))
      (snd (scan_entries path a rest total s)).
Proof.
  induction 1 as [|[name sub] rest Hsub _ IH]; intros done total s Hinv Htal.
  - cbn. now rewrite app_nil_r.
  - rewrite scan_entries_cons.
    replace (done ++ (name, sub) :: rest) with ((done ++ [(name, sub)]) ++ rest)
      by now rewrite <- app_assoc.
    assert (Hpar : parent_ok (heap s) (Some a)).
    { intros q [= <-]. split; [apply (li_valid _ _ _ _ _ _ Hinv)
                              | apply (li_isdir _ _ _ _ _ _ Hinv)]. }
    specialize (Hsub (filepath_Join path name) (Some a) s Hpar). cbn [snd] in Hsub.
    pose proof (calc_spec sub (filepath_Join path name) (Some a) s Hpar) as Hcalc.
    destruct (calculateDirSizeWithProgress sub (filepath_Join path name)
                (Some a) s) as [[c|err] s1].
    + destruct Hcalc as [Hstat [Hptr Hlen Hframe Hok HPc Hnode Hcv]].
      destruct Hsub as [Hf Hd Hl Hsz Hsorted Htree].
      pose proof (li_valid _ _ _ _ _ _ Hinv) as Hv.
      assert (Hinv1 : loop_inv path parent a done total s1)
        by (apply (loop_inv_extend path parent a done total s s1); auto; lia).
      assert (Hfresh : c ∉ Children (deref (heap s1) a)).
      { intros Hin. replace (deref (heap s1) a) with (deref (heap s) a) in Hin
          by (unfold deref; now rewrite Hframe).
        destruct (li_child _ _ _ _ _ _ Hinv c Hin). lia. }
      pose proof (loop_inv_attach path parent a done total s1 name sub c
                    Hinv1 Hstat ltac:(lia) Hfresh HPc (proj1 Hnode) Hcv) as Hinv2.
      destruct (attach_child_spec a c total s1 ltac:(lia))
        as (f & Heq & Hheap & Hf').
      destruct (attach_child_counters a c total s1) as (Hcf & Hcd & _).
      assert (Hext1 : extends_above a (heap s) (heap s1))
        by (apply extends_above_frame; [lia | exact Hframe]).
      assert (Hext2 : extends_above a (heap s1) (alter f a (heap s1)))
        by (apply extends_above_alter; intros d; apply Hf').
      assert (Hch2 : Children (deref (alter f a (heap s1)) a)
                     = Children (deref (heap s) a) ++ [c]).
      { rewrite deref_alter_eq by lia. rewrite (proj1 (Hf' _)).
        f_equal. unfold deref. now rewrite Hframe. }
      rewrite Heq in *.
      destruct (attach_child a c total s1) as [total2 s2]. cbn [fst snd] in *.
      apply (IH _ _ _ Hinv2).
      destruct Htal as [Tf Td Tl Tt Ts Tr].
      constructor; rewrite ?sum_over_snoc; cbn [snd].
      * lia.
      * lia.
      * rewrite Hheap, length_alter. lia.
      * unfold add64. rewrite Hsz, Tt, wrap64_add_l, wrap64_add_r. reflexivity.
      * rewrite Hheap, length_alter. intros x Hx.
        apply (desc_stable a x (heap s1)); [exact Hext2 | lia | |].
        { apply (li_ok _ _ _ _ _ _ Hinv1). lia. }
        destruct (decide (x < length (heap s))%nat) as [Hlt|Hge].
        -- apply (desc_stable a x (heap s)); [exact Hext1 | lia | |].
           ++ apply (li_ok _ _ _ _ _ _ Hinv). lia.
           ++ apply Ts. lia.
        -- apply Hsorted. lia.
      * rewrite Hheap, length_alter. intros x Hx. rewrite Hch2.
        destruct (decide (x < length (heap s))%nat) as [Hlt|Hge].
        -- destruct (Tr x ltac:(lia)) as (c' & Hc' & Htr).
           exists c'. split; [apply elem_of_app; now left|].
           destruct (li_child _ _ _ _ _ _ Hinv c' Hc') as [Hr _].
           destruct (in_tree_stable a (heap s) (heap s1) c' x Hext1
                       (li_ok _ _ _ _ _ _ Hinv) Hr Htr) as [Htr1 _].
           apply (in_tree_stable a (heap s1) _ c' x Hext2
                    (li_ok _ _ _ _ _ _ Hinv1)); [lia | exact Htr1].
        -- exists c. split; [apply elem_of_app; right; now apply list_elem_of_singleton|].
           apply (in_tree_stable a (heap s1) _ c x Hext2
                    (li_ok _ _ _ _ _ _ Hinv1)); [lia|].
           apply Htree. lia.
    + destruct Hcalc as [-> ->].
      apply IH; [now apply loop_inv_skip|].
      destruct Htal as [Tf Td Tl Tt Ts Tr].
      constructor; rewrite ?sum_over_snoc; cbn [snd fs_files fs_dirs fs_bytes];
        rewrite ?Z.add_0_r; auto.
Qed.

Theorem tally_spec (fs : FsNode) : tally_ok fs.
Proof.
  induction fs as [err|size|err|entries IH] using FsNode_ind;
    intros path parent s Hpar.
  - cbn. exact I.
  - cbn [calculateDirSizeWithProgress new_DirInfo].
    unfold incr_files, with_heap.
    cbn [heap currentRoot progressChan filesScanned dirsScanned published receives].
    rewrite alter_app_new.
    constructor; cbn [heap filesScanned dirsScanned fs_files fs_dirs fs_bytes];
      rewrite ?length_app, ?deref_app_new; cbn [length Size set_Size]; try lia.
    + symmetry. apply wrap64_small, wrap64_range.
    + intros x Hx. assert (x = length (heap s)) as -> by lia.
      rewrite deref_app_new. cbn. intros i j ci cj _ Hi. inversion Hi.
    + intros x Hx. assert (x = length (heap s)) as -> by lia. constructor.
  - cbn [calculateDirSizeWithProgress new_DirInfo].
    unfold incr_dirs, with_heap.
    cbn [heap currentRoot progressChan filesScanned dirsScanned published receives].
    rewrite alter_app_new.
    constructor; cbn [heap filesScanned dirsScanned fs_files fs_dirs fs_bytes];
      rewrite ?length_app, ?deref_app_new; cbn [length Size set_Error]; try lia.
    + reflexivity.
    + intros x Hx. assert (x = length (heap s)) as -> by lia.
      rewrite deref_app_new. cbn. intros i j ci cj _ Hi. inversion Hi.
    + intros x Hx. assert (x = length (heap s)) as -> by lia. constructor.
  - pose proof (calc_spec (Directory entries) path parent s Hpar) as Hcalc.
    rewrite calc_Directory in *.
    pose proof (loop_inv_start path parent s) as Hstart.
    pose proof (tally_inv_start path parent s) as Htstart.
    set (a := length (heap s)) in *.
    destruct (new_DirInfo path parent true s) as [a' s0] eqn:Hnew.
    assert (a' = a) as -> by (unfold new_DirInfo in Hnew; now inversion Hnew).
    assert (Hh0 : heap (incr_dirs s0) = heap s ++ [mkDirInfo path 0 [] parent true None])
      by (unfold new_DirInfo in Hnew; inversion Hnew; reflexivity).
    assert (Hf0 : filesScanned (incr_dirs s0) = filesScanned s)
      by (unfold new_DirInfo in Hnew; inversion Hnew; reflexivity).
    assert (Hd0 : dirsScanned (incr_dirs s0) = dirsScanned s + 1)
      by (unfold new_DirInfo in Hnew; inversion Hnew; reflexivity).
    cbn [snd] in Hstart, Htstart. cbv beta iota zeta in Hcalc |- *.
    assert (Hsubs : Forall (fun e => calc_ok (snd e)) entries)
      by (apply Forall_forall; intros e _; apply calc_spec).
    destruct (scan_entries_spec path parent a entries Hsubs [] 0 (incr_dirs s0) Hstart)
      as (Hinv & _ & _).
    pose proof (tally_entries path parent a (incr_dirs s0) entries IH [] 0
                  (incr_dirs s0) Hstart Htstart) as Htal.
    destruct (scan_entries path a entries 0 (incr_dirs s0)) as [total s1].
    cbn [fst snd app] in *.
    destruct Hcalc as [_ [_ _ _ Hok3 _ _ _]].
    destruct Hinv as [Hv Hpath HP Hdir Herr Hpaths Hnd Hch Htot Hok Hcov].
    destruct Htal as [Tf Td Tl Tt Ts Tr].
    unfold with_heap in *.
    cbn [heap currentRoot progressChan filesScanned dirsScanned published receives] in *.
    set (h2 := alter (set_Size total) a (heap s1)) in *.
    set (sorted := sort_Slice (size_less h2)) in *.
    set (h3 := alter (fun d => set_Children (sorted (Children d)) d) a h2) in *.
    assert (Hl3 : length h3 = length (heap s1))
      by (unfold h3, h2; now rewrite !length_alter).
    assert (Ha3 : deref h3 a =
              set_Children (sorted (Children (deref (heap s1) a)))
                (set_Size total (deref (heap s1) a))).
    { unfold h3. rewrite deref_alter_eq by (unfold h2; rewrite length_alter; lia).
      unfold h2. now rewrite deref_alter_eq by lia. }
    assert (Hsame : forall x, x <> a -> deref h3 x = deref (heap s1) x).
    { intros x Hx. unfold h3, h2. rewrite !deref_alter_ne; auto. }
    assert (Hext : extends_above a (heap s1) h3).
    { split; [lia|]. split.
      - intros x Hx. apply Hsame. lia.
      - intros x Hx. destruct (decide (x = a)) as [->|Hne].
        + now rewrite Ha3.
        + now rewrite Hsame. }
    rewrite Hh0, length_app in Tl. cbn [length] in Tl.
    constructor; cbn [heap filesScanned dirsScanned];
      change (fs_files (Directory entries)) with (sum_over fs_files entries);
      change (fs_dirs (Directory entries)) with (1 + sum_over fs_dirs entries);
      change (fs_bytes (Directory entries)) with (sum_over fs_bytes entries).
    + lia.
    + lia.
    + rewrite Hl3. lia.
    + rewrite Ha3. cbn. exact Tt.
    + rewrite Hl3. intros x Hx. destruct (decide (x = a)) as [->|Hne].
      * rewrite Ha3. cbn [Children set_Children].
        apply (desc_ext h2).
        { intros c _. unfold h3.
          destruct (decide (c = a)) as [->|Hca].
          - rewrite deref_alter_eq by (unfold h2; rewrite length_alter; lia).
            reflexivity.
          - now rewrite deref_alter_ne. }
        apply desc_sorted.
      * apply (desc_stable a x (heap s1)); [exact Hext | lia | |].
        -- apply Hok. lia.
        -- apply Ts. lia.
    + rewrite Hl3. intros x Hx. destruct (decide (x = a)) as [->|Hne];
        [constructor|].
      destruct (Tr x ltac:(lia)) as (c & Hc & Htr).
      apply in_tree_child with c.
      * rewrite Ha3. cbn [Children set_Children].
        apply (elem_of_Permutation_proper _ _ _ (sort_Slice_perm _ _)). exact Hc.
      * destruct (Hch c Hc) as [Hr _].
        apply (in_tree_stable a (heap s1) h3 c x Hext Hok Hr Htr).
Qed.

(** X11.  When [scanDirectory] is over, the counter of files holds the
    number of regular files of the view whose stat succeeds, the counter of
    directories the number of its directories, listable or not, and the
    store has one node for each of them and no other; the root it reports
    weighs the bytes of all the files, as an [int64], and exactly the bytes
    when their sum fits one. *)
Theorem scan_counts (path : string) (fs : FsNode) :
  let s := snd (scanDirectory path fs) in
  filesScanned s = fs_files fs /\ dirsScanned s = fs_dirs fs /\
  Z.of_nat (length (heap s)) = fs_files fs + fs_dirs fs /\
  forall r, sc_root (fst (scanDirectory path fs)) = Some r ->
    Size (deref (heap s) r) = wrap64 (fs_bytes fs) /\
    (in_int64 (fs_bytes fs) -> Size (deref (heap s) r) = fs_bytes fs).
Proof.
  unfold scanDirectory, scanDirectory_from.
  pose proof (tally_spec fs path None initial_scan) as Htal.
  pose proof (calc_spec fs path None initial_scan) as Hcalc.
  destruct (calculateDirSizeWithProgress fs path None initial_scan)
    as [[root|err] s]; cbn [fst snd sc_root].
  - destruct Htal as [Hf Hd Hl Hsz _ _]; [intros q Hq; discriminate|].
    cbn in Hf, Hd, Hl.
    assert (Hh : forall msg, heap (match currentRoot s with
                       | Some r0 => try_send (msg r0) s
                       | None => s
                       end) = heap s)
      by (intros msg; destruct (currentRoot s); [apply try_send_heap | reflexivity]).
    assert (Hc : forall msg,
              filesScanned (match currentRoot s with
                            | Some r0 => try_send (msg r0) s
                            | None => s
                            end) = filesScanned s /\
              dirsScanned (match currentRoot s with
                           | Some r0 => try_send (msg r0) s
                           | None => s
                           end) = dirsScanned s).
    { intros msg. destruct (currentRoot s); [|auto].
      destruct (try_send_counters (msg n) s) as (H1 & H2 & _). auto. }
    cbv zeta.
    rewrite (Hh (fun r0 => mkProgress (currentRoot s) (filesScanned s)
                              (dirsScanned s) (Size (deref (heap s) r0)))).
    destruct (Hc (fun r0 => mkProgress (currentRoot s) (filesScanned s)
                              (dirsScanned s) (Size (deref (heap s) r0))))
      as [-> ->].
    split; [lia|]. split; [lia|]. split; [lia|].
    intros r [= <-]. split; [exact Hsz|].
    intros Hfit. rewrite Hsz. now apply wrap64_small.
  - destruct Hcalc as [-> ->]; [intros q Hq; discriminate|].
    cbn. split; [reflexivity|]. split; [reflexivity|]. split; [reflexivity|].
    intros r Hr. discriminate.
Qed.

Lemma scan_counts_witness :
  let s := snd (scanDirectory "." example_fs) in
  filesScanned s = 2 /\ dirsScanned s = 2 /\
  Z.of_nat (length (heap s)) = 4 /\
  Size (deref (heap s) 0%nat) = 2000.
Proof.
  intros s. destruct (scan_counts "." example_fs) as (Hf & Hd & Hl & Hr).
  destruct (Hr 0%nat eq_refl) as [_ Hfit].
  split; [exact Hf|]. split; [exact Hd|]. split; [exact Hl|].
  apply Hfit. vm_compute. split; discriminate.
Defined.

(** X12.  When [scanDirectory] is over, the children of every node of the
    store stand by descending size, and every node of the store is the
    root that the scan reports or lies below it. *)
Theorem scan_sorted_tree (path : string) (fs : FsNode) (x : ptr) :
  let h := heap (snd (scanDirectory path fs)) in
  (x < length h)%nat ->
  desc_by_size h (Children (deref h x)) /\
  exists r, sc_root (fst (scanDirectory path fs)) = Some r /\ in_tree h r x.
Proof.
  unfold scanDirectory, scanDirectory_from.
  pose proof (tally_spec fs path None initial_scan) as Htal.
  pose proof (calc_spec fs path None initial_scan) as Hcalc.
  destruct (calculateDirSizeWithProgress fs path None initial_scan)
    as [[root|err] s]; cbn [fst snd sc_root].
  - destruct Htal as [_ _ _ _ Hsorted Htree]; [intros q Hq; discriminate|].
    assert (Hh : heap (match currentRoot s with
                       | Some r0 =>
                           try_send (mkProgress (currentRoot s) (filesScanned s)
                             (dirsScanned s) (Size (deref (heap s) r0))) s
                       | None => s
                       end) = heap s)
      by (destruct (currentRoot s); [apply try_send_heap | reflexivity]).
    cbv zeta. rewrite Hh. intros Hx. split.
    + apply Hsorted. cbn. lia.
    + exists root. split; [reflexivity|]. apply Htree. cbn. lia.
  - destruct Hcalc as [-> ->]; [intros q Hq; discriminate|].
    cbn. intros Hx. lia.
Qed.

Lemma scan_sorted_tree_witness :
  let h := heap (snd (scanDirectory "." example_fs)) in
  desc_by_size h (Children (deref h 0%nat)) /\
  exists r, sc_root (fst (scanDirectory "." example_fs)) = Some r /\
            in_tree h r 3%nat.
Proof.
  intros h. destruct (scan_sorted_tree "." example_fs 0%nat) as [Hdesc _];
    [vm_compute; lia|].
  destruct (scan_sorted_tree "." example_fs 3%nat) as [_ Htree];
    [vm_compute; lia|].
  split; [exact Hdesc | exact Htree].
Defined.

(** ** The progress channel *)

Lemma calc_returns (fs : FsNode) (path : string) (parent : option ptr)
    (s : ScanState) :
  match fst (calculateDirSizeWithProgress fs path parent s) with
  | inl _ => stat_ok fs = true
  | inr _ => stat_ok fs = false
  end.
Proof.
  destruct fs as [err|size|err|entries]; try reflexivity.
  rewrite calc_Directory.
  destruct (new_DirInfo path parent true s) as [a s0].
  cbv beta iota zeta.
  destruct (scan_entries path a entries 0 (incr_dirs s0)). reflexivity.
Qed.

(** Below the root of the scan nothing is sent: a call on a node other
    than the root leaves the channel and the root reference alone, and the
    counters and the store only grow. *)
Lemma scan_quiet (fs : FsNode) :
  forall (path : string) (parent : option ptr) (s : ScanState) (r : ptr),
    currentRoot s = Some r -> (r < length (heap s))%nat ->
    let s' := snd (calculateDirSizeWithProgress fs path parent s) in
    currentRoot s' = Some r /\ progressChan s' = progressChan s /\
    (length (heap s) <= length (heap s'))%nat /\
    filesScanned s <= filesScanned s' /\ dirsScanned s <= dirsScanned s' /\
    receives s' = receives s.
Proof.
  induction fs as [err|size|err|entries IH] using FsNode_ind;
    intros path parent s r Hroot Hr.
  - cbn. repeat split; auto; lia.
  - cbn [calculateDirSizeWithProgress new_DirInfo].
    unfold incr_files, with_heap.
    cbn [snd heap currentRoot progressChan filesScanned dirsScanned published receives].
    rewrite Hroot, length_alter, length_app.
    repeat split; try lia. now destruct parent.
  - cbn [calculateDirSizeWithProgress new_DirInfo].
    unfold incr_dirs, with_heap.
    cbn [snd heap currentRoot progressChan filesScanned dirsScanned published receives].
    rewrite Hroot, length_alter, length_app.
    repeat split; try lia. now destruct parent.
  - rewrite calc_Directory.
    set (a := length (heap s)).
    destruct (new_DirInfo path parent true s) as [a' s0] eqn:Hnew.
    assert (a' = a) as -> by (unfold new_DirInfo in Hnew; now inversion Hnew).
    assert (H0 : currentRoot (incr_dirs s0) = Some r /\
                 progressChan (incr_dirs s0) = progressChan s /\
                 length (heap (incr_dirs s0)) = S (length (heap s)) /\
                 filesScanned (incr_dirs s0) = filesScanned s /\
                 dirsScanned (incr_dirs s0) = dirsScanned s + 1 /\
                 receives (incr_dirs s0) = receives s).
    { unfold new_DirInfo in Hnew. inversion Hnew; subst. cbn.
      rewrite Hroot, length_app. cbn. repeat split; try lia. now destruct parent. }
    destruct H0 as (R0 & C0 & L0 & F0 & D0 & V0).
    cbv beta iota zeta.
    assert (Hloop : forall total s1,
              currentRoot s1 = Some r -> (r < length (heap s1))%nat ->
              let s' := snd (scan_entries path a entries total s1) in
              currentRoot s' = Some r /\ progressChan s' = progressChan s1 /\
              (length (heap s1) <= length (heap s'))%nat /\
              filesScanned s1 <= filesScanned s' /\
              dirsScanned s1 <= dirsScanned s' /\
              receives s' = receives s1).
    { clear Hnew R0 C0 L0 F0 D0 V0 s0.
      induction IH as [|[name sub] rest Hsub _ IHrest]; intros total s1 R1 L1.
      - cbn. repeat split; auto; lia.
      - rewrite scan_entries_cons.
        pose proof (Hsub (filepath_Join path name) (Some a) s1 r R1 L1) as Hq.
        cbv zeta in Hq. cbn [snd] in Hq.
        destruct (calculateDirSizeWithProgress sub (filepath_Join path name)
                    (Some a) s1) as [[c|err] s2]; cbn [snd] in Hq;
          destruct Hq as (R2 & C2 & L2 & F2 & D2 & V2).
        + destruct (attach_child_counters a c total s2) as (F3 & D3 & R3).
          assert (C3 : progressChan (snd (attach_child a c total s2))
                       = progressChan s2 /\
                       length (heap (snd (attach_child a c total s2)))
                       = length (heap s2) /\
                       receives (snd (attach_child a c total s2))
                       = receives s2).
          { unfold attach_child, with_heap.
            cbn [heap currentRoot progressChan filesScanned dirsScanned published receives].
            destruct (decide _) as [Heq|Hne]; cbn [snd heap progressChan receives].
            - rewrite R2 in Heq. inversion Heq. unfold a in *. lia.
            - now rewrite length_alter. }
          destruct C3 as (C3 & L3 & V3).
          destruct (attach_child a c total s2) as [total3 s3]. cbn [snd] in *.
          destruct (IHrest total3 s3) as (R4 & C4 & L4 & F4 & D4 & V4);
            [congruence | lia|].
          repeat split; try congruence; lia.
        + destruct (IHrest total s2 R2 ltac:(lia))
            as (R4 & C4 & L4 & F4 & D4 & V4).
          repeat split; try congruence; lia. }
    destruct (Hloop 0 (incr_dirs s0) R0 ltac:(lia))
      as (R1 & C1 & L1 & F1 & D1 & V1).
    destruct (scan_entries path a entries 0 (incr_dirs s0)) as [total s1].
    unfold with_heap.
    cbn [snd heap currentRoot progressChan filesScanned dirsScanned published receives] in *.
    rewrite !length_alter.
    repeat split; try congruence; lia.
Qed.

Lemma scanned_paths_cons_length (path name : string) (sub : FsNode)
    (rest : list (string * FsNode)) :
  length (scanned_paths path ((name, sub) :: rest))
  = ((if stat_ok sub then 1 else 0) + length (scanned_paths path rest))%nat.
Proof.
  unfold scanned_paths. rewrite filter_cons. cbn [snd].
  destruct (decide (stat_ok sub = true)) as [Hs|Hs].
  - rewrite Hs. reflexivity.
  - destruct (stat_ok sub); [congruence | reflexivity].
Qed.

Lemma counters_grow_app (l1 l2 : list scanProgressMsg) :
  counters_grow l1 -> counters_grow l2 ->
  (forall p q, p ∈ l1 -> q ∈ l2 ->
     pm_filesScanned p <= pm_filesScanned q /\
     pm_dirsScanned p <= pm_dirsScanned q) ->
  counters_grow (l1 ++ l2).
Proof.
  intros H1 H2 H12 i j p q Hij Hi Hj.
  apply lookup_app_Some in Hi as [Hi|[Hil Hi]];
    apply lookup_app_Some in Hj as [Hj|[Hjl Hj]].
  - now apply (H1 i j).
  - apply H12; apply list_elem_of_lookup; eauto.
  - apply lookup_lt_Some in Hj. lia.
  - apply (H2 (i - length l1)%nat (j - length l1)%nat); auto. lia.
Qed.

Lemma counters_grow_short (l : list scanProgressMsg) :
  (length l <= 1)%nat -> counters_grow l.
Proof.
  intros Hl i j p q Hij Hi Hj.
  apply lookup_lt_Some in Hi as Hi'. apply lookup_lt_Some in Hj as Hj'.
  assert (i = j) as -> by lia. rewrite Hi in Hj. inversion Hj. lia.
Qed.

Lemma counters_grow_drop (k : nat) (l : list scanProgressMsg) :
  counters_grow l -> counters_grow (drop k l).
Proof.
  intros Hl i j p q Hij Hi Hj. rewrite lookup_drop in Hi, Hj.
  apply (Hl (k + i)%nat (k + j)%nat); auto. lia.
Qed.

Lemma elem_of_drop (k : nat) (l : list scanProgressMsg) (p : scanProgressMsg) :
  p ∈ drop k l -> p ∈ l.
Proof.
  intros Hp. apply list_elem_of_lookup in Hp as [i Hi].
  rewrite lookup_drop in Hi. apply list_elem_of_lookup. eauto.
Qed.

(** The body of the loop in the root of the scan: the child is appended,
    and a message with the counters goes out if the channel, as the
    receives left it, has room. *)
Lemma attach_child_root (a c : ptr) (total : Z) (s : ScanState) :
  currentRoot s = Some a ->
  let s' := snd (attach_child a c total s) in
  let chan := drop (hd 0%nat (receives s)) (progressChan s) in
  currentRoot s' = Some a /\ length (heap s') = length (heap s) /\
  filesScanned s' = filesScanned s /\ dirsScanned s' = dirsScanned s /\
  receives s' = tl (receives s) /\
  progressChan s'
  = chan ++
    (if (length chan <? chan_capacity)%nat
     then [mkProgress (Some a) (filesScanned s) (dirsScanned s)
             (fst (attach_child a c total s))]
     else []).
Proof.
  intros Hroot. unfold attach_child, with_heap.
  cbn [heap currentRoot progressChan filesScanned dirsScanned published receives].
  destruct (decide _) as [_|Hne]; [|now rewrite Hroot in Hne].
  cbn [fst snd]. unfold try_send.
  cbn [heap currentRoot progressChan filesScanned dirsScanned published receives].
  destruct (_ <? _)%nat;
    cbn [heap currentRoot progressChan filesScanned dirsScanned published receives];
    rewrite !length_alter, ?app_nil_r, ?Hroot; auto 10.
Qed.

(** The loop over the entries of the root of the scan, whatever the
    message loop receives meanwhile: the channel stays within its
    capacity, its messages name the root and carry counters that the scan
    had, in the order in which it had them.  When nothing is received, the
    channel gains a message for each entry whose stat succeeds, up to its
    capacity. *)
Lemma chan_entries (path : string) (a : ptr) (s0 : ScanState)
    (rest : list (string * FsNode)) :
  forall (total : Z) (s : ScanState),
    currentRoot s = Some a -> (a < length (heap s))%nat ->
    chan_ok a s0 s ->
    let s' := snd (scan_entries path a rest total s) in
    currentRoot s' = Some a /\ (length (heap s) <= length (heap s'))%nat /\
    filesScanned s <= filesScanned s' /\ dirsScanned s <= dirsScanned s' /\
    chan_ok a s0 s' /\
    (receives s = [] ->
     receives s' = [] /\
     length (progressChan s')
     = Nat.min chan_capacity
         (length (progressChan s) + length (scanned_paths path rest))).
Proof.
  induction rest as [|[name sub] rest IH]; intros total s Hroot Ha Hok.
  - change (scan_entries path a [] total s) with (total, s). cbn [snd].
    split; [exact Hroot|]. split; [lia|]. split; [lia|]. split; [lia|].
    split; [exact Hok|]. intros Hidle. split; [exact Hidle|].
    destruct Hok as (Hcap & _).
    change (scanned_paths path []) with (@nil string). cbn [length]. lia.
  - rewrite scan_entries_cons, scanned_paths_cons_length.
    pose proof (scan_quiet sub (filepath_Join path name) (Some a) s a Hroot Ha)
      as Hq.
    pose proof (calc_returns sub (filepath_Join path name) (Some a) s) as Hret.
    cbv zeta in Hq.
    destruct Hok as (Hcap & Hbetween & Hgrow & Hf0 & Hd0).
    destruct (calculateDirSizeWithProgress sub (filepath_Join path name)
                (Some a) s) as [[c|err] s1]; cbn [fst snd] in Hq, Hret;
      destruct Hq as (R1 & C1 & L1 & F1 & D1 & V1); rewrite Hret.
    + pose proof (attach_child_root a c total s1 R1) as Hatt. cbv zeta in Hatt.
      destruct (attach_child a c total s1) as [total2 s2].
      cbn [fst snd] in Hatt. destruct Hatt as (R2 & L2 & F2 & D2 & V2 & C2).
      rewrite C1, V1 in C2. rewrite V1 in V2.
      set (chan := drop (hd 0%nat (receives s)) (progressChan s)) in *.
      assert (Hchan : (length chan <= length (progressChan s))%nat)
        by (unfold chan; rewrite length_drop; lia).
      assert (Hok2 : chan_ok a s0 s2).
      { split; [|split; [|split; [|lia]]].
        - rewrite C2, length_app.
          destruct (length chan <? chan_capacity)%nat eqn:E; cbn [length];
            [apply Nat.ltb_lt in E|]; lia.
        - intros p Hp. rewrite C2 in Hp. apply elem_of_app in Hp as [Hp|Hp].
          + destruct (Hbetween p (elem_of_drop _ _ _ Hp)) as (Hr & Hf & Hd).
            repeat split; auto; lia.
          + destruct (length chan <? chan_capacity)%nat; [|inversion Hp].
            apply list_elem_of_singleton in Hp. subst p. cbn.
            repeat split; auto; lia.
        - rewrite C2. apply counters_grow_app.
          + now apply counters_grow_drop.
          + apply counters_grow_short.
            destruct (length chan <? chan_capacity)%nat; cbn; lia.
          + intros p q Hp Hq'.
            destruct (length chan <? chan_capacity)%nat; [|inversion Hq'].
            apply list_elem_of_singleton in Hq'. subst q. cbn.
            destruct (Hbetween p (elem_of_drop _ _ _ Hp)) as (_ & Hf & Hd). lia. }
      destruct (IH total2 s2 R2 ltac:(lia) Hok2)
        as (R3 & L3 & F3 & D3 & Hok3 & Hidle3).
      split; [exact R3|]. split; [lia|]. split; [lia|]. split; [lia|].
      split; [exact Hok3|]. intros Hidle.
      rewrite Hidle in V2. cbn in V2.
      destruct (Hidle3 V2) as [V3 N3]. split; [exact V3|].
      assert (Hch : chan = progressChan s)
        by (unfold chan; rewrite Hidle; apply drop_0).
      rewrite N3, C2, Hch, length_app.
      destruct (length (progressChan s) <? chan_capacity)%nat eqn:E;
        cbn [length]; [apply Nat.ltb_lt in E | apply Nat.ltb_ge in E]; lia.
    + assert (Hok1 : chan_ok a s0 s1).
      { split; [now rewrite C1|]. split; [|split; [now rewrite C1 | lia]].
        intros p Hp. rewrite C1 in Hp.
        destruct (Hbetween p Hp) as (Hr & Hf & Hd). repeat split; auto; lia. }
      destruct (IH total s1 R1 ltac:(lia) Hok1)
        as (R3 & L3 & F3 & D3 & Hok3 & Hidle3).
      split; [exact R3|]. split; [lia|]. split; [lia|]. split; [lia|].
      split; [exact Hok3|]. intros Hidle.
      destruct (Hidle3 ltac:(congruence)) as [V3 N3]. split; [exact V3|].
      now rewrite N3, C1.
Qed.

(** ** The scan without progress reports *)

Lemma insert_sorted_ext {A} (less1 less2 : A -> A -> bool) (x : A) (l : list A) :
  (forall y, y ∈ l -> less1 x y = less2 x y) ->
  insert_sorted less1 x l = insert_sorted less2 x l.
Proof.
  induction l as [|y l IH]; intros Hext; cbn; [reflexivity|].
  rewrite (Hext y) by constructor.
  destruct (less2 x y); [reflexivity|].
  f_equal. apply IH. intros z Hz. apply Hext. now constructor.
Qed.

(** [sort.Slice] sees its elements through [less] only: two orders that
    agree on the elements of a slice sort it alike. *)
Lemma sort_Slice_ext {A} (less1 less2 : A -> A -> bool) (l : list A) :
  (forall x y, x ∈ l -> y ∈ l -> less1 x y = less2 x y) ->
  sort_Slice less1 l = sort_Slice less2 l.
Proof.
  unfold sort_Slice.
  assert (Hgen : forall acc,
            (forall x y, x ∈ acc ++ l -> y ∈ acc ++ l -> less1 x y = less2 x y) ->
            fold_left (fun acc x => insert_sorted less1 x acc) l acc
            = fold_left (fun acc x => insert_sorted less2 x acc) l acc).
  { induction l as [|x l IH]; intros acc Hext; cbn; [reflexivity|].
    rewrite (insert_sorted_ext less1 less2 x acc).
    - apply IH. intros y z Hy Hz.
      assert (Hsub : forall u, u ∈ insert_sorted less2 x acc ++ l ->
                               u ∈ acc ++ x :: l).
      { intros u Hu. apply elem_of_app in Hu as [Hu|Hu].
        - rewrite insert_sorted_perm in Hu.
          apply elem_of_cons in Hu as [->|Hu]; apply elem_of_app;
            [right; constructor | now left].
        - apply elem_of_app. right. now constructor. }
      apply Hext; now apply Hsub.
    - intros y Hy. apply Hext; apply elem_of_app; [right; constructor | now left]. }
  intros Hext. apply Hgen. exact Hext.
Qed.

Lemma plain_Directory (entries : list (string * FsNode)) (path : string)
    (parent : option ptr) (h : Heap) :
  calculateDirSize (Directory entries) path parent h =
    let dirInfo := length h in
    let h := h ++ [mkDirInfo path 0 [] parent true None] in
    let '(totalSize, h) := plain_entries path dirInfo entries 0 h in
    let h := alter (set_Size totalSize) dirInfo h in
    let h := alter (fun d => set_Children
               (sort_Slice (size_less h) (Children d)) d) dirInfo h in
    (inl dirInfo, h).
Proof. reflexivity. Qed.

Lemma plain_entries_cons (path : string) (a : ptr) (name : string)
    (sub : FsNode) (rest : list (string * FsNode)) (total : Z) (h : Heap) :
  plain_entries path a ((name, sub) :: rest) total h =
    match calculateDirSize sub (filepath_Join path name) (Some a) h with
    | (inr _, h) => plain_entries path a rest total h
    | (inl child, h) =>
        let h := alter (fun d => set_Children (Children d ++ [child]) d) a h in
        plain_entries path a rest (add64 total (Size (deref h child))) h
    end.
Proof. reflexivity. Qed.

(** The body of the loop, with and without the report to the channel. *)
Lemma attach_child_plain (a c r : ptr) (total : Z) (s : ScanState) :
  currentRoot s = Some r -> a <> c ->
  fst (attach_child a c total s) = add64 total (Size (deref (heap s) c)) /\
  alter (set_Size 0) r (heap (snd (attach_child a c total s)))
  = alter (fun d => set_Children (Children d ++ [c]) d) a
      (alter (set_Size 0) r (heap s)).
Proof.
  intros Hroot Hne. unfold attach_child, with_heap.
  cbn [heap currentRoot progressChan filesScanned dirsScanned published receives].
  rewrite deref_alter_ne by exact Hne.
  destruct (decide _) as [Heq|Hneq]; cbn [fst snd heap].
  - rewrite Hroot in Heq. inversion Heq; subst r.
    rewrite try_send_heap. cbn [heap]. split; [reflexivity|].
    rewrite !list_alter_alter_eq. apply list_alter_ext; [|reflexivity].
    intros d _. reflexivity.
  - split; [reflexivity|]. apply list_alter_alter_ne. congruence.
Qed.

Lemma same_entries (path : string) (parent : option ptr) (a r : ptr)
    (rest : list (string * FsNode)) :
  Forall (fun e => plain_ok (snd e)) rest ->
  forall (done : list (string * FsNode)) (total : Z) (s : ScanState),
    loop_inv path parent a done total s ->
    currentRoot s = Some r -> (r <= a)%nat ->
    plain_entries path a rest total (alter (set_Size 0) r (heap s))
    = (fst (scan_entries path a rest total s),
       alter (set_Size 0) r (heap (snd (scan_entries path a rest total s)))).
Proof.
  induction 1 as [|[name sub] rest Hsub _ IH]; intros done total s Hinv Hroot Hra.
  - reflexivity.
  - rewrite scan_entries_cons, plain_entries_cons.
    pose proof (li_valid _ _ _ _ _ _ Hinv) as Hv.
    assert (Hpar : parent_ok (heap s) (Some a)).
    { intros q [= <-]. split; [exact Hv | apply (li_isdir _ _ _ _ _ _ Hinv)]. }
    cbn [snd] in Hsub.
    rewrite (Hsub (filepath_Join path name) (Some a) s r Hpar Hroot ltac:(lia)).
    pose proof (calc_spec sub (filepath_Join path name) (Some a) s Hpar) as Hcalc.
    pose proof (scan_quiet sub (filepath_Join path name) (Some a) s r Hroot
                  ltac:(lia)) as Hq.
    cbv zeta in Hq.
    destruct (calculateDirSizeWithProgress sub (filepath_Join path name)
                (Some a) s) as [[c|err] s1]; cbn [fst snd] in Hq |- *.
    + destruct Hcalc as [Hstat [Hptr Hlen Hframe Hok HPc Hnode Hcv]].
      destruct Hq as (R1 & _).
      assert (Hinv1 : loop_inv path parent a done total s1)
        by (apply (loop_inv_extend path parent a done total s s1); auto; lia).
      assert (Hfresh : c ∉ Children (deref (heap s1) a)).
      { intros Hin. replace (deref (heap s1) a) with (deref (heap s) a) in Hin
          by (unfold deref; now rewrite Hframe).
        destruct (li_child _ _ _ _ _ _ Hinv c Hin). lia. }
      pose proof (loop_inv_attach path parent a done total s1 name sub c
                    Hinv1 Hstat ltac:(lia) Hfresh HPc (proj1 Hnode) Hcv) as Hinv2.
      destruct (attach_child_plain a c r total s1 R1 ltac:(lia)) as [Ht Hh].
      destruct (attach_child_counters a c total s1) as (_ & _ & R2).
      destruct (attach_child a c total s1) as [total2 s2]. cbn [fst snd] in *.
      cbv zeta. rewrite <- Hh.
      replace (Size (deref (alter (set_Size 0) r (heap s2)) c))
        with (Size (deref (heap s1) c)).
      * rewrite <- Ht. apply (IH _ _ _ Hinv2); [congruence | exact Hra].
      * rewrite Hh, !deref_alter_ne by lia. reflexivity.
    + destruct Hcalc as [-> ->].
      apply (IH (done ++ [(name, StatFails err)])); auto.
      now apply loop_inv_skip.
Qed.

Lemma plain_spec (fs : FsNode) : plain_ok fs.
Proof.
  induction fs as [err|size|err|entries IH] using FsNode_ind;
    intros path parent s r Hpar Hroot Hr.
  - reflexivity.
  - cbn [calculateDirSizeWithProgress calculateDirSize new_DirInfo].
    unfold incr_files, with_heap.
    cbn [fst snd heap currentRoot progressChan filesScanned dirsScanned published receives].
    rewrite length_alter. f_equal.
    rewrite <- (alter_app_l _ (heap s)) by exact Hr.
    apply list_alter_alter_ne. lia.
  - cbn [calculateDirSizeWithProgress calculateDirSize new_DirInfo].
    unfold incr_dirs, with_heap.
    cbn [fst snd heap currentRoot progressChan filesScanned dirsScanned published receives].
    rewrite length_alter. f_equal.
    rewrite <- (alter_app_l _ (heap s)) by exact Hr.
    apply list_alter_alter_ne. lia.
  - rewrite calc_Directory, plain_Directory. cbv zeta.
    rewrite length_alter.
    pose proof (loop_inv_start path parent s) as Hstart.
    set (a := length (heap s)) in *.
    destruct (new_DirInfo path parent true s) as [a' s0] eqn:Hnew.
    assert (a' = a) as -> by (unfold new_DirInfo in Hnew; now inversion Hnew).
    assert (Hh0 : heap (incr_dirs s0) = heap s ++ [mkDirInfo path 0 [] parent true None])
      by (unfold new_DirInfo in Hnew; inversion Hnew; reflexivity).
    assert (Hr0 : currentRoot (incr_dirs s0) = Some r).
    { unfold new_DirInfo in Hnew. inversion Hnew; subst. cbn.
      rewrite Hroot. now destruct parent. }
    cbn [snd] in Hstart.
    assert (Hsubs : Forall (fun e => calc_ok (snd e)) entries)
      by (apply Forall_forall; intros e _; apply calc_spec).
    destruct (scan_entries_spec path parent a entries Hsubs [] 0 (incr_dirs s0) Hstart)
      as (Hinv & _ & _).
    rewrite <- (alter_app_l _ (heap s)) by exact Hr. rewrite <- Hh0.
    rewrite (same_entries path parent a r entries IH [] 0 (incr_dirs s0)
               Hstart Hr0 ltac:(unfold a; lia)).
    destruct (scan_entries path a entries 0 (incr_dirs s0)) as [total s1].
    cbn [fst snd app] in *. unfold with_heap. cbn [fst snd heap].
    f_equal.
    pose proof (li_valid _ _ _ _ _ _ Hinv) as Hv.
    rewrite (list_alter_alter_ne (set_Size total) (set_Size 0)) by (unfold a; lia).
    rewrite (list_alter_alter_ne _ (set_Size 0)) by (unfold a; lia).
    f_equal. apply list_alter_ext; [|reflexivity].
    intros d Hd. f_equal. apply sort_Slice_ext.
    assert (Hch : forall x, x ∈ Children d -> x <> r).
    { intros x Hx.
      assert (Hd' : d = set_Size total (deref (heap s1) a)).
      { rewrite list_lookup_alter_eq in Hd. unfold deref.
        destruct (heap s1 !! a); cbn in Hd |- *; congruence. }
      rewrite Hd' in Hx. cbn in Hx.
      destruct (li_child _ _ _ _ _ _ Hinv x Hx). unfold a in *. lia. }
    intros x y Hx Hy. unfold size_less.
    pose proof (Hch x Hx). pose proof (Hch y Hy).
    rewrite (deref_alter_ne _ _ r x), (deref_alter_ne _ _ r y) by congruence.
    reflexivity.
Qed.

(** The call on the root of the scan, started on an empty store. *)
Lemma plain_root (path : string) (fs : FsNode) (s0 : ScanState) :
  heap s0 = [] -> currentRoot s0 = None ->
  calculateDirSize fs path None []
  = (fst (calculateDirSizeWithProgress fs path None s0),
     heap (snd (calculateDirSizeWithProgress fs path None s0))).
Proof.
  destruct s0 as [h0 r0 ch f d pub rc]. cbn [heap currentRoot].
  intros -> ->.
  set (s0 := mkScan [] None ch f d pub rc).
  destruct fs as [err|size|err|entries]; try reflexivity.
  rewrite calc_Directory, plain_Directory. cbv zeta.
  change (new_DirInfo path None true s0)
    with (0%nat, mkScan [mkDirInfo path 0 [] None true None] (Some 0%nat)
                   ch f d pub rc).
  cbv beta iota.
  pose proof (loop_inv_start path None s0) as Hstart.
  set (s1 := incr_dirs _) in *.
  change (loop_inv path None 0%nat [] 0 s1) in Hstart.
  assert (Hsubs : Forall (fun e => plain_ok (snd e)) entries)
    by (apply Forall_forall; intros e _; apply plain_spec).
  pose proof (same_entries path None 0%nat 0%nat entries Hsubs [] 0 s1
                Hstart eq_refl (le_n 0)) as Hloop.
  change (alter (set_Size 0) 0%nat (heap s1))
    with ([] ++ [mkDirInfo path 0 [] None true None]) in Hloop.
  change (length (@nil DirInfo)) with 0%nat.
  rewrite Hloop.
  destruct (scan_entries path 0%nat entries 0 s1) as [total s2].
  cbn [fst snd]. unfold with_heap. cbn [fst snd heap].
  rewrite (list_alter_alter_eq (set_Size total) (set_Size 0)).
  replace (alter (set_Size total ∘ set_Size 0) 0%nat (heap s2))
    with (alter (set_Size total) 0%nat (heap s2))
    by (apply list_alter_ext; [intros x _|]; reflexivity).
  reflexivity.
Qed.

(** X14.  The scan with progress reports builds what the plain scan,
    [calculateDirSize], builds: the same store, and the same root or the
    same error. *)
Theorem plain_scan_same (path : string) (fs : FsNode) :
  snd (calculateDirSize fs path None []) = heap (snd (scanDirectory path fs)) /\
  match fst (calculateDirSize fs path None []) with
  | inl root => fst (scanDirectory path fs) = mkScanComplete (Some root) None
  | inr err => fst (scanDirectory path fs) = mkScanComplete None (Some err)
  end.
Proof.
  rewrite (plain_root path fs initial_scan eq_refl eq_refl).
  unfold scanDirectory, scanDirectory_from.
  destruct (calculateDirSizeWithProgress fs path None initial_scan)
    as [[root|err] s]; cbn [fst snd]; [|auto].
  split; [|reflexivity].
  destruct (currentRoot s); [now rewrite try_send_heap | reflexivity].
Qed.

(** ** The progress channel when the scan is over *)

(** The channel when the call on the root of the scan returns. *)
Lemma root_chan (recv : list nat) (path : string) (fs : FsNode) (root : ptr)
    (s : ScanState) :
  calculateDirSizeWithProgress fs path None (scan_during recv) = (inl root, s) ->
  root = 0%nat /\ currentRoot s = Some 0%nat /\
  chan_ok 0%nat (scan_during recv) s /\
  (recv = [] ->
   receives s = [] /\
   length (progressChan s)
   = Nat.min chan_capacity (length (Children (deref (heap s) 0%nat)))).
Proof.
  intros Hrun.
  pose proof (calc_spec fs path None (scan_during recv)) as Hcalc.
  rewrite Hrun in Hcalc.
  destruct Hcalc as [_ [Hptr _ _ _ _ Hnode _]]; [intros q Hq; discriminate|].
  cbn in Hptr. subst root. split; [reflexivity|].
  assert (Hleaf : forall s',
            currentRoot s' = Some 0%nat -> progressChan s' = [] ->
            0 <= filesScanned s' -> 0 <= dirsScanned s' ->
            chan_ok 0%nat (scan_during recv) s').
  { intros s' _ Hc Hf Hd. unfold chan_ok. rewrite Hc.
    split; [cbn; lia|]. split; [intros p Hp; inversion Hp|].
    split; [apply counters_grow_short; cbn; lia|]. cbn. lia. }
  destruct fs as [err|size|err|entries].
  - discriminate.
  - cbn in Hrun. inversion Hrun; subst. clear Hrun.
    split; [reflexivity|]. split.
    + apply Hleaf; cbn; try reflexivity; lia.
    + intros ->. split; reflexivity.
  - cbn in Hrun. inversion Hrun; subst. clear Hrun.
    split; [reflexivity|]. split.
    + apply Hleaf; cbn; try reflexivity; lia.
    + intros ->. split; reflexivity.
  - destruct Hnode as (_ & _ & _ & Hpaths).
    apply Permutation_length in Hpaths. rewrite length_map in Hpaths.
    rewrite calc_Directory in Hrun.
    change (new_DirInfo path None true (scan_during recv))
      with (0%nat, mkScan [mkDirInfo path 0 [] None true None] (Some 0%nat)
                     [] 0 0 [] recv) in Hrun.
    cbv beta iota zeta in Hrun.
    set (s1 := incr_dirs _) in Hrun.
    assert (Hok1 : chan_ok 0%nat (scan_during recv) s1)
      by (apply Hleaf; cbn; try reflexivity; lia).
    destruct (chan_entries path 0%nat (scan_during recv) entries 0 s1 eq_refl)
      as (R1 & _ & F1 & D1 & Hok & Hidle); [cbn; lia | exact Hok1|].
    destruct (scan_entries path 0%nat entries 0 s1) as [total s2].
    cbn [snd] in *. inversion Hrun; subst s. clear Hrun.
    unfold with_heap in *. unfold chan_ok in *.
    cbn [heap currentRoot progressChan filesScanned dirsScanned published receives] in *.
    split; [exact R1|]. split.
    + destruct Hok as (Hcap & Hbetween & Hgrow & Hf & Hd).
      split; [exact Hcap|]. split; [|split; [exact Hgrow | lia]].
      intros p Hp. destruct (Hbetween p Hp) as (Hr & Hpf & Hpd).
      cbn in *. repeat split; auto; lia.
    + intros ->. destruct (Hidle eq_refl) as [V N]. split; [exact V|].
      rewrite N, Hpaths. reflexivity.
Qed.

(** X13.  The scan never waits on the progress channel, whatever the
    message loop takes out of it meanwhile: the root, the error and the
    store that [scanDirectory] leaves do not depend on what is received.
    When it is over the channel holds at most what it has room for; every
    message in it names the root; the counters never go down from one
    message to the next and never exceed the final ones; and the last
    message carries the final counters and the size of the root unless the
    channel was full when it was to be sent.  When nothing was received
    meanwhile, the channel holds one message for each child of the root
    and the final one, up to its capacity. *)
Theorem progress_channel (recv : list nat) (path : string) (fs : FsNode)
    (r : ptr) :
  sc_root (fst (scanDirectory path fs)) = Some r ->
  let s := snd (scanDirectory_from (scan_during recv) path fs) in
  let n := length (Children (deref (heap s) r)) in
  let final := mkProgress (Some r) (fs_files fs) (fs_dirs fs)
                 (wrap64 (fs_bytes fs)) in
  fst (scanDirectory_from (scan_during recv) path fs)
    = fst (scanDirectory path fs) /\
  heap s = heap (snd (scanDirectory path fs)) /\
  (length (progressChan s) <= chan_capacity)%nat /\
  (forall p, p ∈ progressChan s ->
     pm_root p = Some r /\
     (0 <= pm_filesScanned p /\ pm_filesScanned p <= fs_files fs) /\
     (0 <= pm_dirsScanned p /\ pm_dirsScanned p <= fs_dirs fs)) /\
  counters_grow (progressChan s) /\
  (last (progressChan s) = Some final \/
   length (progressChan s) = chan_capacity) /\
  (recv = [] ->
   length (progressChan s) = Nat.min chan_capacity (n + 1) /\
   ((n < chan_capacity)%nat -> last (progressChan s) = Some final)).
Proof.
  intros Hr.
  assert (Hsame : fst (scanDirectory_from (scan_during recv) path fs)
                  = fst (scanDirectory path fs) /\
                  heap (snd (scanDirectory_from (scan_during recv) path fs))
                  = heap (snd (scanDirectory path fs))).
  { pose proof (plain_root path fs (scan_during recv) eq_refl eq_refl) as H1.
    pose proof (plain_root path fs initial_scan eq_refl eq_refl) as H2.
    rewrite H1 in H2. clear H1.
    unfold scanDirectory, scanDirectory_from.
    destruct (calculateDirSizeWithProgress fs path None (scan_during recv))
      as [[r1|e1] s1];
      destruct (calculateDirSizeWithProgress fs path None initial_scan)
        as [[r2|e2] s2]; cbn [fst snd] in *; inversion H2; subst.
    - split; [reflexivity|].
      destruct (currentRoot s1); destruct (currentRoot s2);
        rewrite ?try_send_heap; congruence.
    - split; [reflexivity | congruence]. }
  destruct Hsame as [Hfst Hheap]. rewrite <- Hfst in Hr. clear Hfst Hheap.
  pose proof (plain_root path fs (scan_during recv) eq_refl eq_refl) as H1.
  pose proof (plain_root path fs initial_scan eq_refl eq_refl) as H2.
  rewrite H1 in H2. clear H1.
  revert Hr H2. unfold scanDirectory, scanDirectory_from.
  pose proof (tally_spec fs path None (scan_during recv)) as Htal.
  pose proof (root_chan recv path fs) as Hchan.
  destruct (calculateDirSizeWithProgress fs path None (scan_during recv))
    as [[root|err] s]; cbn [fst snd sc_root]; [|discriminate].
  intros [= <-] H2.
  destruct Htal as [Hf Hd _ Hsz _ _]; [intros q Hq; discriminate|].
  destruct (Hchan root s eq_refl)
    as (-> & Hroot & (Hcap & Hbetween & Hgrow & _ & _) & Hidle).
  cbn in Hf, Hd. rewrite Hroot. cbv zeta.
  destruct (calculateDirSizeWithProgress fs path None initial_scan)
    as [[r2|e2] s2]; cbn [fst snd] in H2; inversion H2; subst.
  split; [reflexivity|]. split.
  { cbn [snd]. destruct (currentRoot s2); rewrite ?try_send_heap; congruence. }
  rewrite try_send_heap. unfold try_send.
  cbn [heap currentRoot progressChan filesScanned dirsScanned published receives].
  rewrite Hf, Hd, Hsz.
  pose proof (fs_files_nonneg fs) as Hfn. pose proof (fs_dirs_nonneg fs) as Hdn.
  set (final := mkProgress (Some 0%nat) (fs_files fs) (fs_dirs fs)
                  (wrap64 (fs_bytes fs))).
  set (chan := drop (hd 0%nat (receives s)) (progressChan s)).
  assert (Hchan_len : (length chan <= length (progressChan s))%nat)
    by (unfold chan; rewrite length_drop; lia).
  assert (Hall : forall p, p ∈ chan ->
            pm_root p = Some 0%nat /\
            (0 <= pm_filesScanned p /\ pm_filesScanned p <= fs_files fs) /\
            (0 <= pm_dirsScanned p /\ pm_dirsScanned p <= fs_dirs fs)).
  { intros p Hp. destruct (Hbetween p (elem_of_drop _ _ _ Hp)) as (Hpr & Hpf & Hpd).
    cbn in Hpf, Hpd. repeat split; auto; lia. }
  assert (Hgrow' : counters_grow chan) by now apply counters_grow_drop.
  unfold chan_capacity in *.
  destruct (length chan <? 100)%nat eqn:E;
    [apply Nat.ltb_lt in E | apply Nat.ltb_ge in E];
    cbn [heap currentRoot progressChan filesScanned dirsScanned published receives].
  - split; [rewrite length_app; cbn [length]; lia|]. split; [|split; [|split]].
    + intros p Hp. apply elem_of_app in Hp as [Hp|Hp]; [now apply Hall|].
      apply list_elem_of_singleton in Hp. subst p. cbn. repeat split; auto; lia.
    + apply counters_grow_app; [exact Hgrow' | |].
      * apply counters_grow_short. cbn. lia.
      * intros p q Hp Hq. apply list_elem_of_singleton in Hq. subst q. cbn.
        destruct (Hall p Hp) as (_ & Hpf & Hpd). lia.
    + left. apply last_snoc.
    + intros ->. destruct (Hidle eq_refl) as [V N].
      assert (Hch : chan = progressChan s)
        by (unfold chan; rewrite V; apply drop_0).
      rewrite Hch in *. rewrite length_app. cbn [length].
      split; [lia|]. intros _. apply last_snoc.
  - split; [lia|]. split; [exact Hall|]. split; [exact Hgrow'|].
    split; [right; lia|].
    intros ->. destruct (Hidle eq_refl) as [V N].
    assert (Hch : chan = progressChan s)
      by (unfold chan; rewrite V; apply drop_0).
    rewrite Hch in *. split; lia.
Qed.

Lemma progress_channel_witness :
  let s := snd (scanDirectory_from (scan_during [0; 1]%nat) "." example_fs) in
  heap s = heap (snd (scanDirectory "." example_fs)) /\
  length (progressChan s) = 2%nat /\
  last (progressChan s) = Some (mkProgress (Some 0%nat) 2 2 2000) /\
  length (progressChan (snd (scanDirectory "." example_fs))) = 3%nat.
Proof.
  intros s.
  destruct (progress_channel [0; 1]%nat "." example_fs 0%nat eq_refl)
    as (_ & Hheap & _ & _ & _ & Hlast & _).
  destruct (progress_channel [] "." example_fs 0%nat eq_refl)
    as (_ & _ & _ & _ & _ & _ & Hidle).
  destruct (Hidle eq_refl) as [Hlen _].
  split; [exact Hheap|]. split; [vm_compute; reflexivity|].
  split; [|exact Hlen].
  destruct Hlast as [Hlast|Hfull]; [exact Hlast|].
  vm_compute in Hfull. discriminate.
Defined.

(** ** No message makes the program panic *)

Ltac quit_no :=
  intros [= <- <- <-]; split;
  [discriminate
  | let k := fresh "k" in let Hk := fresh "Hk" in let Hkq := fresh "Hkq" in
    intros (k & Hk & Hkq); try discriminate; congruence].

(** X15.  In every state of a session [Update] handles every message that
    the runtime can deliver: it returns a state and a command, and neither
    the index [m.cursor] into the children of the current directory nor a
    [nil] current directory or parent makes it panic.  The command is
    [tea.Quit] exactly when the message is the key [q] or [ctrl+c], and
    then the state is left as it was. *)
Theorem update_never_panics (path : string) (fs : FsNode) (w : World)
    (m : model) (msg : Msg) :
  reach path fs w m -> deliverable path fs m msg ->
  exists w' m' c,
    Update w m msg = Ret (w', m', c) /\
    (c = CmdQuit <->
     exists key, msg = KeyMsg key /\ key_in key ["ctrl+c"; "q"]%string = true) /\
    (c = CmdQuit -> w' = w /\ m' = m).
Proof.
  intros Hreach Hmsg.
  destruct (Inv_step path fs w m msg (reach_Inv path fs w m Hreach) Hmsg)
    as (w' & m' & c & Hrun & _).
  exists w', m', c. split; [exact Hrun|].
  assert (Hquit : c = CmdQuit <->
            exists key, msg = KeyMsg key /\
                        key_in key ["ctrl+c"; "q"]%string = true).
  { revert Hrun. destruct msg as [wd ht|sc| | |t err name|key]; cbn [Update].
    - quit_no.
    - quit_no.
    - destruct (scanning m); [destruct (w_chan w)|]; quit_no.
    - destruct (deleting m); quit_no.
    - destruct err as [e|]; [quit_no|].
      destruct (detach _ _ _) as [[h1 m1]| |]; unfold mbind, outcome_bind;
        [quit_no | discriminate..].
    - destruct (key_in key ["ctrl+c"; "q"]%string) eqn:Hq.
      + destruct (scanning m || deleting m); intros [= <- <- <-];
          (split; [intros _; eauto | reflexivity]).
      + destruct (scanning m || deleting m); [quit_no|].
        destruct (key_in key ["up"; "k"]%string); [quit_no|].
        destruct (key_in key ["down"; "j"]%string); [quit_no|].
        destruct (key_in key ["enter"; "right"; "l"]%string).
        { destruct (enter _ _) as [m1| |]; unfold mbind, outcome_bind;
            [quit_no | discriminate..]. }
        destruct (key_in key ["left"; "h"; "backspace"]%string); [quit_no|].
        destruct (String.eqb key "s").
        { destruct (toggleSort _ _) as [[h1 m1]| |]; unfold mbind, outcome_bind;
            [quit_no | discriminate..]. }
        destruct (String.eqb key "home"); [quit_no|].
        destruct (String.eqb key "d"); [|quit_no].
        unfold startDelete, mbind, outcome_bind.
        destruct (currentDir m) as [cd|]; [|quit_no].
        destruct (0 <? len _); [|quit_no].
        destruct (index_slice _ _) as [t| |]; [quit_no | discriminate..]. }
  split; [exact Hquit|].
  intros Hc. apply Hquit in Hc as (key & -> & Hq).
  cbn [Update] in Hrun. rewrite Hq in Hrun.
  destruct (scanning m || deleting m); inversion Hrun; auto.
Qed.

Lemma update_never_panics_witness :
  exists w m w' m' c,
    session "." example_fs [EvScanComplete; EvKey "down"] = Some (w, m) /\
    Update w m (KeyMsg "d") = Ret (w', m', c) /\ c <> CmdQuit.
Proof.
  eexists _, _.
  assert (Hsess : session "." example_fs [EvScanComplete; EvKey "down"]
                  = Some (fst (default (mkWorld [] [], initialModel)
                            (session "." example_fs
                               [EvScanComplete; EvKey "down"])),
                          snd (default (mkWorld [] [], initialModel)
                            (session "." example_fs
                               [EvScanComplete; EvKey "down"]))))
    by (vm_compute; reflexivity).
  destruct (update_never_panics "." example_fs _ _ (KeyMsg "d")
              (session_reach _ _ _ _ _ Hsess) I)
    as (w' & m' & c & Hrun & Hquit & _).
  exists w', m', c. split; [exact Hsess|]. split; [exact Hrun|].
  intros Hc. apply Hquit in Hc as (key & [= <-] & Hq). vm_compute in Hq.
  discriminate.
Defined.

(** ** The size formatter *)

Lemma round_half_even_near (num den : Z) :
  0 < den -> 2 * Z.abs (num - round_half_even num den * den) <= den.
Proof.
  intros Hden. unfold round_half_even.
  pose proof (Z.div_mod num den ltac:(lia)) as Hdm.
  pose proof (Z.mod_pos_bound num den Hden) as Hr.
  repeat case_match; rewrite ?Z.ltb_lt, ?Z.ltb_ge in *; nia.
Qed.

Lemma scale_loop_spec (k : nat) :
  forall (fuel : nat) (n div : Z) (exp : nat),
    (k < fuel)%nat -> 0 <= n < 1024 ^ (Z.of_nat k + 1) ->
    (k = O \/ 1024 ^ Z.of_nat k <= n) ->
    0 < div -> div * 1024 ^ Z.of_nat k <= max_int64 ->
    scale_loop fuel n div exp = (div * 1024 ^ Z.of_nat k, (exp + k)%nat).
Proof.
  induction k as [|k IH]; intros fuel n div exp Hfuel Hn Hlow Hdiv Hmax;
    destruct fuel as [|fuel]; try lia; cbn [scale_loop].
  - replace (1024 <=? n) with false by (symmetry; apply Z.leb_gt; lia).
    f_equal; lia.
  - assert (Hpow : 1024 ^ Z.of_nat (S k) = 1024 * 1024 ^ Z.of_nat k)
      by (rewrite Nat2Z.inj_succ, Z.pow_succ_r; lia).
    assert (Hpow2 : 1024 ^ (Z.of_nat (S k) + 1) = 1024 * 1024 ^ (Z.of_nat k + 1))
      by (replace (Z.of_nat (S k) + 1) with (Z.succ (Z.of_nat k + 1)) by lia;
          rewrite Z.pow_succ_r; lia).
    assert (Hk : 0 < 1024 ^ Z.of_nat k) by (apply Z.pow_pos_nonneg; lia).
    destruct Hlow as [|Hlow]; [discriminate|].
    replace (1024 <=? n) with true by (symmetry; apply Z.leb_le; nia).
    rewrite Z.quot_div_nonneg by lia.
    assert (Hm : mul64 div 1024 = div * 1024).
    { unfold mul64, wrap64, max_int64 in *.
      rewrite Z.mod_small; [lia|]. rewrite Hpow in Hmax. nia. }
    rewrite Hm. rewrite Hpow, Hpow2 in *.
    rewrite IH; try lia.
    + f_equal; [ring | lia].
    + split; [apply Z.div_pos; lia|].
      apply Z.div_lt_upper_bound; lia.
    + right. apply Z.div_le_lower_bound; lia.
Qed.

Lemma string_append_assoc (a b c : string) :
  ((a ++ b) ++ c = a ++ (b ++ c))%string.
Proof. induction a as [|x a IH]; cbn; [reflexivity | now rewrite IH]. Qed.

Lemma digit_length (d : Z) : 0 <= d < 10 -> String.length (sprintf_d d) = 1%nat.
Proof.
  intros Hd.
  assert (d = 0 \/ d = 1 \/ d = 2 \/ d = 3 \/ d = 4 \/ d = 5 \/ d = 6 \/ d = 7
          \/ d = 8 \/ d = 9) as Hcases by lia.
  repeat (destruct Hcases as [->|Hcases]; [reflexivity|]). subst; reflexivity.
Qed.

Lemma formatSize_scaled (b : Z) (k : nat) :
  (k < 6)%nat -> 1024 ^ (Z.of_nat k + 1) <= b < 1024 ^ (Z.of_nat k + 2) ->
  formatSize b =
    (sprintf_1f (float64_of_int b) (1024 ^ (Z.of_nat k + 1))
       ++ " " ++ unit_char k ++ "B")%string.
Proof.
  intros Hk Hb. unfold formatSize.
  assert (H1024 : 1024 <= 1024 ^ (Z.of_nat k + 1)).
  { rewrite Z.pow_add_r by lia.
    assert (0 < 1024 ^ Z.of_nat k) by (apply Z.pow_pos_nonneg; lia). lia. }
  replace (b <? 1024) with false by (symmetry; apply Z.ltb_ge; lia).
  rewrite Z.quot_div_nonneg by lia.
  assert (Hpow1 : 1024 ^ (Z.of_nat k + 1) = 1024 * 1024 ^ Z.of_nat k)
    by (rewrite Z.pow_add_r by lia; lia).
  assert (Hpow2 : 1024 ^ (Z.of_nat k + 2) = 1024 * 1024 ^ (Z.of_nat k + 1))
    by (replace (Z.of_nat k + 2) with (Z.succ (Z.of_nat k + 1)) by lia;
        rewrite Z.pow_succ_r; lia).
  rewrite (scale_loop_spec k 64 (b / 1024) 1024 O); try lia.
  - cbn [Nat.add]. rewrite <- Hpow1.
    replace (float64_of_int (1024 ^ (Z.of_nat k + 1)))
      with (1024 ^ (Z.of_nat k + 1)); [reflexivity|].
    do 6 (destruct k as [|k]; [vm_compute; reflexivity|]). lia.
  - split; [apply Z.div_pos; lia|]. apply Z.div_lt_upper_bound; lia.
  - right. apply Z.div_le_lower_bound; lia.
  - do 6 (destruct k as [|k]; [vm_compute; discriminate|]). lia.
Qed.

(** C9.  [formatSize] prints a count below 1024 as the integer followed by
    [" B"]; a larger [int64] count [b], with [1024^(e+1) <= b < 1024^(e+2)],
    as the tenth nearest to [float64(b) / 1024^(e+1)], written with one
    decimal digit, followed by the [e]-th unit of K, M, G, T, P, E; and the
    five values of the specification come out as it says. *)
Theorem formatSize_spec :
  (forall b : Z, b < 1024 -> formatSize b = (sprintf_d b ++ " B")%string) /\
  (forall b : Z, 1024 <= b <= max_int64 ->
     exists (e : nat) (t : Z),
       (e < 6)%nat /\
       1024 ^ (Z.of_nat e + 1) <= b < 1024 ^ (Z.of_nat e + 2) /\
       2 * Z.abs (10 * float64_of_int b - t * 1024 ^ (Z.of_nat e + 1))
         <= 1024 ^ (Z.of_nat e + 1) /\
       String.length (sprintf_d (t mod 10)) = 1%nat /\
       formatSize b =
         (sprintf_d (t / 10) ++ "." ++ sprintf_d (t mod 10) ++ " "
            ++ unit_char e ++ "B")%string) /\
  formatSize 0 = "0 B"%string /\
  formatSize 1023 = "1023 B"%string /\
  formatSize 1024 = "1.0 KB"%string /\
  formatSize 1536 = "1.5 KB"%string /\
  formatSize 1048576 = "1.0 MB"%string.
Proof.
  split; [|split; [|repeat split; reflexivity]].
  - intros b Hb. unfold formatSize.
    replace (b <? 1024) with true by (symmetry; apply Z.ltb_lt; lia).
    reflexivity.
  - intros b Hb. unfold max_int64 in Hb.
    assert (exists e : nat, (e < 6)%nat /\
              1024 ^ (Z.of_nat e + 1) <= b < 1024 ^ (Z.of_nat e + 2))
      as (e & He & Hrange).
    { destruct (Z_lt_dec b (1024 ^ 2)); [exists 0%nat; cbn; lia|].
      destruct (Z_lt_dec b (1024 ^ 3)); [exists 1%nat; cbn; lia|].
      destruct (Z_lt_dec b (1024 ^ 4)); [exists 2%nat; cbn; lia|].
      destruct (Z_lt_dec b (1024 ^ 5)); [exists 3%nat; cbn; lia|].
      destruct (Z_lt_dec b (1024 ^ 6)); [exists 4%nat; cbn; lia|].
      exists 5%nat; cbn; lia. }
    exists e, (tenths (float64_of_int b) (1024 ^ (Z.of_nat e + 1))).
    assert (Hpos : 0 < 1024 ^ (Z.of_nat e + 1)) by (apply Z.pow_pos_nonneg; lia).
    repeat split; try lia.
    + apply round_half_even_near; lia.
    + apply digit_length, Z.mod_pos_bound; lia.
    + rewrite (formatSize_scaled b e He Hrange). unfold sprintf_1f.
      rewrite !string_append_assoc. reflexivity.
Qed.

Lemma formatSize_spec_witness :
  formatSize 1000 = "1000 B"%string /\
  exists (e : nat) (t : Z),
    (e < 6)%nat /\ 1024 ^ (Z.of_nat e + 1) <= 1280 < 1024 ^ (Z.of_nat e + 2) /\
    2 * Z.abs (10 * float64_of_int 1280 - t * 1024 ^ (Z.of_nat e + 1))
      <= 1024 ^ (Z.of_nat e + 1) /\
    String.length (sprintf_d (t mod 10)) = 1%nat /\
    formatSize 1280 =
      (sprintf_d (t / 10) ++ "." ++ sprintf_d (t mod 10) ++ " "
         ++ unit_char e ++ "B")%string.
Proof.
  destruct formatSize_spec as (Hsmall & Hlarge & _). split.
  - apply (Hsmall 1000). lia.
  - apply (Hlarge 1280). unfold max_int64. lia.
Defined.

(** ** The number that the size formatter prints *)

Lemma float64_of_nonneg_exact (a : Z) :
  0 <= a < 2 ^ 53 -> float64_of_nonneg a = a.
Proof.
  intros Ha. unfold float64_of_nonneg.
  assert (Hlog : Z.log2 a < 53).
  { destruct (Z.eq_dec a 0) as [->|Hne]; [cbn; lia|].
    apply Z.log2_lt_pow2; lia. }
  replace (Z.log2 a + 1 - 53 <=? 0) with true
    by (symmetry; apply Z.leb_le; lia).
  reflexivity.
Qed.

(** Rounding to 53 bits does not cross a power of two. *)
Lemma float64_of_nonneg_between (a p q : Z) :
  0 <= p <= q -> 2 ^ p <= a <= 2 ^ q -> Z.log2 a - 52 <= p ->
  2 ^ p <= float64_of_nonneg a <= 2 ^ q.
Proof.
  intros Hpq Ha Hlog. unfold float64_of_nonneg.
  set (k := Z.log2 a + 1 - 53).
  destruct (k <=? 0) eqn:Hk; [lia|]. apply Z.leb_gt in Hk.
  assert (Hu : 0 < 2 ^ k) by (apply Z.pow_pos_nonneg; lia).
  pose proof (round_half_even_near a (2 ^ k) Hu) as Hnear.
  set (r := round_half_even a (2 ^ k)) in *.
  assert (Hp : 2 ^ p = 2 ^ (p - k) * 2 ^ k)
    by (rewrite <- Z.pow_add_r by lia; f_equal; lia).
  assert (Hq : 2 ^ q = 2 ^ (q - k) * 2 ^ k)
    by (rewrite <- Z.pow_add_r by lia; f_equal; lia).
  rewrite Hp, Hq in *.
  set (A := 2 ^ (p - k)) in *. set (B := 2 ^ (q - k)) in *.
  set (u := 2 ^ k) in *.
  assert (A <= r) by nia. assert (r <= B) by nia. nia.
Qed.

(** X16.  For a count of at least 1024 bytes the number that [formatSize]
    prints lies between 1.0 and 1024.0, whatever the rounding to [float64]
    and to one decimal does, and the unit is one of K, M, G, T, P, E: the
    index into the units stays in range for every [int64].  Below 2^53
    bytes the conversion to [float64] is exact, so that the number is the
    count divided by the unit, rounded to the nearest tenth, ties to even. *)
Theorem formatSize_mantissa (b : Z) :
  1024 <= b <= max_int64 ->
  exists (e : nat) (t : Z),
    (e < 6)%nat /\
    1024 ^ (Z.of_nat e + 1) <= b < 1024 ^ (Z.of_nat e + 2) /\
    formatSize b =
      (sprintf_d (t / 10) ++ "." ++ sprintf_d (t mod 10) ++ " "
         ++ unit_char e ++ "B")%string /\
    10 <= t <= 10240 /\
    (b < 2 ^ 53 -> t = round_half_even (10 * b) (1024 ^ (Z.of_nat e + 1))).
Proof.
  intros Hb. unfold max_int64 in Hb.
  assert (exists e : nat, (e < 6)%nat /\
            1024 ^ (Z.of_nat e + 1) <= b < 1024 ^ (Z.of_nat e + 2))
    as (e & He & Hrange).
  { destruct (Z_lt_dec b (1024 ^ 2)); [exists 0%nat; cbn; lia|].
    destruct (Z_lt_dec b (1024 ^ 3)); [exists 1%nat; cbn; lia|].
    destruct (Z_lt_dec b (1024 ^ 4)); [exists 2%nat; cbn; lia|].
    destruct (Z_lt_dec b (1024 ^ 5)); [exists 3%nat; cbn; lia|].
    destruct (Z_lt_dec b (1024 ^ 6)); [exists 4%nat; cbn; lia|].
    exists 5%nat; cbn; lia. }
  exists e, (tenths (float64_of_int b) (1024 ^ (Z.of_nat e + 1))).
  split; [exact He|]. split; [exact Hrange|]. split.
  { rewrite (formatSize_scaled b e He Hrange). unfold sprintf_1f.
    rewrite !string_append_assoc. reflexivity. }
  assert (Hfloat : float64_of_int b = float64_of_nonneg b).
  { unfold float64_of_int.
    replace (b <? 0) with false by (symmetry; apply Z.ltb_ge; lia).
    reflexivity. }
  rewrite Hfloat.
  set (p := 10 * (Z.of_nat e + 1)).
  assert (Hd : 1024 ^ (Z.of_nat e + 1) = 2 ^ p).
  { unfold p. change 1024 with (2 ^ 10). rewrite <- Z.pow_mul_r by lia.
    reflexivity. }
  assert (Hd2 : 1024 ^ (Z.of_nat e + 2) = 2 ^ (p + 10)).
  { unfold p. change 1024 with (2 ^ 10). rewrite <- Z.pow_mul_r by lia.
    f_equal. lia. }
  rewrite Hd, Hd2 in *.
  assert (Hlog : Z.log2 b < p + 10) by (apply Z.log2_lt_pow2; lia).
  destruct (float64_of_nonneg_between b p (p + 10)) as [Hlo Hhi];
    [unfold p; lia | lia | lia|].
  assert (Hpos : 0 < 2 ^ p) by (apply Z.pow_pos_nonneg; unfold p; lia).
  split.
  - pose proof (round_half_even_near (10 * float64_of_nonneg b) (2 ^ p) Hpos)
      as Hnear.
    unfold tenths.
    set (t := round_half_even (10 * float64_of_nonneg b) (2 ^ p)) in *.
    rewrite Z.pow_add_r in Hhi by (unfold p; lia).
    change (2 ^ 10) with 1024 in Hhi.
    set (F := float64_of_nonneg b) in *. set (D := 2 ^ p) in *.
    split; nia.
  - intros Hsmall. now rewrite float64_of_nonneg_exact by lia.
Qed.

Lemma formatSize_mantissa_witness :
  formatSize 1048575 = "1024.0 KB"%string /\
  exists (e : nat) (t : Z),
    (e < 6)%nat /\
    1024 ^ (Z.of_nat e + 1) <= 1048575 < 1024 ^ (Z.of_nat e + 2) /\
    formatSize 1048575 =
      (sprintf_d (t / 10) ++ "." ++ sprintf_d (t mod 10) ++ " "
         ++ unit_char e ++ "B")%string /\
    10 <= t <= 10240 /\
    (1048575 < 2 ^ 53 ->
     t = round_half_even (10 * 1048575) (1024 ^ (Z.of_nat e + 1))).
Proof.
  split; [vm_compute; reflexivity|].
  apply (formatSize_mantissa 1048575). unfold max_int64. lia.
Defined.

(** ** The numbers of View *)

Lemma float64_of_int_bounds (a : Z) :
  0 <= a -> a <= 2 * float64_of_int a /\ float64_of_int a <= 2 * a.
Proof.
  intros Ha. unfold float64_of_int.
  replace (a <? 0) with false by (symmetry; apply Z.ltb_ge; lia).
  unfold float64_of_nonneg. set (k := Z.log2 a + 1 - 53).
  destruct (k <=? 0) eqn:Hk; [lia|]. apply Z.leb_gt in Hk.
  assert (Hpos : 0 < a).
  { destruct (Z.eq_dec a 0) as [->|]; [|lia]. unfold k in Hk. cbn in Hk. lia. }
  assert (Hu : 0 < 2 ^ k) by (apply Z.pow_pos_nonneg; lia).
  pose proof (round_half_even_near a (2 ^ k) Hu) as Hnear.
  assert (Hle : 2 ^ k <= a).
  { transitivity (2 ^ Z.log2 a); [apply Z.pow_le_mono_r; unfold k; lia|].
    apply Z.log2_spec. exact Hpos. }
  lia.
Qed.

Lemma round_to_int_near (x : Q) :
  (inject_Z (round_to_int x) - (1 # 2) <= x /\
   x <= inject_Z (round_to_int x) + (1 # 2))%Q.
Proof.
  destruct x as [n d]. unfold round_to_int. cbn [Qnum Qden].
  pose proof (round_half_even_near n (Zpos d) ltac:(lia)) as Hnear.
  set (r := round_half_even n (Z.pos d)) in *.
  unfold Qle, Qminus, Qplus, Qopp, inject_Z. cbn [Qnum Qden]. lia.
Qed.

Lemma Qpower_2_pos (k : Z) : (0 < 2 ^ k)%Q.
Proof. apply Qpower_0_lt. reflexivity. Qed.

Lemma float64_exponent_le (q : Q) :
  (0 < q)%Q -> (2 ^ float64_exponent q <= q)%Q.
Proof.
  intros Hq. unfold float64_exponent.
  destruct (Qle_bool _ (Qabs q)) eqn:Hb.
  - apply Qle_bool_imp_le in Hb. rewrite Qabs_pos in Hb by lra. exact Hb.
  - clear Hb. destruct q as [n d]. cbn [Qnum Qden] in *.
    assert (Hn : 0 < n) by (unfold Qlt in Hq; cbn in Hq; lia).
    rewrite Z.abs_eq by lia.
    pose proof (Z.log2_spec n Hn) as [Hlo _].
    pose proof (Z.log2_spec (Z.pos d) ltac:(lia)) as [_ Hhi].
    pose proof (Z.log2_nonneg n) as Hln.
    pose proof (Z.log2_nonneg (Z.pos d)) as Hld.
    set (ln := Z.log2 n) in *. set (ld := Z.log2 (Z.pos d)) in *.
    replace (ln - ld - 1) with (ln + - (Z.succ ld)) by lia.
    rewrite Qpower_plus by discriminate. rewrite Qpower_opp.
    change 2%Q with (inject_Z 2).
    rewrite <- !Zpower_Qpower by lia.
    assert (Hp1 : 0 < 2 ^ ln) by (apply Z.pow_pos_nonneg; lia).
    assert (Hp2 : 0 < 2 ^ Z.succ ld) by (apply Z.pow_pos_nonneg; lia).
    rewrite (Qmake_Qdiv n d).
    apply Qle_shift_div_l; [unfold Qlt; cbn; lia|].
    rewrite <- Qmult_assoc, (Qmult_comm (/ _)), Qmult_assoc.
    apply Qle_shift_div_r;
      [change 0%Q with (inject_Z 0); rewrite <- Zlt_Qlt; exact Hp2|].
    rewrite <- !inject_Z_mult, <- Zle_Qle. nia.
Qed.

(** Rounding keeps the sign and at most doubles. *)
Lemma float64_round_bounds (q : Q) :
  (0 <= q)%Q -> (0 <= float64_round q /\ float64_round q <= 2 * q)%Q.
Proof.
  intros Hq. unfold float64_round.
  destruct (Qeq_bool q 0) eqn:Hz.
  - apply Qeq_bool_eq in Hz. split; lra.
  - apply Qeq_bool_neq in Hz. assert (Hpos : (0 < q)%Q) by lra.
    pose proof (float64_exponent_le q Hpos) as He.
    set (e := float64_exponent q) in *.
    pose proof (Qpower_2_pos (e - 52)) as Hu.
    assert (Hsplit : (2 ^ e == 2 ^ (e - 52) * 2 ^ 52)%Q).
    { rewrite <- Qpower_plus by discriminate. now replace (e - 52 + 52) with e by lia. }
    set (u := (2 ^ (e - 52))%Q) in *.
    pose proof (round_to_int_near (q / u)) as [Hlo Hhi].
    set (r := inject_Z (round_to_int (q / u))) in *.
    assert (Hx : (q / u * u == q)%Q)
      by (rewrite Qmult_comm; apply Qmult_div_r; lra).
    assert (H52 : (1 <= 2 ^ 52)%Q) by (vm_compute; discriminate).
    assert (Hx1 : (1 <= q / u)%Q).
    { apply Qle_shift_div_l; [exact Hu|]. rewrite Hsplit in He.
      apply Qle_trans with (u * 2 ^ 52)%Q; [|exact He].
      rewrite Qmult_1_l. rewrite <- (Qmult_1_r u) at 1.
      apply Qmult_le_l; [exact Hu | exact H52]. }
    rewrite Qred_correct. set (x := (q / u)%Q) in *.
    assert (Hr0 : (0 <= r)%Q) by lra. assert (Hr2 : (r <= 2 * x)%Q) by lra.
    split.
    + apply Qmult_le_0_compat; lra.
    + rewrite <- Hx. rewrite Qmult_assoc.
      apply Qmult_le_compat_r; lra.
Qed.

Lemma int_of_float64_small (v : Q) (b : Z) :
  (0 <= v)%Q -> (v <= inject_Z b)%Q -> b <= max_int64 ->
  0 <= int_of_float64 v <= b.
Proof.
  intros Hlo Hhi Hb. destruct v as [n d]. unfold int_of_float64.
  cbn [Qnum Qden].
  assert (Hn : 0 <= n) by (unfold Qle in Hlo; cbn in Hlo; lia).
  assert (Hnb : n <= b * Z.pos d) by (unfold Qle in Hhi; cbn in Hhi; lia).
  rewrite Z.quot_div_nonneg by lia.
  assert (Ht : 0 <= n / Z.pos d <= b).
  { split; [apply Z.div_pos; lia|].
    apply Z.div_le_upper_bound; [lia|]. lia. }
  unfold min_int64, max_int64 in *.
  replace (- 2 ^ 63 <=? n / Z.pos d) with true by (symmetry; apply Z.leb_le; lia).
  replace (n / Z.pos d <=? 2 ^ 63 - 1) with true by (symmetry; apply Z.leb_le; lia).
  exact Ht.
Qed.

Lemma int_of_float64_negative (v : Q) :
  (v <= - 1)%Q -> int_of_float64 v < 0.
Proof.
  intros Hv. destruct v as [n d]. unfold int_of_float64. cbn [Qnum Qden].
  assert (Hn : n <= - Z.pos d) by (unfold Qle in Hv; cbn in Hv; lia).
  assert (Ht : Z.quot n (Z.pos d) < 0).
  { replace n with (- - n) by lia. rewrite Z.quot_opp_l by lia.
    rewrite Z.quot_div_nonneg by lia.
    assert (1 <= - n / Z.pos d) by (apply Z.div_le_lower_bound; lia). lia. }
  destruct (_ && _); [exact Ht | reflexivity].
Qed.

Lemma filledWidth_le (p : Q) : filledWidth p <= barWidth.
Proof.
  unfold filledWidth. cbv zeta.
  destruct (barWidth <? _) eqn:E; [lia | now apply Z.ltb_ge in E].
Qed.

Lemma fill_value_bounds (p : Q) :
  (0 <= p)%Q -> (p <= 1600)%Q ->
  (0 <= fill_value p /\ fill_value p <= 1280)%Q.
Proof.
  intros Hlo Hhi. unfold fill_value, float64_mul, float64_div, barWidth.
  assert (H1 : (0 <= p / 100 /\ p / 100 <= 16)%Q).
  { split; [apply Qle_shift_div_l; lra | apply Qle_shift_div_r; lra]. }
  pose proof (float64_round_bounds (p / 100) (proj1 H1)) as H2.
  set (r := float64_round (p / 100)) in *.
  assert (H3 : (0 <= r * inject_Z 20)%Q)
    by (apply Qmult_le_0_compat; [lra | discriminate]).
  pose proof (float64_round_bounds (r * inject_Z 20) H3) as H4.
  change (inject_Z 20) with 20%Q in *. lra.
Qed.

Lemma filledWidth_nonneg (p : Q) :
  (0 <= p)%Q -> (p <= 1600)%Q -> 0 <= filledWidth p.
Proof.
  intros Hlo Hhi. destruct (fill_value_bounds p Hlo Hhi) as [Hv0 Hv1].
  destruct (int_of_float64_small (fill_value p) 1280 Hv0 Hv1) as [Ht _];
    [unfold max_int64; lia|].
  unfold filledWidth. cbv zeta.
  destruct (barWidth <? _); [unfold barWidth; lia | exact Ht].
Qed.

Lemma filledWidth_negative (p : Q) :
  (fill_value p <= - 1)%Q -> filledWidth p < 0.
Proof.
  intros Hv. pose proof (int_of_float64_negative _ Hv) as Ht.
  unfold filledWidth. cbv zeta.
  destruct (barWidth <? _) eqn:E; [|exact Ht].
  apply Z.ltb_lt in E. unfold barWidth in E. lia.
Qed.

(** The percentage of a child that weighs no more than its directory. *)
Lemma percentage_bounds (h : Heap) (dir child : ptr) :
  0 <= Size (deref h child) <= Size (deref h dir) ->
  (0 <= percentage h dir child /\ percentage h dir child <= 1600)%Q.
Proof.
  intros [Hc Hcd]. unfold percentage.
  destruct (0 <? Size (deref h dir)) eqn:Hs; [|split; discriminate].
  apply Z.ltb_lt in Hs. unfold float64_mul, float64_div.
  destruct (float64_of_int_bounds _ Hc) as [Hx1 Hx2].
  destruct (float64_of_int_bounds (Size (deref h dir)) ltac:(lia)) as [Hy1 Hy2].
  set (X := float64_of_int (Size (deref h child))) in *.
  set (Y := float64_of_int (Size (deref h dir))) in *.
  assert (HY : (0 < inject_Z Y)%Q)
    by (change 0%Q with (inject_Z 0); rewrite <- Zlt_Qlt; lia).
  assert (H1 : (0 <= inject_Z X / inject_Z Y /\ inject_Z X / inject_Z Y <= 4)%Q).
  { split.
    - apply Qle_shift_div_l; [exact HY|]. rewrite Qmult_0_l.
      change 0%Q with (inject_Z 0). rewrite <- Zle_Qle. lia.
    - apply Qle_shift_div_r; [exact HY|].
      change 4%Q with (inject_Z 4). rewrite <- inject_Z_mult, <- Zle_Qle. lia. }
  pose proof (float64_round_bounds _ (proj1 H1)) as H2.
  set (r := float64_round (inject_Z X / inject_Z Y)) in *.
  assert (H3 : (0 <= r * 100)%Q) by (apply Qmult_le_0_compat; [lra | discriminate]).
  pose proof (float64_round_bounds _ H3) as H4. lra.
Qed.

Lemma zsum_nonneg (l : list Z) : Forall (fun y => 0 <= y) l -> 0 <= zsum l.
Proof.
  unfold zsum. induction 1 as [|y l Hy _ IH]; cbn; lia.
Qed.

Lemma zsum_nonneg_elem (l : list Z) (x : Z) :
  Forall (fun y => 0 <= y) l -> x ∈ l -> x <= zsum l /\ 0 <= zsum l.
Proof.
  intros Hall Hx. split; [|now apply zsum_nonneg].
  induction Hall as [|y l Hy Hall IH]; [inversion Hx|].
  pose proof (zsum_nonneg l Hall) as Hl. unfold zsum in *. cbn.
  apply elem_of_cons in Hx as [->|Hx]; [lia|]. specialize (IH Hx). lia.
Qed.

(** Where no sum wrapped around, a child weighs no more than the
    directory that holds it. *)
Lemma child_size_le (h : Heap) (dir c : ptr) :
  heap_ok h -> (dir < length h)%nat ->
  sizes_fit h (Children (deref h dir)) = true ->
  c ∈ Children (deref h dir) ->
  0 <= Size (deref h c) <= Size (deref h dir).
Proof.
  intros Hok Hdir Hfit Hc. unfold sizes_fit in Hfit.
  apply andb_true_iff in Hfit as [Hall Hsum].
  rewrite forallb_forall in Hall. apply Z.leb_le in Hsum.
  assert (Hnn : Forall (fun y => 0 <= y) (sizes h (Children (deref h dir)))).
  { unfold sizes. apply Forall_forall. intros y Hy.
    apply list_elem_of_fmap in Hy as (c' & -> & Hc').
    apply Z.leb_le, Hall. now apply list_elem_of_In. }
  assert (Hin : Size (deref h c) ∈ sizes h (Children (deref h dir))).
  { unfold sizes. apply list_elem_of_fmap. eauto. }
  destruct (zsum_nonneg_elem _ _ Hnn Hin) as [Hle Hz].
  destruct (IsDir (deref h dir)) eqn:Hd.
  - rewrite (ok_size _ _ (Hok dir Hdir) Hd), total_size_eq.
    rewrite wrap64_small by (unfold in_int64, min_int64, max_int64 in *; lia).
    split; [|exact Hle]. apply Z.leb_le, Hall. now apply list_elem_of_In.
  - rewrite (ok_file _ _ (Hok dir Hdir) Hd) in Hc. inversion Hc.
Qed.

(** ** View *)

Lemma maxItems_min (m : model) : 5 <= maxItems m.
Proof. unfold maxItems. destruct (height m - 8 <? 5) eqn:E; [lia|]. apply Z.ltb_ge in E. lia. Qed.

Lemma startIdx_window (m : model) :
  0 <= cursor m ->
  0 <= startIdx m /\ startIdx m <= cursor m /\ cursor m < startIdx m + maxItems m.
Proof.
  intros Hc. pose proof (maxItems_min m). unfold startIdx.
  destruct (maxItems m <=? cursor m) eqn:E;
    [apply Z.leb_le in E | apply Z.leb_gt in E]; lia.
Qed.

Lemma index_slice_lookup {A} (l : list A) (i : Z) (x : A) :
  0 <= i -> l !! Z.to_nat i = Some x -> index_slice l i = Ret x.
Proof.
  intros Hi Hx. unfold index_slice.
  apply lookup_lt_Some in Hx as Hlt.
  replace (0 <=? i) with true by (symmetry; apply Z.leb_le; lia).
  replace (i <? len l) with true by (symmetry; apply Z.ltb_lt; unfold len; lia).
  cbn. now rewrite Hx.
Qed.

(** The loop of the listing returns when no bar has a negative fill. *)
Lemma view_rows_spec (h : Heap) (m : model) (dir : ptr) (children : list ptr)
    (fuel : nat) :
  (forall c, c ∈ children -> 0 <= filledWidth (percentage h dir c)) ->
  forall i, 0 <= i -> len children - i <= Z.of_nat fuel ->
    exists rows,
      view_rows fuel h m dir children i = Ret rows /\
      Z.of_nat (length rows)
        = Z.max 0 (Z.min (len children) (startIdx m + maxItems m) - i) /\
      forall k r, rows !! k = Some r ->
        exists c, children !! (Z.to_nat i + k)%nat = Some c /\
          r = mkRow (formatSize (Size (deref h c)))
                (filledWidth (percentage h dir c))
                (filepath_Base (Path (deref h c))) (IsDir (deref h c))
                (i + Z.of_nat k =? cursor m).
Proof.
  intros Hfill.
  induction fuel as [|fuel IH]; intros i Hi Hfuel; cbn [view_rows].
  - replace (i <? len children) with false by (symmetry; apply Z.ltb_ge; lia).
    exists []. split; [reflexivity|]. split; [cbn; lia|]. intros k r Hk. inversion Hk.
  - destruct (i <? len children) eqn:E1; cbn [andb];
      [destruct (i <? startIdx m + maxItems m) eqn:E2|].
    + apply Z.ltb_lt in E1, E2.
      assert (Hlook : exists c, children !! Z.to_nat i = Some c)
        by (apply lookup_lt_is_Some_2; unfold len in E1; lia).
      destruct Hlook as [c Hc].
      rewrite (index_slice_lookup children i c Hi Hc).
      assert (Hin : c ∈ children) by (apply list_elem_of_lookup; eauto).
      pose proof (Hfill c Hin) as Hf0.
      pose proof (filledWidth_le (percentage h dir c)) as Hf1.
      destruct (IH (i + 1) ltac:(lia) ltac:(lia)) as (rest & Hrun & Hlen & Hrows).
      unfold strings_Repeat, mbind, outcome_bind.
      replace (filledWidth (percentage h dir c) <? 0) with false
        by (symmetry; apply Z.ltb_ge; lia).
      replace (barWidth - filledWidth (percentage h dir c) <? 0) with false
        by (symmetry; apply Z.ltb_ge; lia).
      rewrite Hrun.
      eexists. split; [reflexivity|]. split; [cbn [length]; lia|].
      intros [|k] r Hk; cbn in Hk.
      * inversion Hk; subst. exists c. rewrite Nat.add_0_r, Z.add_0_r. auto.
      * destruct (Hrows k r Hk) as (c' & Hc' & ->). exists c'.
        replace (Z.to_nat i + S k)%nat with (Z.to_nat (i + 1) + k)%nat by lia.
        split; [exact Hc'|]. do 2 f_equal. lia.
    + apply Z.ltb_lt in E1. apply Z.ltb_ge in E2.
      exists []. split; [reflexivity|]. split; [cbn; lia|].
      intros k r Hk. inversion Hk.
    + apply Z.ltb_ge in E1.
      exists []. split; [reflexivity|]. split; [cbn; lia|].
      intros k r Hk. inversion Hk.
Qed.

(** The loop of the listing panics when a child that it shows has a bar
    with a negative fill. *)
Lemma view_rows_panic (h : Heap) (m : model) (dir : ptr) (children : list ptr)
    (j : Z) (c : ptr) :
  children !! Z.to_nat j = Some c -> j < startIdx m + maxItems m ->
  filledWidth (percentage h dir c) < 0 ->
  forall fuel i, 0 <= i <= j -> len children - i <= Z.of_nat fuel ->
    view_rows fuel h m dir children i = Panic.
Proof.
  intros Hc Hj Hneg. apply lookup_lt_Some in Hc as Hlt.
  induction fuel as [|fuel IH]; intros i Hi Hfuel; [unfold len in Hfuel; lia|].
  cbn [view_rows].
  replace (i <? len children) with true
    by (symmetry; apply Z.ltb_lt; unfold len; lia).
  replace (i <? startIdx m + maxItems m) with true
    by (symmetry; apply Z.ltb_lt; lia).
  cbn [andb].
  assert (Hlook : exists ci, children !! Z.to_nat i = Some ci)
    by (apply lookup_lt_is_Some_2; lia).
  destruct Hlook as [ci Hci].
  rewrite (index_slice_lookup children i ci ltac:(lia) Hci).
  unfold strings_Repeat, mbind, outcome_bind.
  destruct (filledWidth (percentage h dir ci) <? 0) eqn:E; [reflexivity|].
  apply Z.ltb_ge in E.
  pose proof (filledWidth_le (percentage h dir ci)) as Hle.
  replace (barWidth - filledWidth (percentage h dir ci) <? 0) with false
    by (symmetry; apply Z.ltb_ge; lia).
  assert (Hne : i <> j).
  { intros ->. rewrite Hci in Hc. inversion Hc; subst. lia. }
  rewrite (IH (i + 1)) by lia. reflexivity.
Qed.

Lemma footer_returns (m : model) :
  0 <= deleteSpinner m < 10 ->
  exists ft,
    (if deleting m
     then frame ← index_slice spinnerFrames (deleteSpinner m);
          Ret (FooterDeleting frame (deleteFilename m))
     else Ret FooterStatusOrHelp) = Ret ft.
Proof.
  intros Hsp. destruct (deleting m); [|eauto].
  destruct (index_slice_ok spinnerFrames (deleteSpinner m))
    as (frame & Hframe & _).
  - reflexivity.
  - change (len spinnerFrames) with 10. lia.
  - rewrite Hframe. cbn. eauto.
Qed.

(** In a state of a session in which no sum wrapped around among the
    children of the current directory, no bar of the listing has a
    negative fill. *)
Lemma fills_nonneg (path : string) (fs : FsNode) (w : World) (m : model)
    (cd : ptr) :
  reach path fs w m -> currentDir m = Some cd ->
  sizes_fit (w_heap w) (Children (deref (w_heap w) cd)) = true ->
  forall c, c ∈ Children (deref (w_heap w) cd) ->
    0 <= filledWidth (percentage (w_heap w) cd c).
Proof.
  intros Hreach Hcd Hfit c Hc.
  pose proof (reach_Inv path fs w m Hreach) as [Hh _ Hr Hcur _ _ _].
  destruct (Hcur cd Hcd) as (r & Hroot & Htree).
  destruct (Hr r Hroot) as [Hrv _].
  destruct (in_tree_valid _ r cd Hh Hrv Htree) as [_ Hcdv].
  pose proof (child_size_le _ cd c Hh Hcdv Hfit Hc) as Hsize.
  destruct (percentage_bounds (w_heap w) cd c Hsize) as [Hp0 Hp1].
  now apply filledWidth_nonneg.
Qed.

(** X9.  In every state of a session in which the sizes of the children
    of the current directory are not negative and add up to an [int64]
    (no sum wrapped around there), [View] returns a screen: the scanning
    screen while the scan is marked as running; afterwards the error
    screen when the scan reported an error and the browser when it
    reported a root.  It does not panic on the current directory, on a
    bar or on the spinner frame of a deletion, and it never shows the
    screen without data. *)
Theorem view_returns (path : string) (fs : FsNode) (w : World) (m : model) :
  reach path fs w m ->
  sizes_fit (w_heap w) (current_children (w_heap w) m) = true ->
  exists scr,
    View (w_heap w) m = Ret scr /\ scr <> NoDataScreen /\
    (scanning m = true -> exists c p, scr = ScanningScreen c p) /\
    (scanning m = false ->
       match fst (scanDirectory path fs) with
       | mkScanComplete _ (Some err) => scr = ErrorScreen err
       | mkScanComplete _ None =>
           exists title total rows ft,
             scr = BrowserScreen title total (sortBy m) rows ft
       end).
Proof.
  intros Hreach Hfit.
  pose proof (reach_Inv path fs w m Hreach) as [Hh _ Hr Hc Hcursor _ _].
  pose proof (reach_ui_ok path fs w m Hreach) as [Hsp _ Hres Hcur].
  unfold View. destruct (scanning m) eqn:Hs.
  - destruct (scanProgress m); eexists; (split; [reflexivity|]);
      (split; [discriminate|]); (split; [eauto | discriminate]).
  - destruct (Hres eq_refl) as [Hroot Herr]. specialize (Hcur eq_refl).
    destruct (scan_result_cases path fs) as [[root Hsc]|[err Hsc]];
      rewrite Hsc in *; cbn in Hroot, Herr; rewrite Herr.
    + rewrite Hroot.
      destruct (currentDir m) as [cd|] eqn:Hcd;
        [|exfalso; apply Hcur; [congruence | reflexivity]].
      unfold current_children in Hfit. rewrite Hcd in Hfit.
      destruct (view_rows_spec (w_heap w) m cd (Children (deref (w_heap w) cd))
                  (length (Children (deref (w_heap w) cd)))
                  (fills_nonneg path fs w m cd Hreach Hcd Hfit) (startIdx m))
        as (rows & Hrows & _).
      { apply startIdx_window. lia. }
      { pose proof (startIdx_window m ltac:(lia)). unfold len. lia. }
      rewrite Hrows. cbn.
      destruct (footer_returns m Hsp) as [ft Hft]. rewrite Hft. cbn.
      eexists. split; [reflexivity|]. split; [discriminate|].
      split; [discriminate|]. intros _. eauto.
    + eexists. split; [reflexivity|]. split; [discriminate|].
      split; [discriminate | reflexivity].
Qed.

Lemma view_returns_witness :
  exists w m scr,
    session "." example_fs [EvScanComplete; EvKey "d"; EvDeleteProgress]
      = Some (w, m) /\
    View (w_heap w) m = Ret scr /\ scr <> NoDataScreen.
Proof.
  eexists _, _.
  assert (Hsess : session "." example_fs
                    [EvScanComplete; EvKey "d"; EvDeleteProgress]
                  = Some (fst (default (mkWorld [] [], initialModel)
                            (session "." example_fs
                               [EvScanComplete; EvKey "d"; EvDeleteProgress])),
                          snd (default (mkWorld [] [], initialModel)
                            (session "." example_fs
                               [EvScanComplete; EvKey "d"; EvDeleteProgress]))))
    by (vm_compute; reflexivity).
  destruct (view_returns "." example_fs _ _ (session_reach _ _ _ _ _ Hsess))
    as (scr & Hview & Hne & _); [vm_compute; reflexivity|].
  exists scr. split; [exact Hsess|]. split; [exact Hview | exact Hne].
Defined.

(** X10.  In the browser, outside of a scan, where no sum wrapped around
    among the children of the current directory, the listing shows at most
    [maxItems] rows, at least five fitting; its rows are the children of
    the current directory from [startIdx] on, in their order, each with a
    bar of 0 to 20 filled cells; and when the directory has children the
    row of the child under the cursor is among them and is the only one
    marked as selected. *)
Theorem view_window (path : string) (fs : FsNode) (w : World) (m : model)
    (cd : ptr) :
  reach path fs w m -> scanning m = false -> currentDir m = Some cd ->
  sizes_fit (w_heap w) (Children (deref (w_heap w) cd)) = true ->
  let h := w_heap w in
  let children := Children (deref h cd) in
  exists rows ft,
    View h m = Ret (BrowserScreen (Path (deref h cd))
                      (formatSize (Size (deref h cd))) (sortBy m) rows ft) /\
    Z.of_nat (length rows) <= maxItems m /\ 5 <= maxItems m /\
    (forall k r, rows !! k = Some r ->
       0 <= row_filled r <= barWidth /\
       exists c, children !! (Z.to_nat (startIdx m) + k)%nat = Some c /\
         r = mkRow (formatSize (Size (deref h c)))
               (filledWidth (percentage h cd c))
               (filepath_Base (Path (deref h c))) (IsDir (deref h c))
               (startIdx m + Z.of_nat k =? cursor m)) /\
    (forall k r, rows !! k = Some r -> row_selected r = true ->
       k = Z.to_nat (cursor m - startIdx m)) /\
    (children <> [] ->
       exists r, rows !! Z.to_nat (cursor m - startIdx m) = Some r /\
                 row_selected r = true).
Proof.
  intros Hreach Hs Hcd Hfit h children.
  pose proof (reach_Inv path fs w m Hreach) as [Hh _ Hr Hc Hcursor _ _].
  pose proof (reach_ui_ok path fs w m Hreach) as [Hsp _ Hres _].
  fold h in Hcursor. rewrite Hcd in Hcursor. fold children in Hcursor.
  destruct (Hc cd Hcd) as (r & Hroot & _).
  destruct (Hres Hs) as [Hroot' Herr].
  assert (Herr' : scanError m = None).
  { destruct (scan_result_cases path fs) as [[root Hsc]|[err Hsc]];
      rewrite Hsc in *; cbn in *; congruence. }
  pose proof (startIdx_window m ltac:(lia)) as Hwin.
  pose proof (fills_nonneg path fs w m cd Hreach Hcd Hfit) as Hfills.
  fold h children in Hfills.
  destruct (view_rows_spec h m cd children (length children) Hfills (startIdx m))
    as (rows & Hrows & Hlen & Hspec); [lia | unfold len; lia|].
  destruct (footer_returns m Hsp) as [ft Hft].
  exists rows, ft. split.
  { unfold View. rewrite Hs, Herr', Hroot, Hcd. fold h children.
    rewrite Hrows. cbn. rewrite Hft. reflexivity. }
  split; [lia|]. split; [apply maxItems_min|]. split; [|split].
  - intros k r0 Hk. destruct (Hspec k r0 Hk) as (c & Hc' & ->).
    split; [|eauto]. cbn [row_filled].
    split; [apply Hfills; apply list_elem_of_lookup; eauto
           | apply filledWidth_le].
  - intros k r0 Hk Hsel. destruct (Hspec k r0 Hk) as (c & _ & ->).
    cbn in Hsel. apply Z.eqb_eq in Hsel. lia.
  - intros Hne.
    assert (Hpos : 0 < len children)
      by (unfold len; destruct children; [congruence | cbn; lia]).
    destruct (lookup_lt_is_Some_2 rows (Z.to_nat (cursor m - startIdx m)))
      as [r0 Hr0]; [lia|].
    exists r0. split; [exact Hr0|].
    destruct (Hspec _ r0 Hr0) as (c & _ & ->). cbn. apply Z.eqb_eq. lia.
Qed.

Lemma view_window_witness :
  exists w m rows ft,
    session "." example_fs [EvWindow 80 10; EvScanComplete; EvKey "down"]
      = Some (w, m) /\
    View (w_heap w) m
      = Ret (BrowserScreen "." "2.0 KB" "size" rows ft) /\
    rows !! 1%nat = Some (mkRow "500 B" 5 "a.txt" false true).
Proof.
  eexists _, _.
  assert (Hsess : session "." example_fs
                    [EvWindow 80 10; EvScanComplete; EvKey "down"]
                  = Some (fst (default (mkWorld [] [], initialModel)
                            (session "." example_fs
                               [EvWindow 80 10; EvScanComplete; EvKey "down"])),
                          snd (default (mkWorld [] [], initialModel)
                            (session "." example_fs
                               [EvWindow 80 10; EvScanComplete; EvKey "down"]))))
    by (vm_compute; reflexivity).
  destruct (view_window "." example_fs _ _ 0%nat
              (session_reach _ _ _ _ _ Hsess) eq_refl eq_refl)
    as (rows & ft & Hview & _ & _ & Hrows & _ & Hsel); [vm_compute; reflexivity|].
  exists rows, ft. split; [exact Hsess|]. split; [exact Hview|].
  destruct Hsel as (r & Hr & _); [vm_compute; discriminate|].
  change (Z.to_nat _) with 1%nat in Hr.
  destruct (Hrows 1%nat r Hr) as (_ & c & Hc & ->).
  vm_compute in Hc. inversion Hc; subst. exact Hr.
Defined.

(** X17.  In the browser, [View] panics when the bar of a child that the
    listing shows comes out with a negative fill, which [strings.Repeat]
    refuses: that is the case of a child whose size, a sum that wrapped
    around, is negative and large against a positive size of the current
    directory.  A scan can leave such sizes behind. *)
Theorem view_panics (path : string) (fs : FsNode) (w : World) (m : model)
    (cd : ptr) (j : nat) (c : ptr) :
  reach path fs w m -> scanning m = false -> currentDir m = Some cd ->
  Children (deref (w_heap w) cd) !! j = Some c ->
  startIdx m <= Z.of_nat j < startIdx m + maxItems m ->
  (fill_value (percentage (w_heap w) cd c) <= - 1)%Q ->
  View (w_heap w) m = Panic.
Proof.
  intros Hreach Hs Hcd Hc Hj Hfill.
  pose proof (reach_Inv path fs w m Hreach) as [Hh _ Hr Hcur Hcursor _ _].
  pose proof (reach_ui_ok path fs w m Hreach) as [Hsp _ Hres _].
  rewrite Hcd in Hcursor.
  destruct (Hcur cd Hcd) as (r & Hroot & _).
  destruct (Hres Hs) as [Hroot' Herr].
  assert (Herr' : scanError m = None).
  { destruct (scan_result_cases path fs) as [[root Hsc]|[err Hsc]];
      rewrite Hsc in *; cbn in *; congruence. }
  pose proof (startIdx_window m ltac:(lia)) as Hwin.
  unfold View. rewrite Hs, Herr', Hroot, Hcd. cbv zeta.
  rewrite (view_rows_panic (w_heap w) m cd _ (Z.of_nat j) c).
  - reflexivity.
  - now rewrite Nat2Z.id.
  - lia.
  - now apply filledWidth_negative.
  - lia.
  - unfold len. lia.
Qed.

Lemma view_panics_witness :
  exists w m,
    session "." wrapped_fs [EvScanComplete] = Some (w, m) /\
    sizes (w_heap w) (Children (deref (w_heap w) 0%nat))
      = [2 ^ 62; 2 ^ 62; 2 ^ 62; - 2 ^ 63] /\
    Size (deref (w_heap w) 0%nat) = 2 ^ 62 /\
    View (w_heap w) m = Panic.
Proof.
  eexists _, _.
  assert (Hsess : session "." wrapped_fs [EvScanComplete]
                  = Some (fst (default (mkWorld [] [], initialModel)
                            (session "." wrapped_fs [EvScanComplete])),
                          snd (default (mkWorld [] [], initialModel)
                            (session "." wrapped_fs [EvScanComplete]))))
    by (vm_compute; reflexivity).
  split; [exact Hsess|]. split; [vm_compute; reflexivity|].
  split; [vm_compute; reflexivity|].
  apply (view_panics "." wrapped_fs _ _ 0%nat 3%nat 1%nat
           (session_reach _ _ _ _ _ Hsess)).
  - reflexivity.
  - reflexivity.
  - vm_compute. reflexivity.
  - vm_compute. split; [discriminate | reflexivity].
  - vm_compute. discriminate.
Defined.
